(** * chess-pgn-replay: lexer, PGN grammar driver and board engine

    A shallow embedding of [tokens.h], [scanner.h], [moves.h], [parser.h]
    and [board.h], followed by the properties of the replay pipeline.

    Conventions of the embedding.
    - [char] is [ascii], [std::string] is [list ascii], [int] and [size_t]
      are [Z] or [nat] (no value of the program comes near a wrap-around).
    - [std::optional<int>] is [option Z]; dereferencing an empty optional or
      indexing the board outside the grid is undefined behaviour in C++ and
      is reported as [Err UndefinedBehaviour].
    - A thrown exception is [Err Exception]; a failed [INTERNAL_ASSERT] is
      [Err AssertionFailed].  Both end the session.
    - Member functions that mutate [board_] take the board and return the
      new one. *)

From Stdlib Require Import ZArith Lia Ascii String.
From stdpp Require Import base tactics option list numbers strings.

Local Open Scope Z_scope.

(** ** Errors *)

Inductive error := AssertionFailed | Exception | UndefinedBehaviour | OutOfFuel.

Inductive result (A : Type) : Type :=
| Ok (a : A)
| Err (e : error).
Arguments Ok {A} a.
Arguments Err {A} e.

Definition bind {A B : Type} (m : result A) (k : A -> result B) : result B :=
  match m with Ok a => k a | Err e => Err e end.

Notation "x <- m ;; k" := (bind m (fun x => k))
  (at level 10, m at level 99, k at level 200, only parsing).


(** Modelled from the spec: [INTERNAL_ASSERT] comes from [common.h], which is
    not among the sources.  Section 7 of the specification says that internal
    assertions "abort the process". *)
Definition INTERNAL_ASSERT (c : bool) : result unit :=
  if c then Ok tt else Err AssertionFailed.

(** [*o] on a [std::optional<int>]. *)
Definition deref (o : option Z) : result Z :=
  match o with Some v => Ok v | None => Err UndefinedBehaviour end.

(** [o.value()] throws [std::bad_optional_access] on an empty optional. *)
Definition value (o : option Z) : result Z :=
  match o with Some v => Ok v | None => Err Exception end.

(** ** Characters *)

Definition code (c : ascii) : Z := Z.of_N (N_of_ascii c).

Definition char_eq (a b : ascii) : bool := Ascii.eqb a b.
Infix "=c" := char_eq (at level 70).

(** [lo <= c && hi >= c] on characters. *)
Definition char_between (lo hi c : ascii) : bool :=
  (code lo <=? code c) && (code c <=? code hi).

(** The classification functions of <cctype> in the "C" locale. *)
Definition isdigit (c : ascii) : bool := char_between "0" "9" c.
Definition isalpha (c : ascii) : bool :=
  char_between "A" "Z" c || char_between "a" "z" c.
Definition isprint (c : ascii) : bool := (32 <=? code c) && (code c <=? 126).

Definition str (s : string) : list ascii := list_ascii_of_string s.

Definition string_eq (a b : list ascii) : bool :=
  bool_decide (a = b).

(** Modelled from the spec: [r] and [f] come from [common.h], which is not
    among the sources.  Section 4.3: "Rank digit d maps to row index
    '8' - d.  File letter l maps to column index l - 'a'." *)
Definition r (c : ascii) : Z := code "8" - code c.
Definition f (c : ascii) : Z := code c - code "a".

(** ** moves.h *)

Definition all_possible_pieces : list ascii :=
  ["P"; "N"; "B"; "R"; "Q"; "K"]%char.

Definition is_piece (c : ascii) : bool :=
  existsb (char_eq c) all_possible_pieces.

Inductive TerminationMarker := MANUAL | WHITE_WON | BLAKC_WON | EVEN.

Record Coordinates := mkCoordinates { x : option Z; y : option Z }.

#[global] Instance Coordinates_eq_dec : EqDecision Coordinates.
Proof. solve_decision. Defined.

(** [Coordinates{a, b}] with both components present. *)
Definition at_ (a b : Z) : Coordinates := mkCoordinates (Some a) (Some b).

Record NextMove := mkNextMove {
  piece : ascii;
  is_white_move : bool;
  capture : bool;
  check : bool;
  checkmate : bool;
  src : Coordinates;
  dst : Coordinates;
  promote_piece : option ascii;
  orig_token : list ascii
}.

Inductive Moves :=
| KingCastling (is_white_move : bool)
| QueenCastling (is_white_move : bool)
| MNextMove (val : NextMove)
| Finish (marker : TerminationMarker)
| Ignore.

(** ** board.h: cells and the grid *)

Record Cell := mkCell {
  is_white : bool;
  cell_piece : ascii;
  double_move : bool
}.

#[global] Instance Cell_eq_dec : EqDecision Cell.
Proof. solve_decision. Defined.

Definition set_piece (p : ascii) (c : Cell) : Cell :=
  mkCell (is_white c) p (double_move c).
Definition set_is_white (w : bool) (c : Cell) : Cell :=
  mkCell w (cell_piece c) (double_move c).
Definition set_double_move (d : bool) (c : Cell) : Cell :=
  mkCell (is_white c) (cell_piece c) d.

(** [std::vector<std::vector<Cell>> board_]. *)
Abbreviation Board := (list (list Cell)).

Definition _N_ : Z := 8.

(** [board_[a][b]] read: outside the vectors the access is undefined. *)
Definition cell_at (b : Board) (a c : Z) : result Cell :=
  if (0 <=? a) && (0 <=? c) then
    match b !! Z.to_nat a with
    | Some row =>
        match row !! Z.to_nat c with
        | Some cell => Ok cell
        | None => Err UndefinedBehaviour
        end
    | None => Err UndefinedBehaviour
    end
  else Err UndefinedBehaviour.

(** [board_[a][b] = cell]. *)
Definition store_cell (b : Board) (a c : Z) (cell : Cell) : result Board :=
  if (0 <=? a) && (0 <=? c) then
    match b !! Z.to_nat a with
    | Some row =>
        match row !! Z.to_nat c with
        | Some _ => Ok (<[Z.to_nat a := <[Z.to_nat c := cell]> row]> b)
        | None => Err UndefinedBehaviour
        end
    | None => Err UndefinedBehaviour
    end
  else Err UndefinedBehaviour.

(** [board_[a][b].field = v], through a function on the cell. *)
Definition update_cell (b : Board) (a c : Z) (g : Cell -> Cell) : result Board :=
  cell <- cell_at b a c ;;
  store_cell b a c (g cell).

(** [clear()]: every cell is [{false, '.'}]. *)
Definition cleared_board : Board :=
  replicate 8 (replicate 8 (mkCell false "." false)).

Definition back_rank (w : bool) : list Cell :=
  map (fun p => mkCell w p false) (str "RNBQKBNR").
Definition pawn_rank (w : bool) : list Cell :=
  map (fun p => mkCell w p false) (str "PPPPPPPP").
Definition empty_rank : list Cell := replicate 8 (mkCell false "." false).

(** The constructor [ChessBoard()]: row [r('8')] and [r('7')] are black,
    [r('2')] and [r('1')] are white. *)
Definition initial_board : Board :=
  [back_rank false; pawn_rank false; empty_rank; empty_rank;
   empty_rank; empty_rank; pawn_rank true; back_rank true].

Definition in_range (idx : Z) : bool := (0 <=? idx) && (idx <=? _N_ - 1).

(** [manualy_set_cell]. *)
Definition manualy_set_cell (b : Board) (c : Coordinates) (cell : Cell)
  : result Board :=
  _ <- INTERNAL_ASSERT (bool_decide (is_Some (x c))) ;;
  _ <- INTERNAL_ASSERT (bool_decide (is_Some (y c))) ;;
  cy <- deref (y c) ;;
  cx <- deref (x c) ;;
  _ <- INTERNAL_ASSERT ((cy <=? _N_ - 1) && (0 <=? cy)) ;;
  _ <- INTERNAL_ASSERT ((cx <=? _N_ - 1) && (0 <=? cx)) ;;
  store_cell b cx cy cell.

Definition is_free_cell (b : Board) (c : Coordinates) : result bool :=
  cx <- deref (x c) ;;
  cy <- deref (y c) ;;
  cell <- cell_at b cx cy ;;
  Ok (cell_piece cell =c ".").

Definition is_valid_dest (b : Board) (dst : Coordinates) (capture is_white_move : bool)
  : result bool :=
  dx <- deref (x dst) ;;
  dy <- deref (y dst) ;;
  dst_cell <- cell_at b dx dy ;;
  if capture then
    Ok (eqb (is_white dst_cell) (negb is_white_move)
        && negb (cell_piece dst_cell =c "K"))
  else
    Ok (cell_piece dst_cell =c ".").

(** ** board.h: pin detection *)

(** The table [d] of [is_locked]: 0 = up, then clockwise. *)
Definition directions : list (Z * Z) :=
  [(-1, 0); (-1, 1); (0, 1); (1, 1); (1, 0); (1, -1); (0, -1); (-1, -1)].

(** The lambda [is_king_under_attack] of [is_locked]. *)
Definition is_king_under_attack (b : Board) (is_white_move : bool)
    (direction : Z) (ax ay : Z) : result bool :=
  c <- cell_at b ax ay ;;
  if (cell_piece c =c ".") || eqb (is_white c) is_white_move then Ok false
  else if negb (Z.land direction 1 =? 0) then
    Ok ((cell_piece c =c "Q") || (cell_piece c =c "B"))
  else
    Ok ((cell_piece c =c "Q") || (cell_piece c =c "R")).

(** [do { ray += d } while (in_range(ray.x) && in_range(ray.y) &&
    board_[ray].piece == '.')].  A ray leaves the grid after at most
    [_N_] steps inside it; [fuel] bounds the iterations. *)
Fixpoint ray_to_piece (fuel : nat) (b : Board) (rx ry ddx ddy : Z)
  : result (Z * Z) :=
  match fuel with
  | O => Err OutOfFuel
  | S fuel' =>
      let rx' := rx + ddx in
      let ry' := ry + ddy in
      if in_range rx' && in_range ry' then
        c <- cell_at b rx' ry' ;;
        if cell_piece c =c "." then ray_to_piece fuel' b rx' ry' ddx ddy
        else Ok (rx', ry')
      else Ok (rx', ry')
  end.

(** [do { ray += d } while (ray != dst && in_range(ray.x) &&
    in_range(ray.y) && board_[ray].piece == '.')]. *)
Fixpoint ray_to_piece_or_dst (fuel : nat) (b : Board) (dst : Coordinates)
    (rx ry ddx ddy : Z) : result (Z * Z) :=
  match fuel with
  | O => Err OutOfFuel
  | S fuel' =>
      let rx' := rx + ddx in
      let ry' := ry + ddy in
      if bool_decide (at_ rx' ry' ≠ dst) && in_range rx' && in_range ry' then
        c <- cell_at b rx' ry' ;;
        if cell_piece c =c "." then
          ray_to_piece_or_dst fuel' b dst rx' ry' ddx ddy
        else Ok (rx', ry')
      else Ok (rx', ry')
  end.

Definition ray_fuel : nat := 9.

(** The [for] loop of [is_locked] that looks for the friendly king: the
    index of the first direction whose ray ends on it, if any. *)
Fixpoint find_king (b : Board) (sx sy : Z) (is_white_move : bool)
    (ds : list (Z * Z)) (i : Z) : result (option Z) :=
  match ds with
  | [] => Ok None
  | (ddx, ddy) :: ds' =>
      ray <- ray_to_piece ray_fuel b sx sy ddx ddy ;;
      let '(rx, ry) := ray in
      if in_range rx && in_range ry then
        c <- cell_at b rx ry ;;
        if (cell_piece c =c "K") && eqb (is_white c) is_white_move then
          Ok (Some i)
        else find_king b sx sy is_white_move ds' (i + 1)
      else find_king b sx sy is_white_move ds' (i + 1)
  end.

Definition is_locked (b : Board) (src dst : Coordinates)
    (capture is_white_move : bool) : result bool :=
  sx <- deref (x src) ;;
  sy <- deref (y src) ;;
  found <- find_king b sx sy is_white_move directions 0 ;;
  match found with
  | None => Ok false
  | Some idx =>
      let opposite_idx := (idx + _N_ / 2) mod _N_ in
      match directions !! Z.to_nat opposite_idx with
      | None => Err UndefinedBehaviour
      | Some (ddx, ddy) =>
          ray <- ray_to_piece_or_dst ray_fuel b dst sx sy ddx ddy ;;
          let '(rx, ry) := ray in
          if in_range rx && in_range ry then
            c <- cell_at b rx ry ;;
            if negb (cell_piece c =c ".") then
              if bool_decide (at_ rx ry = dst) then
                _ <- INTERNAL_ASSERT (negb (eqb (is_white c) is_white_move)) ;;
                _ <- INTERNAL_ASSERT capture ;;
                let rx' := rx + ddx in
                let ry' := ry + ddy in
                if in_range rx' && in_range ry' then
                  is_king_under_attack b is_white_move idx rx' ry'
                else Ok false
              else is_king_under_attack b is_white_move idx rx ry
            else Ok false
          else Ok false
      end
  end.

(** ** board.h: the motion predicates *)

(** [can_move_pawn] writes the board: it removes the pawn captured en
    passant, and it sets [double_move] on the destination of a two-square
    push.  It returns its verdict together with the board. *)
Definition can_move_pawn (b : Board) (src dst : Coordinates)
    (capture is_white_move : bool) : result (bool * Board) :=
  dsty <- deref (y dst) ;;
  sy <- deref (y src) ;;
  sx <- deref (x src) ;;
  dstx <- deref (x dst) ;;
  let dy := Z.abs (dsty - sy) in
  let first_move := if is_white_move then r "2" =? sx else r "7" =? sx in
  let dx := if is_white_move then sx - dstx else dstx - sx in
  if capture then
    let result := (dx =? 1) && (dy =? 1) in
    dest_cell <- cell_at b dstx dsty ;;
    if result && (cell_piece dest_cell =c ".") then
      (* detect en passant *)
      let d := dsty - sy in
      let xy := sy + d in
      let xx := sx in
      _ <- INTERNAL_ASSERT (in_range xy) ;;
      captured_cell <- cell_at b xx xy ;;
      _ <- INTERNAL_ASSERT (cell_piece captured_cell =c "P") ;;
      _ <- INTERNAL_ASSERT (eqb (is_white captured_cell) (negb is_white_move)) ;;
      _ <- INTERNAL_ASSERT (double_move captured_cell) ;;
      b' <- store_cell b xx xy
             (set_double_move false (set_piece "." captured_cell)) ;;
      Ok (true, b')
    else if result then
      v <- is_valid_dest b dst capture is_white_move ;; Ok (v, b)
    else Ok (false, b)
  else if dx =? 2 then
    let result := first_move && (dy =? 0) in
    if result then
      let d := if is_white_move then -1 else 1 in
      free1 <- is_free_cell b (at_ (sx + d) sy) ;;
      if negb free1 then Ok (false, b)
      else
        free2 <- is_free_cell b (at_ (sx + d + d) sy) ;;
        if free2 then
          b' <- update_cell b dstx dsty (set_double_move true) ;;
          Ok (true, b')
        else Ok (false, b)
    else Ok (false, b)
  else if dx =? 1 then
    if dy =? 0 then
      v <- is_valid_dest b dst capture is_white_move ;; Ok (v, b)
    else Ok (false, b)
  else Ok (false, b).

(** The [while] loops of [can_move_rook] and [can_move_bishop]: [n] steps
    of [(ddx, ddy)] from the ray; every square passed that is not [dst] has
    to be free. *)
Fixpoint path_is_free (n : nat) (b : Board) (dst : Coordinates)
    (rx ry ddx ddy : Z) : result bool :=
  match n with
  | O => Ok true
  | S n' =>
      let rx' := rx + ddx in
      let ry' := ry + ddy in
      if bool_decide (dst ≠ at_ rx' ry') then
        free <- is_free_cell b (at_ rx' ry') ;;
        if negb free then Ok false
        else path_is_free n' b dst rx' ry' ddx ddy
      else path_is_free n' b dst rx' ry' ddx ddy
  end.

Definition can_move_rook (b : Board) (src dst : Coordinates)
    (capture is_white_move : bool) : result bool :=
  sx <- deref (x src) ;;
  dstx <- deref (x dst) ;;
  sy <- deref (y src) ;;
  dsty <- deref (y dst) ;;
  if (sx =? dstx) && negb (sy =? dsty) then
    free <- (if sy <? dsty
            then path_is_free (Z.to_nat (dsty - sy)) b dst sx sy 0 1
            else path_is_free (Z.to_nat (sy - dsty)) b dst sx sy 0 (-1)) ;;
    if free then is_valid_dest b dst capture is_white_move else Ok false
  else if (sy =? dsty) && negb (sx =? dstx) then
    free <- (if sx <? dstx
            then path_is_free (Z.to_nat (dstx - sx)) b dst sx sy 1 0
            else path_is_free (Z.to_nat (sx - dstx)) b dst sx sy (-1) 0) ;;
    if free then is_valid_dest b dst capture is_white_move else Ok false
  else Ok false.

Definition can_move_bishop (b : Board) (src dst : Coordinates)
    (capture is_white_move : bool) : result bool :=
  dstx <- deref (x dst) ;;
  sx <- deref (x src) ;;
  dsty <- deref (y dst) ;;
  sy <- deref (y src) ;;
  let dx := Z.abs (dstx - sx) in
  let dy := Z.abs (dsty - sy) in
  if (1 <=? dx) && (1 <=? dy) && (dx =? dy) then
    free <- (if (sx <? dstx) && (sy <? dsty)
            then path_is_free (Z.to_nat (dstx - sx)) b dst sx sy 1 1
            else if (sx <? dstx) && (dsty <? sy)
            then path_is_free (Z.to_nat (dstx - sx)) b dst sx sy 1 (-1)
            else if (dstx <? sx) && (sy <? dsty)
            then path_is_free (Z.to_nat (sx - dstx)) b dst sx sy (-1) 1
            else if (dstx <? sx) && (dsty <? sy)
            then path_is_free (Z.to_nat (sx - dstx)) b dst sx sy (-1) (-1)
            else Ok true) ;;
    if free then is_valid_dest b dst capture is_white_move else Ok false
  else Ok false.

Definition can_move_queen (b : Board) (src dst : Coordinates)
    (capture is_white_move : bool) : result bool :=
  rook <- can_move_rook b src dst capture is_white_move ;;
  if rook then Ok true else can_move_bishop b src dst capture is_white_move.

Definition can_move_knight (b : Board) (src dst : Coordinates)
    (capture is_white_move : bool) : result bool :=
  dstx <- deref (x dst) ;;
  sx <- deref (x src) ;;
  dsty <- deref (y dst) ;;
  sy <- deref (y src) ;;
  let dx := Z.abs (dstx - sx) in
  let dy := Z.abs (dsty - sy) in
  let result := ((dx =? 1) && (dy =? 2)) || ((dx =? 2) && (dy =? 1)) in
  if result then is_valid_dest b dst capture is_white_move else Ok false.

Definition can_move_king (b : Board) (src dst : Coordinates)
    (capture is_white_move : bool) : result bool :=
  sx <- deref (x src) ;;
  dstx <- deref (x dst) ;;
  sy <- deref (y src) ;;
  dsty <- deref (y dst) ;;
  let dx := Z.abs (sx - dstx) in
  let dy := Z.abs (sy - dsty) in
  let result :=
    (negb (dx =? 0) || negb (dy =? 0)) && (dx <=? 1) && (dy <=? 1) in
  if result then is_valid_dest b dst capture is_white_move else Ok false.

(** ** board.h: [ChessBoard::apply] *)

(** The state of the resolution loop of [apply]. *)
Record Resolution := mkResolution {
  res_board : Board;
  matches : nat;
  final_src : Coordinates;
  final_dst : Coordinates;
  found_match : bool
}.

(** The scanning loops that fill a candidate set: the cells are read in
    the order of the loop and the ones that pass [test] are emplaced. *)
Fixpoint scan_cells (b : Board) (test : Cell -> bool) (cells : list (Z * Z))
  : result (list Coordinates) :=
  match cells with
  | [] => Ok []
  | (cx, cy) :: cells' =>
      c <- cell_at b cx cy ;;
      rest <- scan_cells b test cells' ;;
      Ok (if test c then at_ cx cy :: rest else rest)
  end.

Definition indices : list Z := seqZ 0 _N_.
Definition whole_board : list (Z * Z) :=
  flat_map (fun cx => map (fun cy => (cx, cy)) indices) indices.
Definition whole_row (cx : Z) : list (Z * Z) := map (fun cy => (cx, cy)) indices.
Definition whole_file (cy : Z) : list (Z * Z) := map (fun cx => (cx, cy)) indices.

Definition src_candidates (b : Board) (val : NextMove)
  : result (list Coordinates) :=
  let test := fun c : Cell =>
    (cell_piece c =c piece val) && eqb (is_white c) (is_white_move val) in
  match x (src val), y (src val) with
  | None, None => scan_cells b test whole_board
  | Some sx, None => scan_cells b test (whole_row sx)
  | None, Some sy => scan_cells b test (whole_file sy)
  | Some sx, Some sy => Ok [mkCoordinates (Some sx) (Some sy)]
  end.

Definition dst_candidates (b : Board) (val : NextMove)
  : result (list Coordinates) :=
  let test := fun c : Cell => (cell_piece c =c ".") || capture val in
  match y (dst val) with
  | None =>
      dx <- value (x (dst val)) ;;
      scan_cells b test (whole_row dx)
  | Some dy =>
      match x (dst val) with
      | None => scan_cells b test (whole_file dy)
      | Some dx => Ok [mkCoordinates (Some dx) (Some dy)]
      end
  end.

(** The [switch (val.piece)] of the loop body. *)
Definition piece_can_move (val : NextMove) (b : Board) (src dst : Coordinates)
  : result (bool * Board) :=
  let cap := capture val in
  let w := is_white_move val in
  if piece val =c "P" then can_move_pawn b src dst cap w
  else if piece val =c "R" then v <- can_move_rook b src dst cap w ;; Ok (v, b)
  else if piece val =c "Q" then v <- can_move_queen b src dst cap w ;; Ok (v, b)
  else if piece val =c "N" then v <- can_move_knight b src dst cap w ;; Ok (v, b)
  else if piece val =c "B" then v <- can_move_bishop b src dst cap w ;; Ok (v, b)
  else if piece val =c "K" then v <- can_move_king b src dst cap w ;; Ok (v, b)
  else _ <- INTERNAL_ASSERT false ;; Ok (false, b).

(** The block run at the first match: "make sure to clear double move
    flag if the pawn has moved or if it has been captured". *)
Definition on_first_match (val : NextMove) (b : Board) (src dst : Coordinates)
  : result Board :=
  if piece val =c "P" then
    sx <- deref (x src) ;;
    sy <- deref (y src) ;;
    src_cell <- cell_at b sx sy ;;
    if double_move src_cell
    then store_cell b sx sy (set_double_move false src_cell)
    else Ok b
  else if capture val then
    dx <- deref (x dst) ;;
    dy <- deref (y dst) ;;
    dst_cell <- cell_at b dx dy ;;
    if double_move dst_cell then
      _ <- INTERNAL_ASSERT (cell_piece dst_cell =c "P") ;;
      store_cell b dx dy (set_double_move false dst_cell)
    else Ok b
  else Ok b.

(** One iteration of the inner loop. *)
Definition try_pair (val : NextMove) (st : Resolution) (src dst : Coordinates)
  : result Resolution :=
  locked <- is_locked (res_board st) src dst (capture val) (is_white_move val) ;;
  if locked then Ok st
  else
    mv <- piece_can_move val (res_board st) src dst ;;
    let '(ok, b1) := mv in
    let matches' := (matches st + (if ok then 1 else 0))%nat in
    if negb (found_match st) && (matches' =? 1)%nat then
      b2 <- on_first_match val b1 src dst ;;
      Ok (mkResolution b2 matches' src dst true)
    else
      Ok (mkResolution b1 matches' (final_src st) (final_dst st) (found_match st)).

Fixpoint for_each_dst (val : NextMove) (st : Resolution) (src : Coordinates)
    (dsts : list Coordinates) : result Resolution :=
  match dsts with
  | [] => Ok st
  | dst :: dsts' =>
      st' <- try_pair val st src dst ;;
      for_each_dst val st' src dsts'
  end.

Fixpoint for_each_src (val : NextMove) (st : Resolution)
    (srcs dsts : list Coordinates) : result Resolution :=
  match srcs with
  | [] => Ok st
  | src :: srcs' =>
      st' <- for_each_dst val st src dsts ;;
      for_each_src val st' srcs' dsts
  end.

(** The writes that follow the loop. *)
Definition move_piece (val : NextMove) (st : Resolution) : result Board :=
  fdx <- deref (x (final_dst st)) ;;
  fdy <- deref (y (final_dst st)) ;;
  b1 <- update_cell (res_board st) fdx fdy
          (set_piece (match promote_piece val with
                      | Some p => p
                      | None => piece val
                      end)) ;;
  fsx <- deref (x (final_src st)) ;;
  fsy <- deref (y (final_src st)) ;;
  b2 <- update_cell b1 fsx fsy (set_piece ".") ;;
  update_cell b2 fdx fdy (set_is_white (is_white_move val)).

(** The two castling lambdas: both asserted squares are free, then the cell
    of file [e] is copied to [king_to] and the cell of [rook_from] to
    [rook_to]; the two origins get piece ['.']. *)
Definition castle (b : Board) (rank_ : ascii)
    (free1 free2 king_to rook_from rook_to : ascii) : result Board :=
  c1 <- is_free_cell b (at_ (r rank_) (f free1)) ;;
  _ <- INTERNAL_ASSERT c1 ;;
  c2 <- is_free_cell b (at_ (r rank_) (f free2)) ;;
  _ <- INTERNAL_ASSERT c2 ;;
  king <- cell_at b (r rank_) (f "e") ;;
  b1 <- store_cell b (r rank_) (f king_to) king ;;
  b2 <- update_cell b1 (r rank_) (f "e") (set_piece ".") ;;
  rook <- cell_at b2 (r rank_) (f rook_from) ;;
  b3 <- store_cell b2 (r rank_) (f rook_to) rook ;;
  update_cell b3 (r rank_) (f rook_from) (set_piece ".").

Section Engine.

(** [src_candidates] and [dst_candidates] are [std::unordered_set]s: the
    order in which the range-for loops visit them is fixed by the standard
    library, not by the program.  It is a parameter of the engine: the
    list of the elements in insertion order is mapped to the list in
    iteration order. *)
Variable iteration_order : list Coordinates -> list Coordinates.

Definition resolve (b : Board) (val : NextMove) : result Resolution :=
  _ <- INTERNAL_ASSERT (negb (piece val =c zero)) ;;
  _ <- INTERNAL_ASSERT (bool_decide (is_Some (y (dst val)))) ;;
  srcs <- src_candidates b val ;;
  _ <- INTERNAL_ASSERT (negb (bool_decide (srcs = []))) ;;
  dsts <- dst_candidates b val ;;
  _ <- INTERNAL_ASSERT (negb (bool_decide (dsts = []))) ;;
  for_each_src val (mkResolution b 0 (mkCoordinates None None)
                      (mkCoordinates None None) false)
    (iteration_order srcs) (iteration_order dsts).

Definition apply (b : Board) (move : Moves) : result Board :=
  match move with
  | MNextMove val =>
      st <- resolve b val ;;
      _ <- INTERNAL_ASSERT (matches st =? 1)%nat ;;
      move_piece val st
  | QueenCastling t =>
      if t then castle b "1" "c" "d" "c" "a" "d"
      else castle b "8" "c" "d" "c" "a" "d"
  | Ignore => Ok b
  | KingCastling t =>
      if t then castle b "1" "g" "f" "g" "h" "f"
      else castle b "8" "g" "f" "g" "h" "f"
  | Finish _ => Ok b
  end.

End Engine.


(** [get]. *)
Definition get (b : Board) (c : Coordinates) : result Cell :=
  cx <- deref (x c) ;;
  cy <- deref (y c) ;;
  cell_at b cx cy.

(** ** tokens.h *)

Inductive AcceptResult :=
| CONSUMED
| TERMINATED_CONSUMED
| TERMINATED_NONCONSUMED
| INVALID.

(** The alternatives of the variant [Token], each with its data members. *)
Inductive Token :=
| monostate
| StringToken (value_ : list ascii)
| PeriodToken
| AsterkixToken
| LeftBraceToken
| RightBraceToken
| LeftParenthesisToken
| RightParenthesisToken
| NumericAnnotationToken
| SymbolToken (value_ : list ascii) (number_only_ : bool)
| IntegerToken (value_ : list ascii)
| BraceComment
| LineComment
| EscapeToken
| NumericGlyphToken (first : bool).

#[global] Instance Token_eq_dec : EqDecision Token.
Proof. solve_decision. Defined.

(** [value_.back()] and [value_.pop_back()]. *)
Definition back (s : list ascii) : option ascii := last s.
Definition pop_back (s : list ascii) : list ascii := removelast s.
Definition push_back (s : list ascii) (c : ascii) : list ascii := s ++ [c].

Definition back_is (s : list ascii) (c : ascii) : bool :=
  match back s with Some l => l =c c | None => false end.
Definition empty (s : list ascii) : bool :=
  match s with [] => true | _ => false end.

Definition dquote : ascii := Eval cbv in ascii_of_nat 34.
Definition backslash : ascii := Eval cbv in ascii_of_nat 92.

Definition StringToken_accept (value_ : list ascii) (c : ascii)
  : AcceptResult * list ascii :=
  if c =c dquote then
    if empty value_ then (CONSUMED, value_)
    else if back_is value_ backslash then (CONSUMED, push_back (pop_back value_) c)
    else (TERMINATED_CONSUMED, value_)
  else if c =c backslash then
    if empty value_ || back_is value_ backslash
    then (CONSUMED, push_back value_ c)
    else (CONSUMED, value_)
  else if isprint c then
    if negb (empty value_) && back_is value_ backslash then (INVALID, value_)
    else (CONSUMED, push_back value_ c)
  else (INVALID, value_).

Definition PeriodToken_accept (c : ascii) : AcceptResult :=
  if c =c "." then TERMINATED_CONSUMED else TERMINATED_NONCONSUMED.

Definition BraceComment_accept (c : ascii) : AcceptResult :=
  if c =c "}" then TERMINATED_CONSUMED else CONSUMED.

Definition newline : ascii := Eval cbv in ascii_of_nat 10.
Definition tab : ascii := Eval cbv in ascii_of_nat 9.

Definition LineComment_accept (c : ascii) : AcceptResult :=
  if c =c newline then TERMINATED_CONSUMED else CONSUMED.

Definition EscapeToken_accept (c : ascii) : AcceptResult :=
  if c =c newline then TERMINATED_CONSUMED else CONSUMED.

Definition NumericGlyphToken_accept (first : bool) (c : ascii)
  : AcceptResult * bool :=
  if isdigit c || (first && (c =c "$")) then (CONSUMED, false)
  else (TERMINATED_NONCONSUMED, first).

Definition is_symbol_char (c : ascii) : bool :=
  isdigit c || isalpha c || (c =c ":") || (c =c "-") || (c =c "_")
  || (c =c "+") || (c =c "=") || (c =c "#") || (c =c "/").

Definition SymbolToken_accept (value_ : list ascii) (number_only_ : bool)
    (c : ascii) : AcceptResult * (list ascii * bool) :=
  if is_symbol_char c then
    (CONSUMED, (push_back value_ c, if negb (isdigit c) then false else number_only_))
  else (TERMINATED_NONCONSUMED, (value_, number_only_)).

(** [t.accept(c)] for the token held by the variant: the verdict and the
    token after the call.  [std::monostate] has no [accept] (the scanner
    visits it with a lambda of its own); [IntegerToken::accept] throws. *)
Definition accept (t : Token) (c : ascii) : result (AcceptResult * Token) :=
  match t with
  | monostate => Err UndefinedBehaviour
  | StringToken v =>
      let '(a, v') := StringToken_accept v c in Ok (a, StringToken v')
  | PeriodToken => Ok (PeriodToken_accept c, t)
  | AsterkixToken | LeftBraceToken | RightBraceToken | LeftParenthesisToken
  | RightParenthesisToken | NumericAnnotationToken => Ok (TERMINATED_CONSUMED, t)
  | SymbolToken v n =>
      let '(a, (v', n')) := SymbolToken_accept v n c in Ok (a, SymbolToken v' n')
  | IntegerToken _ => Err Exception
  | BraceComment => Ok (BraceComment_accept c, t)
  | LineComment => Ok (LineComment_accept c, t)
  | EscapeToken => Ok (EscapeToken_accept c, t)
  | NumericGlyphToken fst =>
      let '(a, fst') := NumericGlyphToken_accept fst c in
      Ok (a, NumericGlyphToken fst')
  end.

(** The static members [Event]: one [std::type_index] per token type. *)
Inductive Event :=
| StringToken_Event | PeriodToken_Event | AsterkixToken_Event
| LeftBraceToken_Event | RightBraceToken_Event
| LeftParenthesisToken_Event | RightParenthesisToken_Event
| NumericAnnotationToken_Event | SymbolToken_Event | IntegerToken_Event
| BraceComment_Event | LineComment_Event | EscapeToken_Event
| NumericGlyphToken_Event.

#[global] Instance Event_eq_dec : EqDecision Event.
Proof. solve_decision. Defined.

Definition event_of (t : Token) : option Event :=
  match t with
  | monostate => None
  | StringToken _ => Some StringToken_Event
  | PeriodToken => Some PeriodToken_Event
  | AsterkixToken => Some AsterkixToken_Event
  | LeftBraceToken => Some LeftBraceToken_Event
  | RightBraceToken => Some RightBraceToken_Event
  | LeftParenthesisToken => Some LeftParenthesisToken_Event
  | RightParenthesisToken => Some RightParenthesisToken_Event
  | NumericAnnotationToken => Some NumericAnnotationToken_Event
  | SymbolToken _ _ => Some SymbolToken_Event
  | IntegerToken _ => Some IntegerToken_Event
  | BraceComment => Some BraceComment_Event
  | LineComment => Some LineComment_Event
  | EscapeToken => Some EscapeToken_Event
  | NumericGlyphToken _ => Some NumericGlyphToken_Event
  end.

(** [requires { t.value_; }]: the token types with a member [value_]. *)
Definition token_value (t : Token) : option (list ascii) :=
  match t with
  | StringToken v | SymbolToken v _ | IntegerToken v => Some v
  | _ => None
  end.

(** ** parser.h: [MoveFactory] *)

(** The reverse iterator [c] over [val] is the list of the characters it
    has not passed yet, last character of [val] first; [rend(val) == c] is
    the empty list.  Reading [*c] at [rend] is undefined. *)
Definition peek (c : list ascii) : result ascii :=
  match c with
  | ch :: _ => Ok ch
  | [] => Err UndefinedBehaviour
  end.

Definition needs_one_char (c : list ascii) : result unit :=
  match c with [] => Err Exception | _ => Ok tt end.

Definition has_more_char (c : list ascii) : bool := negb (empty c).

Definition with_piece (p : ascii) (m : NextMove) : NextMove :=
  mkNextMove p (is_white_move m) (capture m) (check m) (checkmate m)
    (src m) (dst m) (promote_piece m) (orig_token m).
Definition with_capture (m : NextMove) : NextMove :=
  mkNextMove (piece m) (is_white_move m) true (check m) (checkmate m)
    (src m) (dst m) (promote_piece m) (orig_token m).
Definition with_check (m : NextMove) : NextMove :=
  mkNextMove (piece m) (is_white_move m) (capture m) true (checkmate m)
    (src m) (dst m) (promote_piece m) (orig_token m).
Definition with_checkmate (m : NextMove) : NextMove :=
  mkNextMove (piece m) (is_white_move m) (capture m) (check m) true
    (src m) (dst m) (promote_piece m) (orig_token m).
Definition with_src (s : Coordinates) (m : NextMove) : NextMove :=
  mkNextMove (piece m) (is_white_move m) (capture m) (check m) (checkmate m)
    s (dst m) (promote_piece m) (orig_token m).
Definition with_dst (d : Coordinates) (m : NextMove) : NextMove :=
  mkNextMove (piece m) (is_white_move m) (capture m) (check m) (checkmate m)
    (src m) d (promote_piece m) (orig_token m).
Definition with_promote_piece (p : ascii) (m : NextMove) : NextMove :=
  mkNextMove (piece m) (is_white_move m) (capture m) (check m) (checkmate m)
    (src m) (dst m) (Some p) (orig_token m).

(** [for (size_t i = 1; i <= 2; ++i)]: up to [n] suffix marks. *)
Fixpoint parse_marks (n : nat) (m : NextMove) (c : list ascii)
  : result (NextMove * list ascii) :=
  match n with
  | O => Ok (m, c)
  | S n' =>
      _ <- needs_one_char c ;;
      ch <- peek c ;;
      if ch =c "#" then parse_marks n' (with_checkmate m) (tail c)
      else if ch =c "+" then parse_marks n' (with_check m) (tail c)
      else if ch =c ":" then parse_marks n' (with_capture m) (tail c)
      else Ok (m, c)
  end.

(** An optional rank digit, then an optional file letter; [guard_rank]
    tells whether the rank test is guarded by [has_more_char()]. *)
Definition parse_square (guard_rank : bool) (c : list ascii)
  : result (Coordinates * list ascii) :=
  ch <- (if guard_rank && negb (has_more_char c) then Ok zero else peek c) ;;
  let '(sx, c1) :=
    if (negb guard_rank || has_more_char c) && char_between "1" "8" ch
    then (Some (r ch), tail c) else (None, c) in
  match c1 with
  | ch1 :: c2 =>
      if char_between "a" "h" ch1 then Ok (mkCoordinates sx (Some (f ch1)), c2)
      else Ok (mkCoordinates sx None, c1)
  | [] => Ok (mkCoordinates sx None, c1)
  end.

Definition regular_move (val : list ascii) (white_turn : bool) : result Moves :=
  let m := mkNextMove zero white_turn false false false
             (mkCoordinates None None) (mkCoordinates None None) None val in
  let c := rev val in
  mc <- parse_marks 2 m c ;;
  let '(m, c) := mc in
  ch <- peek c ;;
  c <- (if ch =c ")" then _ <- needs_one_char (tail c) ;; Ok (tail c) else Ok c) ;;
  ch <- peek c ;;
  mc <- (if is_piece ch then
           _ <- needs_one_char (tail c) ;;
           sep <- peek (tail c) ;;
           Ok (with_promote_piece ch m,
               if (sep =c "=") || (sep =c "/") || (sep =c "(")
               then tail (tail c) else tail c)
         else Ok (m, c)) ;;
  let '(m, c) := mc in
  (* to *)
  dc <- parse_square true c ;;
  let '(d, c) := dc in
  let m := with_dst d m in
  if negb (has_more_char c) then
    (* this is a pawn move *)
    Ok (MNextMove (with_piece "P" m))
  else
    ch <- peek c ;;
    let '(m, c) :=
      if (ch =c "x") || (ch =c ":") then (with_capture m, tail c) else (m, c) in
    (* from *)
    sc <- parse_square false c ;;
    let '(s, c) := sc in
    let m := with_src s m in
    mc <- (match c with
           | ch :: c' =>
               if is_piece ch then Ok (with_piece ch m, c') else Err Exception
           | [] => Ok (with_piece "P" m, c)
           end) ;;
    let '(m, c) := mc in
    if has_more_char c then Err Exception else Ok (MNextMove m).

Definition MoveFactory (val : list ascii) (white_turn : bool) : result Moves :=
  if string_eq val (str "e") || string_eq val (str "p") then Ok Ignore
  else if string_eq val (str "O-O") then Ok (KingCastling white_turn)
  else if string_eq val (str "O-O-O") then Ok (QueenCastling white_turn)
  else if string_eq val (str "1-0") then Ok (Finish WHITE_WON)
  else if string_eq val (str "0-1") then Ok (Finish BLAKC_WON)
  else if string_eq val (str "1/2-1/2") then Ok (Finish EVEN)
  else regular_move val white_turn.

(** The part of the regular move that follows the destination square: the
    capture sign, the source square and the piece. *)
Definition read_source (m : NextMove) (c : list ascii) : result Moves :=
  if negb (has_more_char c) then
    Ok (MNextMove (with_piece "P" m))
  else
    ch <- peek c ;;
    let '(m, c) :=
      if (ch =c "x") || (ch =c ":") then (with_capture m, tail c) else (m, c) in
    sc <- parse_square false c ;;
    let '(s, c) := sc in
    let m := with_src s m in
    mc <- (match c with
           | ch :: c' =>
               if is_piece ch then Ok (with_piece ch m, c') else Err Exception
           | [] => Ok (with_piece "P" m, c)
           end) ;;
    let '(m, c) := mc in
    if has_more_char c then Err Exception else Ok (MNextMove m).

(** ** parser.h: [PGNParser] *)

Inductive State :=
| Init
| ParsingLeftBracket
| ParsingHeaderName
| ParsingHeaderValue
| ParsingRightBracket
| ParsingMove
| ParsingNumberIndication
| ParsingPeriod
| ParsingLeftParenthesis
| ParsingRightParenthesis
| ParsingComment
| Finished.

#[global] Instance State_eq_dec : EqDecision State.
Proof. solve_decision. Defined.

(** The [transitions.emplace] calls of the constructor, in their order:
    (state, event, target state). *)
Definition automaton_ : list (State * Event * State) :=
  [ (Init, LeftBraceToken_Event, ParsingLeftBracket);
    (ParsingLeftBracket, SymbolToken_Event, ParsingHeaderName);
    (ParsingHeaderName, StringToken_Event, ParsingHeaderValue);
    (ParsingHeaderValue, RightBraceToken_Event, ParsingRightBracket);
    (ParsingRightBracket, LeftBraceToken_Event, ParsingLeftBracket);
    (ParsingRightBracket, IntegerToken_Event, ParsingNumberIndication);
    (ParsingRightBracket, SymbolToken_Event, ParsingMove);
    (Init, IntegerToken_Event, ParsingNumberIndication);
    (ParsingNumberIndication, PeriodToken_Event, ParsingPeriod);
    (ParsingPeriod, PeriodToken_Event, ParsingPeriod);
    (ParsingPeriod, SymbolToken_Event, ParsingMove);
    (ParsingNumberIndication, SymbolToken_Event, ParsingMove);
    (Init, SymbolToken_Event, ParsingMove);
    (ParsingMove, SymbolToken_Event, ParsingMove);
    (ParsingMove, IntegerToken_Event, ParsingNumberIndication);
    (* Terminating states *)
    (Init, AsterkixToken_Event, Finished);
    (ParsingHeaderName, AsterkixToken_Event, Finished);
    (ParsingHeaderValue, AsterkixToken_Event, Finished);
    (ParsingRightBracket, AsterkixToken_Event, Finished);
    (ParsingMove, AsterkixToken_Event, Finished);
    (ParsingNumberIndication, AsterkixToken_Event, Finished);
    (ParsingPeriod, AsterkixToken_Event, Finished);
    (ParsingLeftParenthesis, AsterkixToken_Event, Finished);
    (ParsingRightParenthesis, AsterkixToken_Event, Finished);
    (ParsingComment, AsterkixToken_Event, Finished) ].

(** [automaton_[s].transitions.find(e)]; [emplace] keeps the first entry
    of a key. *)
Definition find_transition (s : State) (e : Event) : option State :=
  match List.find (fun t => bool_decide (t.1.1 = s) && bool_decide (t.1.2 = e))
          automaton_ with
  | Some t => Some t.2
  | None => None
  end.

(** [automaton_[s].transitions.empty()]. *)
Definition transitions_empty (s : State) : bool :=
  negb (existsb (fun t => bool_decide (t.1.1 = s)) automaton_).

(** Only [move_status] is given an [emit_move]. *)
Definition has_emit_move (s : State) : bool := bool_decide (s = ParsingMove).

Record PGNParser := mkPGNParser {
  state_ : State;
  paranthesis_count_ : Z;
  white_turn : bool
}.

Definition new_PGNParser : PGNParser := mkPGNParser Init 0 false.

(** The lambda stored in [move_status.emit_move]: it toggles [white_turn]
    and then calls the factory with the new value. *)
Definition emit_move (p : PGNParser) (val : list ascii)
  : result (Moves * PGNParser) :=
  let p' := mkPGNParser (state_ p) (paranthesis_count_ p) (negb (white_turn p)) in
  current <- MoveFactory val (white_turn p') ;;
  Ok (current, p').

Definition is_dummy (e : Event) : bool :=
  bool_decide (e = BraceComment_Event) || bool_decide (e = LineComment_Event)
  || bool_decide (e = EscapeToken_Event) || bool_decide (e = NumericGlyphToken_Event).

Definition consume_token (p : PGNParser) (token : Token)
  : result (option Moves * PGNParser) :=
  match event_of token with
  | None => _ <- INTERNAL_ASSERT false ;; Ok (None, p)
  | Some event =>
      (* skip some dummy tokens! *)
      if is_dummy event then Ok (None, p)
      else if bool_decide (event = LeftParenthesisToken_Event) then
        Ok (None, mkPGNParser (state_ p) (paranthesis_count_ p + 1) (white_turn p))
      else if bool_decide (event = RightParenthesisToken_Event) then
        Ok (None, mkPGNParser (state_ p) (paranthesis_count_ p - 1) (white_turn p))
      else
        _ <- INTERNAL_ASSERT (0 <=? paranthesis_count_ p) ;;
        _ <- INTERNAL_ASSERT (negb (transitions_empty (state_ p))) ;;
        match find_transition (state_ p) event with
        | None =>
            (* let's allow periods after parsing move *)
            if bool_decide (state_ p = ParsingMove)
               && bool_decide (event = PeriodToken_Event)
            then Ok (None, p)
            else Err Exception
        | Some target =>
            let p1 := mkPGNParser target (paranthesis_count_ p) (white_turn p) in
            if bool_decide (target = Finished) then
              Ok (if 0 <? paranthesis_count_ p then None else Some (Finish MANUAL), p1)
            else if bool_decide (target = ParsingMove) && has_emit_move target then
              match token_value token with
              | Some val =>
                  if 0 <? paranthesis_count_ p then Ok (None, p1)
                  else
                    mp <- emit_move p1 val ;;
                    Ok (Some mp.1, mp.2)
              | None => Ok (None, p1)
              end
            else Ok (None, p1)
        end
  end.

(** ** scanner.h *)

(** The scanner reads [file_] one character at a time into [c_];
    [repeat_] (a member of the iterator) says that [c_] has to be fed
    again before the next read. *)
Record TokenScanner := mkTokenScanner {
  file_ : list ascii;
  c_ : ascii;
  repeat_ : bool
}.

Definition new_TokenScanner (text : list ascii) : TokenScanner :=
  mkTokenScanner text zero false.

Definition is_token_separator (c : ascii) : bool :=
  (c =c " ") || (c =c newline) || (c =c tab).

(** The [switch (scanner_->c_)] that opens a token. *)
Definition open_token (c : ascii) : result Token :=
  if c =c "[" then Ok LeftBraceToken
  else if c =c "]" then Ok RightBraceToken
  else if c =c "(" then Ok LeftParenthesisToken
  else if c =c ")" then Ok RightParenthesisToken
  else if c =c dquote then Ok (StringToken [])
  else if c =c "." then Ok PeriodToken
  else if c =c "*" then Ok AsterkixToken
  else if c =c "{" then Ok BraceComment
  else if c =c "$" then Ok (NumericGlyphToken true)
  else if c =c ";" then Ok LineComment
  else if c =c "%" then Ok EscapeToken
  else if isdigit c || isalpha c then Ok (SymbolToken [] true)
  else Err Exception.

(** What one turn of the [while] loop of [scan_token] leaves behind. *)
Inductive Progress :=
| Continue (expecting_new_token : bool) (current_token_ : Token)
| Terminated (current_token_ : Token) (repeat_ : bool).

(** The body of the [while] loop for the character [c]; [repeat_] is the
    flag on entry (every path but the [monostate] one overwrites it). *)
Definition scan_char (repeat_ : bool) (expecting_new_token : bool)
    (current_token_ : Token) (c : ascii) : result Progress :=
  if expecting_new_token && is_token_separator c then
    Ok (Continue true current_token_)
  else
    t <- (if expecting_new_token then open_token c else Ok current_token_) ;;
    match t with
    | monostate => Ok (Terminated t repeat_)
    | _ =>
        a <- accept t c ;;
        match a.1 with
        | INVALID => Err Exception
        | TERMINATED_CONSUMED => Ok (Terminated a.2 false)
        | TERMINATED_NONCONSUMED =>
            (* need to start parsing new token, but the current symbol has
               to be re-tried! *)
            match a.2 with
            | SymbolToken v true => Ok (Terminated (IntegerToken v) true)
            | t' => Ok (Terminated t' true)
            end
        | CONSUMED => Ok (Continue false a.2)
        end
    end.

(** The turns of the loop that read from the stream.  At the end of the
    stream the loop is left with [token_terminated] false and the iterator
    becomes the end iterator: no token ([None]). *)
Fixpoint read_loop (expecting_new_token : bool) (current_token_ : Token)
    (file : list ascii) (c : ascii) : result (option Token * TokenScanner) :=
  match file with
  | [] => Ok (None, mkTokenScanner [] c false)
  | c' :: file' =>
      pr <- scan_char false expecting_new_token current_token_ c' ;;
      match pr with
      | Continue e t => read_loop e t file' c'
      | Terminated t rep => Ok (Some t, mkTokenScanner file' c' rep)
      end
  end.

Definition scan_token (s : TokenScanner) : result (option Token * TokenScanner) :=
  if repeat_ s then
    pr <- scan_char true true monostate (c_ s) ;;
    match pr with
    | Continue e t => read_loop e t (file_ s) (c_ s)
    | Terminated t rep => Ok (Some t, mkTokenScanner (file_ s) (c_ s) rep)
    end
  else read_loop true monostate (file_ s) (c_ s).

(** The tokens a range-for over the scanner visits.  Every [scan_token]
    that yields a token has read a character or cleared [repeat_], so
    [scan_fuel] turns are enough for a text. *)
Fixpoint tokens_of (fuel : nat) (s : TokenScanner) : result (list Token) :=
  match fuel with
  | O => Err OutOfFuel
  | S fuel' =>
      r <- scan_token s ;;
      match r.1 with
      | None => Ok []
      | Some token =>
          rest <- tokens_of fuel' r.2 ;;
          Ok (token :: rest)
      end
  end.

Definition scan_fuel (text : list ascii) : nat := 2 * length text + 2.

Definition tokens_of_text (text : list ascii) : result (list Token) :=
  tokens_of (scan_fuel text) (new_TokenScanner text).

(** ** The replay loop of [main] (and of [verify] in the tests) *)

Section Replay.

Variable iteration_order : list Coordinates -> list Coordinates.

(** The loop body, run over a given sequence of tokens. *)
Fixpoint replay (tokens : list Token) (parser : PGNParser) (board : Board)
  : result Board :=
  match tokens with
  | [] => Ok board
  | token :: rest =>
      ap <- consume_token parser token ;;
      match ap.1 with
      | None => replay rest ap.2 board
      | Some (Finish _) => Ok board
      | Some action =>
          board' <- apply iteration_order board action ;;
          replay rest ap.2 board'
      end
  end.

(** [for (const auto& token : scanner) { ... }]. *)
Fixpoint main_loop (fuel : nat) (scanner : TokenScanner) (parser : PGNParser)
    (board : Board) : result Board :=
  match fuel with
  | O => Err OutOfFuel
  | S fuel' =>
      r <- scan_token scanner ;;
      match r.1 with
      | None => Ok board
      | Some token =>
          ap <- consume_token parser token ;;
          match ap.1 with
          | None => main_loop fuel' r.2 ap.2 board
          | Some (Finish _) => Ok board
          | Some action =>
              board' <- apply iteration_order board action ;;
              main_loop fuel' r.2 ap.2 board'
          end
      end
  end.

Definition replay_text (text : list ascii) : result Board :=
  main_loop (scan_fuel text) (new_TokenScanner text) new_PGNParser initial_board.

End Replay.

(** The order in which the elements were inserted: one possible iteration
    order, used to run the engine on concrete games. *)
Definition insertion_order (l : list Coordinates) : list Coordinates := l.

(** ** board.h: printing the board *)

(** [operator<<(std::ostream&, const ChessBoard&)]: the characters written
    to the stream.  A cell is two blanks when its piece is ['.'], otherwise
    the colour letter and the piece; the cells of a row are separated by
    ['|'] and every row ends with a newline. *)
Definition print_cell (c : Cell) : list ascii :=
  let yor := (if is_white c then "w" else "b")%char in
  if cell_piece c =c "." then str "  " else [yor; cell_piece c].

Fixpoint print_row (b : Board) (cx : Z) (ys : list Z) : result (list ascii) :=
  match ys with
  | [] => Ok [newline]
  | cy :: ys' =>
      c <- cell_at b cx cy ;;
      rest <- print_row b cx ys' ;;
      Ok ((if 0 <? cy then ["|"%char] else []) ++ print_cell c ++ rest)
  end.

Fixpoint print_rows (b : Board) (xs : list Z) : result (list ascii) :=
  match xs with
  | [] => Ok []
  | cx :: xs' =>
      row <- print_row b cx indices ;;
      rest <- print_rows b xs' ;;
      Ok (row ++ rest)
  end.

Definition print_board (b : Board) : result (list ascii) :=
  print_rows b indices.

(** * Notions used in the statements *)

(** The characters the scanner still has to look at. *)
Definition pending_input (s : TokenScanner) : list ascii :=
  if repeat_ s then c_ s :: file_ s else file_ s.

(** The colour a descriptor carries, if it carries one. *)
Definition move_color (m : Moves) : option bool :=
  match m with
  | KingCastling w | QueenCastling w => Some w
  | MNextMove val => Some (is_white_move val)
  | Finish _ | Ignore => None
  end.

(** The back rank of the side that castles. *)
Definition castling_row (w : bool) : Z := if w then 7 else 0.

(** The board of the en-passant test: cleared, a black pawn on b7 and a
    white pawn on c5. *)
Definition en_passant_start : result Board :=
  b1 <- manualy_set_cell cleared_board (at_ 1 1) (mkCell false "P" false) ;;
  manualy_set_cell b1 (at_ 3 2) (mkCell true "P" false).

(** No cell of the board has the flag. *)
Definition no_double_move (b : Board) : bool :=
  forallb (forallb (fun c => negb (double_move c))) b.

(** The legality test of one (source, destination) pair on the board [b]:
    the pin test, then the predicate of the piece.  The answer comes with
    the board as the test leaves it. *)
Definition pair_verdict (val : NextMove) (b : Board)
    (p : Coordinates * Coordinates) : result (bool * Board) :=
  locked <- is_locked b p.1 p.2 (capture val) (is_white_move val) ;;
  if locked then Ok (false, b) else piece_can_move val b p.1 p.2.

(** The pair is tested on [b] and rejected. *)
Definition illegal (val : NextMove) (b : Board)
    (p : Coordinates * Coordinates) : Prop :=
  pair_verdict val b p = Ok (false, b).

(** The two nested loops as one loop over the pairs. *)
Fixpoint fold_pairs (val : NextMove) (st : Resolution)
    (pairs : list (Coordinates * Coordinates)) : result Resolution :=
  match pairs with
  | [] => Ok st
  | p :: rest =>
      st' <- try_pair val st p.1 p.2 ;;
      fold_pairs val st' rest
  end.

(** The locals of [apply] when the loops start. *)
Definition start_of_loop (b : Board) : Resolution :=
  mkResolution b 0 (mkCoordinates None None) (mkCoordinates None None) false.


(** The home row of the pawns of a colour and the row their two-square
    push ends on: rank 2 and rank 4 for white, rank 7 and rank 5 for
    black. *)
Definition pawn_home_row (w : bool) : Z := if w then 6 else 1.


(** The parenthesis depth after [tokens], starting at depth [k] above the
    opening parenthesis of a variation; [None] when a closing parenthesis
    has no partner inside. *)
Fixpoint nesting (k : nat) (tokens : list Token) : option nat :=
  match tokens with
  | [] => Some k
  | LeftParenthesisToken :: rest => nesting (S k) rest
  | RightParenthesisToken :: rest =>
      match k with
      | O => None
      | S k' => nesting k' rest
      end
  | _ :: rest => nesting k rest
  end.

(** The move of the automaton on one token, whatever the depth; [None]
    where [consume_token] stops with an error. *)
Definition automaton_step (s : State) (token : Token) : option State :=
  match event_of token with
  | None => None
  | Some event =>
      if is_dummy event
         || bool_decide (event = LeftParenthesisToken_Event)
         || bool_decide (event = RightParenthesisToken_Event)
      then Some s
      else if transitions_empty s then None
      else
        match find_transition s event with
        | Some target => Some target
        | None =>
            if bool_decide (s = ParsingMove)
               && bool_decide (event = PeriodToken_Event)
            then Some s else None
        end
  end.

(** The state the automaton is in after [tokens], from [s]. *)
Fixpoint automaton_run (s : State) (tokens : list Token) : option State :=
  match tokens with
  | [] => Some s
  | token :: rest =>
      match automaton_step s token with
      | Some s' => automaton_run s' rest
      | None => None
      end
  end.

(** The parser after [tokens], the descriptors set aside. *)
Fixpoint parser_after (tokens : list Token) (p : PGNParser) : result PGNParser :=
  match tokens with
  | [] => Ok p
  | token :: rest =>
      ap <- consume_token p token ;;
      parser_after rest ap.2
  end.

(** The two tokens that change the parenthesis depth. *)
Definition is_paren (token : Token) : bool :=
  match token with
  | LeftParenthesisToken | RightParenthesisToken => true
  | _ => false
  end.

(** The tokens of [1. e4] and of the body of the variation [(1. d4 d5)]. *)
Definition rav_example_pre : list Token :=
  [IntegerToken (str "1"); PeriodToken; SymbolToken (str "e4") false].

Definition rav_example_rav : list Token :=
  [IntegerToken (str "1"); PeriodToken; SymbolToken (str "d4") false;
   SymbolToken (str "d5") false].

(** [manualy_set_cell] on a board under construction, as the tests build
    their positions. *)
Definition place (b : result Board) (a c : Z) (cell : Cell) : result Board :=
  b0 <- b ;; manualy_set_cell b0 (at_ a c) cell.

(** The position of [test_locked_moves]: white knights on c1 and e1, the
    white king on d1 between them, a black rook on a1. *)
Definition pinned_knight_board : result Board :=
  place (place (place (place (Ok cleared_board)
    7 2 (mkCell true "N" false)) 7 4 (mkCell true "N" false))
    7 3 (mkCell true "K" false)) 7 0 (mkCell false "R" false).

(** [MoveFactory] on [text], then [apply]. *)
Definition play (order : list Coordinates -> list Coordinates)
    (b : result Board) (text : string) (white_turn : bool) : result Board :=
  b0 <- b ;;
  m <- MoveFactory (str text) white_turn ;;
  apply order b0 m.

(** The model never runs out of fuel on [r]. *)
Definition fuel_free {A} (r : result A) : Prop := r <> Err OutOfFuel.

(** In range, the number of steps a ray can still take in the direction
    [(ddx, ddy)] before it leaves the grid. *)
Definition ray_slack (ddx ddy rx ry : Z) : Z :=
  if ddx =? 1 then 7 - rx
  else if ddx =? -1 then rx
  else if ddy =? 1 then 7 - ry
  else ry.

(** What bounds the tokens a scanner can still yield: two for every
    character of the stream, one for a character to feed again. *)
Definition scan_measure (s : TokenScanner) : nat :=
  2 * length (file_ s) + (if repeat_ s then 1 else 0).

(** ** Notions for the further properties *)

(** The dimensions of the board: the length of every row. *)
Definition shape (b : Board) : list nat := length <$> b.

(** [_N_] rows of [_N_] cells. *)
Definition is_grid (b : Board) : Prop := shape b = replicate 8 8%nat.

(** The cell the mover's piece stands on after the move. *)
Definition moved_piece (val : NextMove) : ascii :=
  match promote_piece val with Some p => p | None => piece val end.

(** What a cell shows: nothing when its piece is ['.'], otherwise the
    colour and the piece. *)
Definition visible (c : Cell) : option (bool * ascii) :=
  if cell_piece c =c "." then None else Some (is_white c, cell_piece c).

(** The displacement each piece is allowed, rows growing downwards: the
    geometric part of the six [can_move_] predicates. *)
Definition pattern (p : ascii) (w cap : bool) (sx sy dx dy : Z) : bool :=
  let ax := Z.abs (dx - sx) in
  let ay := Z.abs (dy - sy) in
  let straight := ((ax =? 0) && negb (ay =? 0)) || ((ay =? 0) && negb (ax =? 0)) in
  let diagonal := (ax =? ay) && (1 <=? ax) in
  if p =c "P" then
    let step := if w then sx - dx else dx - sx in
    if cap then (step =? 1) && (ay =? 1)
    else (ay =? 0) && ((step =? 1) || ((step =? 2) && (sx =? pawn_home_row w)))
  else if p =c "R" then straight
  else if p =c "Q" then straight || diagonal
  else if p =c "N" then ((ax =? 1) && (ay =? 2)) || ((ax =? 2) && (ay =? 1))
  else if p =c "B" then diagonal
  else if p =c "K" then (ax <=? 1) && (ay <=? 1) && negb ((ax =? 0) && (ay =? 0))
  else false.

(** What the landing test leaves to be true of the destination cell. *)
Definition lands_safely (cap w : bool) (cell : Cell) : Prop :=
  cell_piece cell <> "K"%char
  /\ (cap = false -> cell_piece cell = "."%char)
  /\ (cap = true -> cell_piece cell <> "."%char -> is_white cell = negb w).

(** Every square strictly between the source and the destination, on the
    line from the one to the other, exists and is empty. *)
Definition empty_between (b : Board) (sx sy dx dy : Z) : Prop :=
  forall k, 0 < k < Z.max (Z.abs (dx - sx)) (Z.abs (dy - sy)) ->
    exists cell,
      cell_at b (sx + k * Z.sgn (dx - sx)) (sy + k * Z.sgn (dy - sy)) = Ok cell
      /\ cell_piece cell = "."%char.

(** The cell exists and its piece is ['.']. *)
Definition empty_square (b : Board) (a c : Z) : Prop :=
  exists cell, cell_at b a c = Ok cell /\ cell_piece cell = "."%char.

(** The pieces that attack along a line: the queen, and the bishop on a
    diagonal or the rook on a row or file. *)
Definition line_piece (diagonal : bool) (p : ascii) : bool :=
  (p =c "Q") || (if diagonal then p =c "B" else p =c "R").

(** The coordinate [v] agrees with what the move text gives, if it gives
    anything. *)
Definition agrees (given : option Z) (v : Z) : Prop :=
  match given with Some g => v = g | None => True end.

(** What holds of a token under construction, once its first character
    has been accepted. *)
Definition open_ok (t : Token) : bool :=
  match t with
  | StringToken v => forallb isprint v
  | SymbolToken v n =>
      negb (empty v) && forallb is_symbol_char v && eqb n (forallb isdigit v)
  | BraceComment | LineComment | EscapeToken => true
  | NumericGlyphToken fst => negb fst
  | _ => false
  end.

(** What holds of a token the scanner hands out. *)
Definition token_ok (t : Token) : bool :=
  match t with
  | monostate => false
  | StringToken v => negb (empty v) && forallb isprint v
  | SymbolToken v n =>
      negb n && negb (empty v) && forallb is_symbol_char v
      && negb (forallb isdigit v)
  | IntegerToken v => negb (empty v) && forallb isdigit v
  | NumericGlyphToken fst => negb fst
  | _ => true
  end.

(** The token a run of symbol characters is handed out as. *)
Definition word_token (v : list ascii) : Token :=
  if forallb isdigit v then IntegerToken v else SymbolToken v false.

(** A character that [StringToken::accept] appends without looking at what
    precedes it. *)
Definition plain (c : ascii) : bool :=
  isprint c && negb (c =c dquote) && negb (c =c backslash).

(** The tokens [consume_token] skips as "dummy tokens": comments, escape
    lines and numeric annotation glyphs. *)
Definition is_commentary (token : Token) : bool :=
  match event_of token with
  | Some event => is_dummy event
  | None => false
  end.

(** What [consume_token] reads of a token: its type, and the value of a
    SYMBOL. *)
Definition parser_view (token : Token) : option Event * option (list ascii) :=
  (event_of token,
   match token with SymbolToken v _ => Some v | _ => None end).

(** The tokens of a tag pair [[name "value"]]. *)
Definition tag_pair (tag : list ascii * list ascii) : list Token :=
  [LeftBraceToken; SymbolToken tag.1 false; StringToken tag.2; RightBraceToken].

(** An optional character of a text. *)
Definition opt_char (o : option ascii) : list ascii :=
  match o with Some c => [c] | None => [] end.

(** The text of a half-move in algebraic notation: an optional piece
    letter, an optional file and an optional rank of the source, an optional
    capture sign, the file and the rank of the destination, an optional
    promotion (the piece, after an optional separator) and the check and
    mate marks. *)
Definition san (piece_ sfile srank : option ascii) (cap : bool)
    (dfile drank : ascii) (promo : option (option ascii * ascii))
    (marks : list ascii) : list ascii :=
  opt_char piece_ ++ opt_char sfile ++ opt_char srank
  ++ (if cap then ["x"%char] else [])
  ++ [dfile; drank]
  ++ match promo with
     | Some (sep, p) => opt_char sep ++ [p]
     | None => []
     end
  ++ marks.

(** The parts of the notation are what they should be: a piece letter, file
    letters [a] to [h], rank digits [1] to [8], a promotion piece after
    nothing, [=] or [/], at most two marks [+] or [#]. *)
Definition san_parts_ok (piece_ sfile srank : option ascii)
    (dfile drank : ascii) (promo : option (option ascii * ascii))
    (marks : list ascii) : bool :=
  from_option is_piece true piece_
  && from_option (char_between "a" "h") true sfile
  && from_option (char_between "1" "8") true srank
  && char_between "a" "h" dfile
  && char_between "1" "8" drank
  && match promo with
     | Some (sep, p) =>
         from_option (fun s => (s =c "=") || (s =c "/")) true sep && is_piece p
     | None => true
     end
  && forallb (fun c => (c =c "+") || (c =c "#")) marks
  && (length marks <=? 2)%nat.

(** The capture sign has something in front of it. *)
Definition capture_has_source (piece_ sfile srank : option ascii) (cap : bool)
  : bool :=
  negb cap || bool_decide (is_Some piece_) || bool_decide (is_Some sfile)
  || bool_decide (is_Some srank).

(** The characters a token can start with: the punctuation of the
    [switch] that opens a token, a digit or a letter. *)
Definition opens_a_token (c : ascii) : bool :=
  existsb (char_eq c)
    ("["%char :: "]"%char :: "("%char :: ")"%char :: dquote :: "."%char
     :: "*"%char :: "{"%char :: "$"%char :: ";"%char :: "%"%char :: [])
  || isdigit c || isalpha c.

(** The tokens that are complete with their first character. *)
Definition one_character_token (c : ascii) : option Token :=
  if c =c "[" then Some LeftBraceToken
  else if c =c "]" then Some RightBraceToken
  else if c =c "(" then Some LeftParenthesisToken
  else if c =c ")" then Some RightParenthesisToken
  else if c =c "*" then Some AsterkixToken
  else if c =c "." then Some PeriodToken
  else None.

(** The knight move [Nf3] of White, and the pair it is resolved to on the
    starting position: g1 to f3. *)
Definition knight_to_f3 : NextMove :=
  mkNextMove "N" true false false false
    (mkCoordinates None None) (at_ 5 5) None (str "Nf3").

(** The cleared board with the colour flag and [double_move] set on the
    empty cell of row 0 and column 0. *)
Definition cleared_but_flags : Board :=
  (mkCell true "." true :: replicate 7 (mkCell false "." false))
  :: replicate 7 (replicate 8 (mkCell false "." false)).

(** ** Open atoms, flags and variations *)

(** The token under construction after the characters [body] have been
    fed to the open token [t], as long as each of them is consumed and
    none ends the token. *)
Fixpoint fed (t : Token) (body : list ascii) : option Token :=
  match body with
  | [] => Some t
  | c :: rest =>
      match scan_char false false t c with
      | Ok (Continue false t') => fed t' rest
      | _ => None
      end
  end.

(** The characters [tail] are an atom that is still open at their end: the
    first opens a token, and none of the others ends it or is refused. *)
Definition open_atom (tail : list ascii) : bool :=
  match tail with
  | [] => false
  | c :: body =>
      match scan_char false true monostate c with
      | Ok (Continue false t) => bool_decide (is_Some (fed t body))
      | _ => false
      end
  end.

(** The atoms that can be left open, as they are written: a SYMBOL or
    INTEGER; a STRING with no closing quote; a brace comment with no closing
    brace; a rest-of-line comment or an escape line with no newline; a
    numeric annotation glyph. *)
Inductive unterminated : list ascii -> Prop :=
| unterminated_symbol (ch : ascii) (sym : list ascii) :
    isdigit ch || isalpha ch = true ->
    Forall (fun a => is_symbol_char a = true) sym ->
    unterminated (ch :: sym)
| unterminated_string (n : nat) (v : list ascii) :
    Forall (fun a => plain a = true) v ->
    unterminated (replicate (S n) dquote ++ v)
| unterminated_brace_comment (body : list ascii) :
    Forall (fun a => a <> "}"%char) body ->
    unterminated ("{"%char :: body)
| unterminated_line_comment (body : list ascii) :
    Forall (fun a => a <> newline) body ->
    unterminated (";"%char :: body)
| unterminated_escape (body : list ascii) :
    Forall (fun a => a <> newline) body ->
    unterminated ("%"%char :: body)
| unterminated_glyph (digits : list ascii) :
    Forall (fun a => isdigit a = true) digits ->
    unterminated ("$"%char :: digits).

(** The text is scanned completely into [tokens]: every token is handed
    out before the text ends, and only separators follow the last one. *)
Inductive scanned : list ascii -> list Token -> Prop :=
| scanned_separators (ws : list ascii) :
    Forall (fun w => is_token_separator w = true) ws ->
    scanned ws []
| scanned_token (text : list ascii) (token : Token) (s' : TokenScanner)
    (tokens : list Token) :
    scan_token (new_TokenScanner text) = Ok (Some token, s') ->
    scanned (pending_input s') tokens ->
    scanned text (token :: tokens).



(** The tokens are handled alike from the states [s] and [s']: nothing but
    commentary and parentheses comes, or the first other token has the same
    transition from both states. *)
Fixpoint rejoin (s s' : State) (tokens : list Token) : bool :=
  match tokens with
  | [] => true
  | token :: rest =>
      if is_commentary token || is_paren token then rejoin s s' rest
      else
        match event_of token with
        | Some event =>
            match find_transition s event with
            | Some target =>
                bool_decide (find_transition s' event = Some target)
            | None => false
            end
        | None => false
        end
  end.

(** The same, or the states are the same. *)
Definition alike (s s' : State) (tokens : list Token) : bool :=
  bool_decide (s = s') || rejoin s s' tokens.

(** * Properties *)

(** ** Reasoning about [result] *)

Lemma bind_Ok_inv {A B} (m : result A) (k : A -> result B) (v : B) :
  bind m k = Ok v -> exists a, m = Ok a /\ k a = Ok v.
Proof. destruct m as [a|e]; simpl; [eauto | discriminate]. Qed.

Lemma bind_Ok {A B} (m : result A) (k : A -> result B) (a : A) :
  m = Ok a -> bind m k = k a.
Proof. intros ->. reflexivity. Qed.

Lemma bind_Err {A B} (m : result A) (k : A -> result B) (e : error) :
  m = Err e -> bind m k = Err e.
Proof. intros ->. reflexivity. Qed.

Lemma INTERNAL_ASSERT_Ok (c : bool) (u : unit) :
  INTERNAL_ASSERT c = Ok u -> c = true.
Proof. destruct c; [reflexivity | discriminate]. Qed.

(** Splits a hypothesis [bind m k = Ok v] into its two steps, as long as
    there is one. *)
Ltac inv_bind H :=
  let a := fresh "a" in
  let Ha := fresh "Ha" in
  apply bind_Ok_inv in H as (a & Ha & H).

Ltac inv_assert H :=
  let u := fresh "u" in
  let Hu := fresh "Hassert" in
  apply bind_Ok_inv in H as (u & Hu & H);
  apply INTERNAL_ASSERT_Ok in Hu.

(** ** Characters *)

Lemma char_eq_true (a b : ascii) : (a =c b) = true <-> a = b.
Proof. apply Ascii.eqb_eq. Qed.

Lemma char_eq_false (a b : ascii) : (a =c b) = false <-> a <> b.
Proof. apply Ascii.eqb_neq. Qed.

Lemma char_eq_refl (a : ascii) : (a =c a) = true.
Proof. apply Ascii.eqb_refl. Qed.

(** A letter or a digit opens a [SymbolToken], belongs to it and is not a
    separator. *)
Lemma alnum_opens_symbol (c : ascii) :
  isdigit c || isalpha c = true ->
  open_token c = Ok (SymbolToken [] true)
  /\ is_token_separator c = false
  /\ is_symbol_char c = true.
Proof.
  destruct c as [[] [] [] [] [] [] [] []]; vm_compute;
    intros H; try discriminate H; repeat split.
Qed.

Lemma symbol_char_not_separator (c : ascii) :
  is_symbol_char c = true -> is_token_separator c = false.
Proof.
  destruct c as [[] [] [] [] [] [] [] []]; vm_compute;
    intros H; try discriminate H; reflexivity.
Qed.

Lemma not_printable_not_special (c : ascii) :
  isprint c = false -> (c =c dquote) = false /\ (c =c backslash) = false.
Proof.
  destruct c as [[] [] [] [] [] [] [] []]; vm_compute;
    intros H; try discriminate H; split; reflexivity.
Qed.

(** ** tokens.h: [StringToken::accept] *)

Lemma back_push_back (v : list ascii) (c : ascii) : back (push_back v c) = Some c.
Proof. unfold back, push_back. apply last_snoc. Qed.

Lemma pop_back_push_back (v : list ascii) (c : ascii) :
  pop_back (push_back v c) = v.
Proof. unfold pop_back, push_back. apply removelast_last. Qed.

Lemma empty_push_back (v : list ascii) (c : ascii) : empty (push_back v c) = false.
Proof. unfold push_back. destruct v; reflexivity. Qed.

Lemma back_is_push_back (v : list ascii) (c d : ascii) :
  back_is (push_back v c) d = (c =c d).
Proof. unfold back_is. rewrite back_push_back. reflexivity. Qed.

(** C9 (counterexample).  A backslash does not escape every character: the
    lexer stores the backslash that opens the value, and the letter [a]
    after it is rejected, so the text [dquote backslash a dquote] is a fatal
    lexical error instead of a string holding [a]. *)
Lemma backslash_before_letter_is_invalid :
  StringToken_accept [backslash] "a" = (INVALID, [backslash])
  /\ tokens_of_text [dquote; backslash; "a"%char; dquote; " "%char]
     = Err Exception.
Proof. split; reflexivity. Qed.

(** C9 (amended).  Inside a STRING atom a backslash stored as the last
    character of the value escapes a following quote or backslash only: the
    quote takes the place of the backslash and does not terminate the
    string, a second backslash is appended, and every other character
    directly after the stored backslash is a fatal lexical error.  A
    backslash that opens the value is stored.  Apart from that a printable
    character other than quote and backslash is appended to the value, and a
    non-printable byte is always a fatal lexical error. *)
Theorem StringToken_accept_escapes (v : list ascii) (c : ascii) :
  StringToken_accept (push_back v backslash) dquote
    = (CONSUMED, push_back v dquote)
  /\ StringToken_accept (push_back v backslash) backslash
    = (CONSUMED, push_back (push_back v backslash) backslash)
  /\ (c <> dquote -> c <> backslash ->
      StringToken_accept (push_back v backslash) c
        = (INVALID, push_back v backslash))
  /\ StringToken_accept [] backslash = (CONSUMED, [backslash])
  /\ (isprint c = false -> StringToken_accept v c = (INVALID, v))
  /\ (isprint c = true -> c <> dquote -> c <> backslash ->
      back_is v backslash = false ->
      StringToken_accept v c = (CONSUMED, push_back v c)).
Proof.
  unfold StringToken_accept.
  rewrite !empty_push_back, !back_is_push_back, !pop_back_push_back.
  repeat split.
  - intros Hq Hb.
    apply char_eq_false in Hq, Hb. rewrite Hq, Hb. simpl.
    destruct (isprint c); reflexivity.
  - intros Hp. destruct (not_printable_not_special c Hp) as [-> ->].
    rewrite Hp. reflexivity.
  - intros Hp Hq Hb Hback.
    apply char_eq_false in Hq, Hb. rewrite Hq, Hb, Hp, Hback.
    rewrite andb_false_r. reflexivity.
Qed.

Lemma StringToken_accept_escapes_witness :
  StringToken_accept (push_back (str "ab") backslash) "n"
    = (INVALID, push_back (str "ab") backslash)
  /\ StringToken_accept (str "ab") newline = (INVALID, str "ab")
  /\ StringToken_accept (str "ab") "c" = (CONSUMED, push_back (str "ab") "c").
Proof.
  destruct (StringToken_accept_escapes (str "ab") "n")
    as (_ & _ & Hinvalid & _).
  destruct (StringToken_accept_escapes (str "ab") newline)
    as (_ & _ & _ & _ & Hnonprint & _).
  destruct (StringToken_accept_escapes (str "ab") "c")
    as (_ & _ & _ & _ & _ & Hprint).
  split; [apply Hinvalid; discriminate |].
  split; [apply Hnonprint; reflexivity |].
  apply Hprint; [reflexivity | discriminate | discriminate | reflexivity].
Defined.

(** A backslash met when the value is not empty and does not end in a
    backslash is consumed without being stored, and the quote after it
    terminates the string. *)
Example backslash_after_text_is_dropped :
  StringToken_accept (str "a") backslash = (CONSUMED, str "a")
  /\ StringToken_accept (str "a") dquote = (TERMINATED_CONSUMED, str "a").
Proof. split; reflexivity. Qed.

(** ** scanner.h: opening a token *)

Lemma scan_char_opens_symbol (rep : bool) (ch : ascii) :
  isdigit ch || isalpha ch = true ->
  exists n, scan_char rep true monostate ch
            = Ok (Continue false (SymbolToken [ch] n)).
Proof.
  intros Hch. destruct (alnum_opens_symbol ch Hch) as (Hopen & Hsep & Hsym).
  unfold scan_char. rewrite Hsep, Hopen. simpl.
  unfold SymbolToken_accept. rewrite Hsym. simpl. eauto.
Qed.

(** ** board.h: reading and writing cells *)

Lemma store_cell_inv (b b' : Board) (a c : Z) (cell : Cell) :
  store_cell b a c cell = Ok b' ->
  0 <= a /\ 0 <= c /\
  exists row old,
    b !! Z.to_nat a = Some row /\ row !! Z.to_nat c = Some old /\
    b' = <[Z.to_nat a := <[Z.to_nat c := cell]> row]> b.
Proof.
  unfold store_cell.
  destruct (0 <=? a) eqn:Ha, (0 <=? c) eqn:Hc; simpl; try discriminate.
  destruct (b !! Z.to_nat a) as [row|] eqn:Hrow; [|discriminate].
  destruct (row !! Z.to_nat c) as [old|] eqn:Hold; [|discriminate].
  intros [= <-]. repeat split; [lia | lia | eauto].
Qed.

Lemma cell_at_store_same (b b' : Board) (a c : Z) (cell : Cell) :
  store_cell b a c cell = Ok b' -> cell_at b' a c = Ok cell.
Proof.
  intros H. apply store_cell_inv in H as (Ha & Hc & row & old & Hrow & Hold & ->).
  unfold cell_at.
  replace (0 <=? a) with true by (symmetry; apply Z.leb_le; lia).
  replace (0 <=? c) with true by (symmetry; apply Z.leb_le; lia).
  cbn [andb].
  rewrite list_lookup_insert_eq by (eapply lookup_lt_Some; eauto).
  cbv beta iota.
  rewrite list_lookup_insert_eq by (eapply lookup_lt_Some; eauto).
  reflexivity.
Qed.

Lemma cell_at_store_other (b b' : Board) (a c a' c' : Z) (cell : Cell) :
  store_cell b a c cell = Ok b' -> (a', c') <> (a, c) ->
  cell_at b' a' c' = cell_at b a' c'.
Proof.
  intros H Hne.
  apply store_cell_inv in H as (Ha & Hc & row & old & Hrow & Hold & ->).
  unfold cell_at.
  destruct (0 <=? a') eqn:Ha', (0 <=? c') eqn:Hc'; cbn [andb]; try reflexivity.
  apply Z.leb_le in Ha', Hc'.
  destruct (decide (Z.to_nat a' = Z.to_nat a)) as [Heq|Hna].
  - assert (a' = a) by lia. subst a'.
    assert (Z.to_nat c <> Z.to_nat c') by (intros E; apply Hne; f_equal; lia).
    rewrite list_lookup_insert_eq by (eapply lookup_lt_Some; eauto).
    rewrite Hrow. cbv beta iota.
    rewrite list_lookup_insert_ne by assumption. reflexivity.
  - rewrite list_lookup_insert_ne by congruence. reflexivity.
Qed.

Lemma store_cell_defined (b : Board) (a c : Z) (cell old : Cell) :
  cell_at b a c = Ok old -> exists b', store_cell b a c cell = Ok b'.
Proof.
  unfold cell_at, store_cell.
  destruct ((0 <=? a) && (0 <=? c)); [|discriminate].
  destruct (b !! Z.to_nat a) as [row|]; [|discriminate].
  destruct (row !! Z.to_nat c); [eauto | discriminate].
Qed.

Lemma update_cell_inv (b b' : Board) (a c : Z) (g : Cell -> Cell) :
  update_cell b a c g = Ok b' ->
  exists old, cell_at b a c = Ok old /\ store_cell b a c (g old) = Ok b'.
Proof. unfold update_cell. intros H. inv_bind H. eauto. Qed.

Lemma update_cell_defined (b : Board) (a c : Z) (g : Cell -> Cell) (old : Cell) :
  cell_at b a c = Ok old ->
  exists b', update_cell b a c g = Ok b' /\ store_cell b a c (g old) = Ok b'.
Proof.
  intros H. unfold update_cell. rewrite H. simpl.
  destruct (store_cell_defined b a c (g old) old H) as [b' Hb']. eauto.
Qed.

(** ** board.h: the landing test *)

(** C6 (the code at the failing input).  On the starting position the
    square f3, row 5 and column 5, is empty and carries the colour flag
    [false] that [clear()] gave it; [is_valid_dest] accepts it as the landing
    square of a white capture, and the half-move [Nxf3] is applied. *)
Theorem capture_lands_on_empty_square :
  cell_at initial_board 5 5 = Ok (mkCell false "." false)
  /\ is_valid_dest initial_board (at_ 5 5) true true = Ok true
  /\ exists mv b',
       MoveFactory (str "Nxf3") true = Ok mv
       /\ apply insertion_order initial_board mv = Ok b'
       /\ cell_at b' 5 5 = Ok (mkCell true "N" false).
Proof.
  split; [reflexivity |]. split; [reflexivity |].
  eexists _, _. split; [reflexivity |]. split; [vm_compute; reflexivity |].
  reflexivity.
Qed.

(** What [is_valid_dest] computes, for a cell that exists: on a capture the
    colour flag and the king test only, otherwise emptiness. *)
Lemma is_valid_dest_spec (b : Board) (dx dy : Z) (capture w : bool) (c : Cell) :
  cell_at b dx dy = Ok c ->
  is_valid_dest b (at_ dx dy) capture w
  = Ok (if capture
        then eqb (is_white c) (negb w) && negb (cell_piece c =c "K")
        else cell_piece c =c ".").
Proof.
  intros H. unfold is_valid_dest. simpl. rewrite H. simpl.
  destruct capture; reflexivity.
Qed.

(** ** parser.h: the grammar driver *)

(** C8 (the code at the failing input).  The constructor registers the
    transition on [AsterkixToken] for ten states, and
    [ParsingLeftBracket] is not one of them: a STAR that follows an opening
    bracket finds no transition and the driver throws. *)
Theorem star_after_left_bracket_is_grammar_error :
  find_transition ParsingLeftBracket AsterkixToken_Event = None
  /\ consume_token (mkPGNParser ParsingLeftBracket 0 false) AsterkixToken
     = Err Exception
  /\ tokens_of_text (str "[* ") = Ok [LeftBraceToken; AsterkixToken]
  /\ replay insertion_order [LeftBraceToken; AsterkixToken]
       new_PGNParser initial_board = Err Exception.
Proof. repeat split; reflexivity. Qed.

(** In the ten states of the table a STAR leads to [Finished]; the
    descriptor [Finish{MANUAL}] is emitted outside parentheses. *)
Lemma star_finishes (s : State) (n : Z) (w : bool) :
  s <> ParsingLeftBracket -> s <> Finished -> 0 <= n ->
  consume_token (mkPGNParser s n w) AsterkixToken
  = Ok (if 0 <? n then None else Some (Finish MANUAL),
        mkPGNParser Finished n w).
Proof.
  intros Hs Hf Hn. unfold consume_token. simpl.
  replace (0 <=? n) with true by (symmetry; apply Z.leb_le; lia).
  destruct s; try congruence; reflexivity.
Qed.

Lemma parse_marks_color (n : nat) (m m' : NextMove) (c c' : list ascii) :
  parse_marks n m c = Ok (m', c') -> is_white_move m' = is_white_move m.
Proof.
  revert m c. induction n as [|n IH]; intros m c H; simpl in H.
  - injection H as <- _. reflexivity.
  - inv_bind H. inv_bind H.
    repeat match type of H with
           | (if ?t then _ else _) = _ => destruct t
           end;
      try (apply IH in H; rewrite H; reflexivity).
    injection H as <- _. reflexivity.
Qed.

(** Steps through a successful run of monadic code in a hypothesis. *)
Ltac step_Ok :=
  match goal with
  | H : Err _ = Ok _ |- _ => discriminate H
  | H : bind _ _ = Ok _ |- _ => inv_bind H
  | H : (if ?t then _ else _) = Ok _ |- _ => destruct t eqn:?
  | H : (if ?t then _ else _) = (_, _) |- _ => destruct t eqn:?
  | H : (let '(_, _) := ?p in _) = Ok _ |- _ => destruct p eqn:?
  | H : match ?l with [] => _ | _ :: _ => _ end = Ok _ |- _ => destruct l eqn:?
  | H : Ok _ = Ok _ |- _ => injection H as ?
  | H : (_, _) = (_, _) |- _ => injection H as ? ?
  end.

Lemma regular_move_color (val : list ascii) (w : bool) (mv : Moves) :
  regular_move val w = Ok mv ->
  exists nm, mv = MNextMove nm /\ is_white_move nm = w.
Proof.
  unfold regular_move. intros H.
  inv_bind H. destruct a as [m1 c1]. apply parse_marks_color in Ha.
  simpl in Ha.
  repeat step_Ok; subst; eexists; (split; [reflexivity |]); simpl;
    (assumption || reflexivity).
Qed.

Lemma MoveFactory_cases (val : list ascii) (w : bool) (mv : Moves) :
  MoveFactory val w = Ok mv ->
  mv = Ignore \/ mv = KingCastling w \/ mv = QueenCastling w
  \/ (exists t, mv = Finish t /\ t <> MANUAL)
  \/ (exists nm, mv = MNextMove nm /\ is_white_move nm = w).
Proof.
  unfold MoveFactory. intros H.
  destruct (_ || _); [injection H as <-; tauto |].
  destruct (string_eq _ _); [injection H as <-; tauto |].
  destruct (string_eq _ _); [injection H as <-; tauto |].
  destruct (string_eq _ _);
    [injection H as <-; do 3 right; left; eexists; split; [reflexivity | discriminate] |].
  destruct (string_eq _ _);
    [injection H as <-; do 3 right; left; eexists; split; [reflexivity | discriminate] |].
  destruct (string_eq _ _);
    [injection H as <-; do 3 right; left; eexists; split; [reflexivity | discriminate] |].
  do 4 right. apply (regular_move_color val), H.
Qed.

(** C4 (counterexample).  The driver is in [ParsingMove] with the flag
    false; on the symbol [O-O] it emits a king-side castling and the flag
    has become true: a castling toggles the flag like any other
    half-move. *)
Lemma castling_toggles_white_turn :
  exists p',
    consume_token (mkPGNParser ParsingMove 0 false)
      (SymbolToken (str "O-O") false)
    = Ok (Some (KingCastling true), p')
    /\ white_turn p' = true
    /\ white_turn p' <> white_turn (mkPGNParser ParsingMove 0 false).
Proof. eexists. split; [reflexivity |]. split; [reflexivity | discriminate]. Qed.

(** C4 (amended).  The white-turn flag toggles every time the driver emits
    a descriptor produced by the move interpreter (a NextMove, a
    KingSideCastle or QueenSideCastle, an Ignore, or a Finish for a result
    symbol) and at no other time; a STAR emits [Finish{MANUAL}] without a
    toggle.  The colour carried by a NextMove or a castling descriptor is
    the value of the flag after the toggle. *)
Theorem white_turn_toggles_with_every_interpreted_symbol
    (p p' : PGNParser) (token : Token) (action : option Moves) :
  consume_token p token = Ok (action, p') ->
  match action with
  | None | Some (Finish MANUAL) => white_turn p' = white_turn p
  | Some m =>
      white_turn p' = negb (white_turn p)
      /\ forall c, move_color m = Some c -> c = white_turn p'
  end.
Proof.
  unfold consume_token. intros H.
  destruct (event_of token) as [event|]; [|discriminate H].
  destruct (is_dummy event); [injection H as <- <-; reflexivity |].
  destruct (bool_decide _); [injection H as <- <-; reflexivity |].
  destruct (bool_decide _); [injection H as <- <-; reflexivity |].
  inv_assert H. inv_assert H.
  destruct (find_transition _ _) as [target|].
  - destruct (bool_decide (target = Finished)).
    { injection H as <- <-. destruct (0 <? _); reflexivity. }
    destruct (_ && _); [|injection H as <- <-; reflexivity].
    destruct (token_value token) as [val|]; [|injection H as <- <-; reflexivity].
    destruct (0 <? _); [injection H as <- <-; reflexivity |].
    inv_bind H. injection H as <- <-.
    unfold emit_move in Ha. inv_bind Ha. injection Ha as <-. simpl in *.
    apply MoveFactory_cases in Ha0
      as [-> | [-> | [-> | [(t & -> & Ht) | (nm & -> & Hnm)]]]]; simpl.
    + split; [reflexivity | discriminate].
    + split; [reflexivity | congruence].
    + split; [reflexivity | congruence].
    + destruct t; [congruence | | |]; (split; [reflexivity | discriminate]).
    + split; [reflexivity | congruence].
  - destruct (_ && _); [injection H as <- <-; reflexivity | discriminate H].
Qed.

Lemma white_turn_toggles_with_every_interpreted_symbol_witness :
  white_turn (mkPGNParser ParsingMove 0 false)
  = negb (white_turn (mkPGNParser ParsingMove 0 true))
  /\ forall c, move_color (QueenCastling false) = Some c ->
               c = white_turn (mkPGNParser ParsingMove 0 false).
Proof.
  apply (white_turn_toggles_with_every_interpreted_symbol
           (mkPGNParser ParsingMove 0 true) (mkPGNParser ParsingMove 0 false)
           (SymbolToken (str "O-O-O") false) (Some (QueenCastling false))).
  reflexivity.
Defined.

(** ** board.h: castling *)

Lemma is_free_cell_spec (b : Board) (a c : Z) (cell : Cell) :
  cell_at b a c = Ok cell ->
  is_free_cell b (at_ a c) = Ok (cell_piece cell =c ".").
Proof. intros H. unfold is_free_cell. simpl. rewrite H. reflexivity. Qed.

Lemma apply_QueenCastling (order : list Coordinates -> list Coordinates)
    (b : Board) (w : bool) :
  apply order b (QueenCastling w) =
  let row := castling_row w in
  c1 <- is_free_cell b (at_ row 2) ;;
  _ <- INTERNAL_ASSERT c1 ;;
  c2 <- is_free_cell b (at_ row 3) ;;
  _ <- INTERNAL_ASSERT c2 ;;
  king <- cell_at b row 4 ;;
  b1 <- store_cell b row 2 king ;;
  b2 <- update_cell b1 row 4 (set_piece ".") ;;
  rook <- cell_at b2 row 0 ;;
  b3 <- store_cell b2 row 3 rook ;;
  update_cell b3 row 0 (set_piece ".").
Proof. destruct w; reflexivity. Qed.

(** C7 (counterexample).  White king on e1, white rook on a1 and a white
    knight on b1, column 1 of the back rank: the queen-side castling is
    applied without any error, although an intermediate square is
    occupied. *)
Lemma queen_side_castling_ignores_b_file :
  exists b0 b',
    (b1 <- manualy_set_cell cleared_board (at_ 7 0) (mkCell true "R" false) ;;
     b2 <- manualy_set_cell b1 (at_ 7 4) (mkCell true "K" false) ;;
     manualy_set_cell b2 (at_ 7 1) (mkCell true "N" false)) = Ok b0
    /\ cell_at b0 7 1 = Ok (mkCell true "N" false)
    /\ apply insertion_order b0 (QueenCastling true) = Ok b'
    /\ cell_at b' 7 2 = Ok (mkCell true "K" false)
    /\ cell_at b' 7 3 = Ok (mkCell true "R" false).
Proof. eexists _, _. repeat split; reflexivity. Qed.

(** C7 (amended).  Applying a QueenSideCastle descriptor asserts that
    columns 2 and 3 of the mover's back rank are empty, the squares the king
    and the rook land on; a piece on one of them is a fatal error.  Column 1
    is not looked at.  When both are empty the cell of column 4 is copied to
    column 2 and the cell of column 0 to column 3, columns 4 and 0 get piece
    ['.'], and no other cell changes. *)
Theorem queen_side_castling (order : list Coordinates -> list Coordinates)
    (b : Board) (w : bool) (king rook c2 c3 : Cell) :
  let row := castling_row w in
  cell_at b row 4 = Ok king ->
  cell_at b row 0 = Ok rook ->
  cell_at b row 2 = Ok c2 ->
  cell_at b row 3 = Ok c3 ->
  (cell_piece c2 = "."%char /\ cell_piece c3 = "."%char ->
   exists b',
     apply order b (QueenCastling w) = Ok b'
     /\ cell_at b' row 2 = Ok king
     /\ cell_at b' row 3 = Ok rook
     /\ cell_at b' row 4 = Ok (set_piece "." king)
     /\ cell_at b' row 0 = Ok (set_piece "." rook)
     /\ forall a c, (a, c) <> (row, 0) -> (a, c) <> (row, 2) ->
                    (a, c) <> (row, 3) -> (a, c) <> (row, 4) ->
                    cell_at b' a c = cell_at b a c)
  /\ (cell_piece c2 <> "."%char \/ cell_piece c3 <> "."%char ->
      apply order b (QueenCastling w) = Err AssertionFailed).
Proof.
  intros row Hking Hrook Hc2 Hc3. rewrite apply_QueenCastling. fold row.
  cbv zeta.
  rewrite (is_free_cell_spec b row 2 c2 Hc2), (is_free_cell_spec b row 3 c3 Hc3).
  split.
  - intros [E2 E3]. rewrite E2, E3. simpl. rewrite Hking. simpl.
    destruct (store_cell_defined b row 2 king c2 Hc2) as [b1 Hb1].
    rewrite Hb1. simpl.
    assert (Hk1 : cell_at b1 row 4 = Ok king).
    { rewrite (cell_at_store_other _ _ _ _ _ _ _ Hb1); [assumption | intros [=]]. }
    destruct (update_cell_defined b1 row 4 (set_piece ".") king Hk1)
      as (b2 & -> & Hb2). simpl.
    assert (Hr2 : cell_at b2 row 0 = Ok rook).
    { rewrite (cell_at_store_other _ _ _ _ _ _ _ Hb2) by (intros [=]).
      rewrite (cell_at_store_other _ _ _ _ _ _ _ Hb1) by (intros [=]).
      assumption. }
    rewrite Hr2. simpl.
    assert (H32 : cell_at b2 row 3 = Ok c3).
    { rewrite (cell_at_store_other _ _ _ _ _ _ _ Hb2) by (intros [=]).
      rewrite (cell_at_store_other _ _ _ _ _ _ _ Hb1) by (intros [=]).
      assumption. }
    destruct (store_cell_defined b2 row 3 rook c3 H32) as [b3 Hb3].
    rewrite Hb3. simpl.
    assert (Hr3 : cell_at b3 row 0 = Ok rook).
    { rewrite (cell_at_store_other _ _ _ _ _ _ _ Hb3) by (intros [=]).
      assumption. }
    destruct (update_cell_defined b3 row 0 (set_piece ".") rook Hr3)
      as (b4 & -> & Hb4).
    exists b4. split; [reflexivity |].
    repeat split.
    + rewrite (cell_at_store_other _ _ _ _ _ _ _ Hb4) by (intros [=]).
      rewrite (cell_at_store_other _ _ _ _ _ _ _ Hb3) by (intros [=]).
      rewrite (cell_at_store_other _ _ _ _ _ _ _ Hb2) by (intros [=]).
      apply (cell_at_store_same _ _ _ _ _ Hb1).
    + rewrite (cell_at_store_other _ _ _ _ _ _ _ Hb4) by (intros [=]).
      apply (cell_at_store_same _ _ _ _ _ Hb3).
    + rewrite (cell_at_store_other _ _ _ _ _ _ _ Hb4) by (intros [=]).
      rewrite (cell_at_store_other _ _ _ _ _ _ _ Hb3) by (intros [=]).
      apply (cell_at_store_same _ _ _ _ _ Hb2).
    + apply (cell_at_store_same _ _ _ _ _ Hb4).
    + intros a c N0 N2 N3 N4.
      rewrite (cell_at_store_other _ _ _ _ _ _ _ Hb4) by assumption.
      rewrite (cell_at_store_other _ _ _ _ _ _ _ Hb3) by assumption.
      rewrite (cell_at_store_other _ _ _ _ _ _ _ Hb2) by assumption.
      apply (cell_at_store_other _ _ _ _ _ _ _ Hb1). assumption.
  - intros [N | N].
    + apply char_eq_false in N. rewrite N. reflexivity.
    + apply char_eq_false in N. rewrite N.
      destruct (cell_piece c2 =c "."); reflexivity.
Qed.

Lemma queen_side_castling_witness :
  exists b',
    apply insertion_order initial_board (QueenCastling false) = Err AssertionFailed
    /\ (b1 <- update_cell initial_board 0 1 (set_piece ".") ;;
        b2 <- update_cell b1 0 2 (set_piece ".") ;;
        b3 <- update_cell b2 0 3 (set_piece ".") ;;
        apply insertion_order b3 (QueenCastling false)) = Ok b'
    /\ cell_at b' 0 2 = Ok (mkCell false "K" false).
Proof.
  pose proof (queen_side_castling insertion_order initial_board false
                (mkCell false "K" false) (mkCell false "R" false)
                (mkCell false "B" false) (mkCell false "Q" false)
                eq_refl eq_refl eq_refl eq_refl) as [_ Hfatal].
  eexists. split; [apply Hfatal; left; discriminate |].
  split; reflexivity.
Defined.

(** ** board.h: the en-passant capture *)

Lemma in_range_spec (i : Z) : in_range i = true <-> 0 <= i <= 7.
Proof. unfold in_range, _N_. rewrite andb_true_iff, !Z.leb_le. lia. Qed.

(** The iteration order does not matter when both candidate sets have one
    element. *)
Lemma apply_order_singletons (order : list Coordinates -> list Coordinates)
    (b : Board) (val : NextMove) (s d : Coordinates) :
  (forall c, order [c] = [c]) ->
  src_candidates b val = Ok [s] ->
  dst_candidates b val = Ok [d] ->
  apply order b (MNextMove val) = apply insertion_order b (MNextMove val).
Proof.
  intros Horder Hs Hd. unfold apply, resolve.
  rewrite Hs, Hd. simpl. rewrite !Horder. reflexivity.
Qed.

(** C5.  A pawn capture one square forward and one file aside onto an
    empty square is an en-passant capture.  [can_move_pawn] answers true
    exactly when the cell on the rank of the source and the file of the
    destination holds a pawn of the other colour with [double_move] set,
    and it then removes that pawn (piece ['.'], flag cleared, nothing else
    changed); when one of the three conditions fails the call does not
    answer at all, an internal assertion ends the session.  In the scenario
    of the specification (black pawn on row 1, column 1, white pawn on row
    3, column 2, then [b5] and [cxb6]) the white pawn ends on row 2, column
    1, the squares the pawns came from and the square of the captured pawn
    are empty and no cell has [double_move] set. *)
Theorem en_passant_capture :
  (forall (b : Board) (sx sy dx dy : Z) (w : bool) (dest captured : Cell),
     (if w then sx - dx else dx - sx) = 1 ->
     Z.abs (dy - sy) = 1 ->
     in_range dy = true ->
     cell_at b dx dy = Ok dest ->
     cell_piece dest = "."%char ->
     cell_at b sx dy = Ok captured ->
     let legal :=
       cell_piece captured = "P"%char
       /\ is_white captured = negb w
       /\ double_move captured = true in
     (legal ->
      exists b',
        can_move_pawn b (at_ sx sy) (at_ dx dy) true w = Ok (true, b')
        /\ cell_at b' sx dy = Ok (mkCell (is_white captured) "." false)
        /\ forall a c, (a, c) <> (sx, dy) -> cell_at b' a c = cell_at b a c)
     /\ (~ legal ->
         can_move_pawn b (at_ sx sy) (at_ dx dy) true w = Err AssertionFailed))
  /\ (forall order : list Coordinates -> list Coordinates,
        (forall c, order [c] = [c]) ->
        exists b0 m1 b1 m2 b2,
          en_passant_start = Ok b0
          /\ MoveFactory (str "b5") false = Ok m1
          /\ apply order b0 m1 = Ok b1
          /\ cell_at b1 3 1 = Ok (mkCell false "P" true)
          /\ MoveFactory (str "cxb6") true = Ok m2
          /\ apply order b1 m2 = Ok b2
          /\ cell_at b2 2 1 = Ok (mkCell true "P" false)
          /\ (exists c11, cell_at b2 1 1 = Ok c11 /\ cell_piece c11 = "."%char)
          /\ (exists c32, cell_at b2 3 2 = Ok c32 /\ cell_piece c32 = "."%char)
          /\ (exists c31, cell_at b2 3 1 = Ok c31 /\ cell_piece c31 = "."%char)
          /\ no_double_move b2 = true).
Proof.
  split.
  - intros b sx sy dx dy w dest captured Hdx Hdy Hrange Hdest Hempty Hcap legal.
    unfold can_move_pawn. simpl.
    replace (if w then sx - dx else dx - sx) with 1.
    replace (Z.abs (dy - sy)) with 1. simpl.
    rewrite Hdest. simpl. apply char_eq_true in Hempty. rewrite Hempty.
    replace (sy + (dy - sy)) with dy by lia.
    rewrite Hrange, Hcap. simpl.
    split.
    + intros (Hp & Hw & Hdm).
      apply char_eq_true in Hp. rewrite Hp, Hw, Hdm, eqb_reflx. simpl.
      destruct (store_cell_defined b sx dy
                  (set_double_move false (set_piece "." captured)) captured Hcap)
        as [b' Hb'].
      rewrite Hb'. simpl. exists b'. split; [reflexivity |]. split.
      * rewrite (cell_at_store_same _ _ _ _ _ Hb').
        unfold set_double_move, set_piece. simpl. rewrite ?Hw. reflexivity.
      * intros a c Hne. apply (cell_at_store_other _ _ _ _ _ _ _ Hb'), Hne.
    + intros Hnot.
      destruct (cell_piece captured =c "P") eqn:Hp; [|reflexivity].
      destruct (eqb (is_white captured) (negb w)) eqn:Hw; [|reflexivity].
      destruct (double_move captured) eqn:Hdm; [|reflexivity].
      exfalso. apply Hnot. unfold legal.
      apply char_eq_true in Hp. apply eqb_prop in Hw. auto.
  - intros order Horder.
    eexists _, _, _, _, _.
    split; [vm_compute; reflexivity |].
    split; [vm_compute; reflexivity |].
    split.
    { erewrite (apply_order_singletons order _ _ _ _ Horder)
        by (vm_compute; reflexivity).
      vm_compute. reflexivity. }
    split; [vm_compute; reflexivity |].
    split; [vm_compute; reflexivity |].
    split.
    { erewrite (apply_order_singletons order _ _ _ _ Horder)
        by (vm_compute; reflexivity).
      vm_compute. reflexivity. }
    split; [vm_compute; reflexivity |].
    split; [eexists; split; vm_compute; reflexivity |].
    split; [eexists; split; vm_compute; reflexivity |].
    split; [eexists; split; vm_compute; reflexivity |].
    vm_compute. reflexivity.
Qed.

Lemma en_passant_capture_witness :
  (exists b',
     can_move_pawn
       [[mkCell false "." false; mkCell false "." false];
        [mkCell false "P" true; mkCell true "P" false]]
       (at_ 1 1) (at_ 0 0) true true = Ok (true, b')
     /\ cell_at b' 1 0 = Ok (mkCell false "." false))
  /\ exists b2, (b0 <- en_passant_start ;;
                 m1 <- MoveFactory (str "b5") false ;;
                 b1 <- apply insertion_order b0 m1 ;;
                 m2 <- MoveFactory (str "cxb6") true ;;
                 apply insertion_order b1 m2) = Ok b2
                /\ cell_at b2 2 1 = Ok (mkCell true "P" false).
Proof.
  destruct en_passant_capture as [Hgeneral Hscenario].
  split.
  - destruct (Hgeneral
                [[mkCell false "." false; mkCell false "." false];
                 [mkCell false "P" true; mkCell true "P" false]]
                1 1 0 0 true (mkCell false "." false) (mkCell false "P" true)
                eq_refl eq_refl eq_refl eq_refl eq_refl eq_refl)
      as [Hlegal _].
    destruct Hlegal as (b' & Hmove & Hcell & _).
    { repeat split. }
    exists b'. split; assumption.
  - destruct (Hscenario insertion_order (fun c => eq_refl))
      as (b0 & m1 & b1 & m2 & b2 & H0 & H1 & H2 & _ & H3 & H4 & H5 & _).
    exists b2.
    rewrite (bind_Ok _ _ _ H0), (bind_Ok _ _ _ H1), (bind_Ok _ _ _ H2),
      (bind_Ok _ _ _ H3).
    split; assumption.
Defined.

(** ** board.h: the resolution loop of [apply] *)

Section Resolution.

Variable val : NextMove.

Lemma fold_pairs_app (st : Resolution) (l1 l2 : list (Coordinates * Coordinates)) :
  fold_pairs val st (l1 ++ l2)
  = (st' <- fold_pairs val st l1 ;; fold_pairs val st' l2).
Proof.
  revert st. induction l1 as [|p l1 IH]; intros st; simpl; [reflexivity |].
  destruct (try_pair val st p.1 p.2); simpl; [apply IH | reflexivity].
Qed.

Lemma for_each_dst_fold (st : Resolution) (s : Coordinates)
    (dsts : list Coordinates) :
  for_each_dst val st s dsts
  = fold_pairs val st (List.map (fun d => (s, d)) dsts).
Proof.
  revert st. induction dsts as [|d dsts IH]; intros st; simpl; [reflexivity |].
  destruct (try_pair val st s d); simpl; [apply IH | reflexivity].
Qed.

Lemma for_each_src_fold (st : Resolution) (srcs dsts : list Coordinates) :
  for_each_src val st srcs dsts = fold_pairs val st (list_prod srcs dsts).
Proof.
  revert st. induction srcs as [|s srcs IH]; intros st; simpl; [reflexivity |].
  rewrite fold_pairs_app, for_each_dst_fold.
  destruct (fold_pairs val st _); simpl; [apply IH | reflexivity].
Qed.

(** A predicate that answers false has not written the board. *)
Lemma can_move_pawn_false (b b1 : Board) (s d : Coordinates) (cap w : bool) :
  can_move_pawn b s d cap w = Ok (false, b1) -> b1 = b.
Proof.
  unfold can_move_pawn. intros H.
  repeat step_Ok; congruence.
Qed.

Lemma piece_can_move_false (b b1 : Board) (s d : Coordinates) :
  piece_can_move val b s d = Ok (false, b1) -> b1 = b.
Proof.
  unfold piece_can_move. intros H.
  destruct (piece val =c "P"); [apply can_move_pawn_false in H; exact H |].
  repeat step_Ok; congruence.
Qed.

Lemma pair_verdict_false (b b1 : Board) (p : Coordinates * Coordinates) :
  pair_verdict val b p = Ok (false, b1) -> illegal val b p.
Proof.
  unfold illegal, pair_verdict. intros H.
  destruct (is_locked _ _ _ _ _) as [[|]|e]; simpl in *; try discriminate H.
  - congruence.
  - rewrite H. apply piece_can_move_false in H. congruence.
Qed.

(** [try_pair] in terms of the verdict, before and after the first
    match. *)
Lemma try_pair_before_match (st : Resolution) (s d : Coordinates) :
  found_match st = false -> matches st = 0%nat ->
  try_pair val st s d
  = (v <- pair_verdict val (res_board st) (s, d) ;;
     if v.1 then
       b2 <- on_first_match val v.2 s d ;;
       Ok (mkResolution b2 1 s d true)
     else Ok (mkResolution v.2 0 (final_src st) (final_dst st) false)).
Proof.
  intros Hfound Hmatches. unfold try_pair, pair_verdict. simpl.
  destruct (is_locked _ _ _ _ _) as [[|]|e]; simpl; try reflexivity.
  - destruct st; simpl in *; subst; reflexivity.
  - rewrite Hfound, Hmatches.
    destruct (piece_can_move _ _ _ _) as [[[|] b1]|e]; reflexivity.
Qed.

Lemma try_pair_after_match (st : Resolution) (s d : Coordinates) :
  found_match st = true ->
  try_pair val st s d
  = (v <- pair_verdict val (res_board st) (s, d) ;;
     Ok (mkResolution v.2 (matches st + (if v.1 then 1 else 0))
           (final_src st) (final_dst st) true)).
Proof.
  intros Hfound. unfold try_pair, pair_verdict. simpl.
  destruct (is_locked _ _ _ _ _) as [[|]|e]; simpl; try reflexivity.
  - rewrite Nat.add_0_r. destruct st; simpl in *; subst; reflexivity.
  - rewrite Hfound.
    destruct (piece_can_move _ _ _ _) as [[[|] b1]|e]; reflexivity.
Qed.

(** After the first match the loop only counts. *)
Lemma fold_pairs_after_match (pairs : list (Coordinates * Coordinates))
    (st st' : Resolution) :
  found_match st = true ->
  fold_pairs val st pairs = Ok st' ->
  (matches st <= matches st')%nat
  /\ found_match st' = true
  /\ final_src st' = final_src st /\ final_dst st' = final_dst st
  /\ (matches st' = matches st ->
      res_board st' = res_board st
      /\ Forall (illegal val (res_board st)) pairs).
Proof.
  revert st. induction pairs as [|[s d] pairs IH]; intros st Hfound H; simpl in H.
  - injection H as <-. auto 10.
  - simpl in H. rewrite try_pair_after_match in H by assumption.
    inv_bind H. inv_bind Ha. injection Ha as <-.
    destruct a0 as [ok b1]. simpl in *.
    apply IH in H as (Hle & Hf & Hs & Hd & Hsame); [|reflexivity].
    simpl in *.
    split; [lia |]. split; [assumption |]. split; [assumption |].
    split; [assumption |].
    intros Heq. destruct ok; [lia |].
    rewrite Nat.add_0_r in *.
    destruct (Hsame Heq) as [Hb Hall].
    pose proof (pair_verdict_false _ _ _ Ha0) as Hill.
    assert (b1 = res_board st) by (unfold illegal in Hill; congruence).
    rewrite H in *. split; [assumption | constructor; assumption].
Qed.

(** From the start of the loop: either every pair is rejected and
    nothing has changed, or the pairs split around the first match. *)
Lemma fold_pairs_before_match (pairs : list (Coordinates * Coordinates))
    (b : Board) (fs fd : Coordinates) (st' : Resolution) :
  fold_pairs val (mkResolution b 0 fs fd false) pairs = Ok st' ->
  (st' = mkResolution b 0 fs fd false /\ Forall (illegal val b) pairs)
  \/ exists pre p post b1 b2,
       pairs = pre ++ p :: post
       /\ Forall (illegal val b) pre
       /\ pair_verdict val b p = Ok (true, b1)
       /\ on_first_match val b1 p.1 p.2 = Ok b2
       /\ fold_pairs val (mkResolution b2 1 p.1 p.2 true) post = Ok st'.
Proof.
  induction pairs as [|[s d] pairs IH]; intros H; simpl in H.
  - injection H as <-. left. split; [reflexivity | constructor].
  - rewrite try_pair_before_match in H by reflexivity.
    inv_bind H. inv_bind Ha. destruct a0 as [[|] b1]; simpl in *.
    + inv_bind Ha. injection Ha as <-.
      right. exists [], (s, d), pairs, b1, a0. simpl. auto using Forall_nil.
    + injection Ha as <-.
      pose proof (pair_verdict_false _ _ _ Ha0) as Hill.
      assert (b1 = b) by (unfold illegal in Hill; congruence). subst b1.
      apply IH in H as [[-> Hall] | (pre & p & post & b1 & b2 & -> & Hpre & Hp & Hm & Hpost)].
      * left. split; [reflexivity | constructor; assumption].
      * right. exists ((s, d) :: pre), p, post, b1, b2. simpl.
        repeat split; try assumption. constructor; assumption.
Qed.


End Resolution.

Section ApplyNextMove.

Variable order : list Coordinates -> list Coordinates.

Lemma resolve_pairs (b : Board) (val : NextMove) (srcs dsts : list Coordinates) :
  src_candidates b val = Ok srcs ->
  dst_candidates b val = Ok dsts ->
  resolve order b val
  = (_ <- INTERNAL_ASSERT (negb (piece val =c zero)) ;;
     _ <- INTERNAL_ASSERT (bool_decide (is_Some (y (dst val)))) ;;
     _ <- INTERNAL_ASSERT (negb (bool_decide (srcs = []))) ;;
     _ <- INTERNAL_ASSERT (negb (bool_decide (dsts = []))) ;;
     fold_pairs val (start_of_loop b) (list_prod (order srcs) (order dsts))).
Proof.
  intros Hs Hd. unfold resolve. rewrite Hs, Hd. simpl.
  rewrite for_each_src_fold. reflexivity.
Qed.

(** A failed assertion, whichever it is, gives the same error. *)
Lemma assert_chain_fatal {A} (c : bool) (k : unit -> result A) :
  (forall u, k u = Err AssertionFailed) ->
  (_ <- INTERNAL_ASSERT c ;; k tt) = Err AssertionFailed.
Proof. intros Hk. destruct c; simpl; auto. Qed.

(** What a successful [apply] of a NextMove went through. *)
Lemma apply_NextMove_inv (b b' : Board) (val : NextMove) :
  apply order b (MNextMove val) = Ok b' ->
  exists srcs dsts pre p post b1 b2,
    src_candidates b val = Ok srcs
    /\ dst_candidates b val = Ok dsts
    /\ list_prod (order srcs) (order dsts) = pre ++ p :: post
    /\ Forall (illegal val b) pre
    /\ pair_verdict val b p = Ok (true, b1)
    /\ on_first_match val b1 p.1 p.2 = Ok b2
    /\ Forall (illegal val b2) post
    /\ move_piece val (mkResolution b2 1 p.1 p.2 true) = Ok b'.
Proof.
  unfold apply. intros H. inv_bind H. inv_assert H.
  apply Nat.eqb_eq in Hassert.
  destruct (src_candidates b val) as [srcs|e] eqn:Hs;
    [|unfold resolve in Ha; rewrite Hs in Ha;
      repeat (destruct (INTERNAL_ASSERT _) in Ha; simpl in Ha; try discriminate Ha)].
  destruct (dst_candidates b val) as [dsts|e] eqn:Hd;
    [|unfold resolve in Ha; rewrite Hs, Hd in Ha; simpl in Ha;
      repeat (destruct (INTERNAL_ASSERT _) in Ha; simpl in Ha; try discriminate Ha)].
  rewrite (resolve_pairs b val srcs dsts Hs Hd) in Ha.
  do 4 inv_assert Ha.
  apply fold_pairs_before_match in Ha
    as [[-> _] | (pre & p & post & b1 & b2 & Hsplit & Hpre & Hp & Hm & Hpost)].
  - discriminate Hassert.
  - apply fold_pairs_after_match in Hpost
      as (_ & Hf & Hfs & Hfd & Hsame); [|reflexivity].
    simpl in *. destruct (Hsame Hassert) as [Hb Hall].
    exists srcs, dsts, pre, p, post, b1, b2.
    repeat split; try assumption.
    replace (mkResolution b2 1 p.1 p.2 true) with a; [assumption |].
    destruct a; simpl in *; subst; reflexivity.
Qed.


End ApplyNextMove.


(** ** board.h: the [double_move] flags *)















(** A pawn that captures a pawn carrying the flag inherits it: after
    [1. e4 d5 2. exd5] the white pawn stands on rank 5 with [double_move]
    set. *)
Example capturing_pawn_inherits_flag :
  exists b,
    replay_text insertion_order (str "1. e4 d5 2. exd5 ") = Ok b
    /\ cell_at b 3 3 = Ok (mkCell true "P" true).
Proof. eexists. split; [vm_compute; reflexivity | reflexivity]. Qed.



(** ** parser.h: recursive annotation variations *)

(** Inside parentheses a token moves the automaton and emits nothing. *)
Lemma consume_token_inside (p : PGNParser) (token : Token) (s' : State) :
  0 < paranthesis_count_ p ->
  is_paren token = false ->
  automaton_step (state_ p) token = Some s' ->
  consume_token p token
  = Ok (None, mkPGNParser s' (paranthesis_count_ p) (white_turn p)).
Proof.
  intros Hdepth Hparen Hstep. unfold automaton_step in Hstep.
  unfold consume_token.
  destruct (event_of token) as [event|] eqn:Hevent; [|discriminate Hstep].
  destruct (is_dummy event) eqn:Hdummy.
  { injection Hstep as <-. destruct p; reflexivity. }
  destruct (bool_decide (event = LeftParenthesisToken_Event)) eqn:Hl.
  { apply bool_decide_eq_true in Hl. subst event.
    destruct token; discriminate. }
  destruct (bool_decide (event = RightParenthesisToken_Event)) eqn:Hr.
  { apply bool_decide_eq_true in Hr. subst event.
    destruct token; discriminate. }
  simpl in Hstep.
  replace (0 <=? paranthesis_count_ p) with true
    by (symmetry; apply Z.leb_le; lia).
  replace (0 <? paranthesis_count_ p) with true
    by (symmetry; apply Z.ltb_lt; lia).
  destruct (transitions_empty (state_ p)); [discriminate Hstep |]. simpl.
  destruct (find_transition (state_ p) event) as [target|].
  - injection Hstep as <-.
    destruct (bool_decide (target = Finished)); [reflexivity |].
    destruct (_ && _); [|reflexivity].
    destruct (token_value token); reflexivity.
  - destruct (_ && _); [|discriminate Hstep].
    injection Hstep as <-. destruct p; reflexivity.
Qed.

Section Variations.

Variable order : list Coordinates -> list Coordinates.

Lemma replay_inside (tokens rest : list Token) :
  forall (k k' : nat) (p : PGNParser) (s' : State) (b : Board),
    nesting k tokens = Some k' ->
    automaton_run (state_ p) tokens = Some s' ->
    0 < paranthesis_count_ p - Z.of_nat k ->
    replay order (tokens ++ rest) p b
    = replay order rest
        (mkPGNParser s' (paranthesis_count_ p - Z.of_nat k + Z.of_nat k')
           (white_turn p)) b.
Proof.
  induction tokens as [|token tokens IH]; intros k k' p s' b Hnest Hrun Hdepth.
  - simpl in *. injection Hnest as <-. injection Hrun as <-.
    replace (paranthesis_count_ p - Z.of_nat k + Z.of_nat k)
      with (paranthesis_count_ p) by lia.
    destruct p; reflexivity.
  - simpl in Hrun.
    destruct (automaton_step (state_ p) token) as [s1|] eqn:Hstep;
      [|discriminate Hrun].
    destruct (is_paren token) eqn:Hparen.
    + destruct token; try discriminate Hparen; simpl in Hnest;
        injection Hstep as <-.
      * change (replay order ((LeftParenthesisToken :: tokens) ++ rest) p b)
          with (replay order (tokens ++ rest)
                  (mkPGNParser (state_ p) (paranthesis_count_ p + 1)
                     (white_turn p)) b).
        rewrite (IH (S k) k'
                   (mkPGNParser (state_ p) (paranthesis_count_ p + 1)
                      (white_turn p)) s' b Hnest Hrun) by (simpl; lia).
        simpl. do 2 f_equal. lia.
      * destruct k as [|k0]; [discriminate Hnest |].
        change (replay order ((RightParenthesisToken :: tokens) ++ rest) p b)
          with (replay order (tokens ++ rest)
                  (mkPGNParser (state_ p) (paranthesis_count_ p - 1)
                     (white_turn p)) b).
        rewrite (IH k0 k'
                   (mkPGNParser (state_ p) (paranthesis_count_ p - 1)
                      (white_turn p)) s' b Hnest Hrun) by (simpl; lia).
        simpl. do 2 f_equal. lia.
    + assert (Hnest' : nesting k tokens = Some k')
        by (destruct token; try discriminate Hparen; exact Hnest).
      simpl.
      rewrite (consume_token_inside p token s1) by (assumption || lia).
      simpl.
      apply (IH k k' (mkPGNParser s1 _ _) s' b Hnest' Hrun). simpl. lia.
Qed.

(** Tokens that the parser handles without an error can be put in front
    of two continuations that replay alike. *)
Lemma replay_prefix (pre rest1 rest2 : list Token) :
  forall (p p' : PGNParser),
    parser_after pre p = Ok p' ->
    (forall b, replay order rest1 p' b = replay order rest2 p' b) ->
    forall b, replay order (pre ++ rest1) p b = replay order (pre ++ rest2) p b.
Proof.
  induction pre as [|token pre IH]; intros p p' Hafter Hrest b; simpl in *.
  - injection Hafter as ->. apply Hrest.
  - inv_bind Hafter. rewrite Ha. simpl.
    destruct a as [[m|] p1]; simpl in *; [|eauto].
    destruct m; try reflexivity;
      match goal with
      | |- context [apply order b ?m] => destruct (apply order b m)
      end; simpl; eauto.
Qed.

(** The range-for over the scanner, once the scanner is known to yield
    [tokens] without a lexical error. *)
Lemma main_loop_replay (fuel : nat) :
  forall (s : TokenScanner) (tokens : list Token) (p : PGNParser) (b : Board),
    tokens_of fuel s = Ok tokens ->
    main_loop order fuel s p b = replay order tokens p b.
Proof.
  induction fuel as [|fuel IH]; intros s tokens p b H; simpl in H;
    [discriminate H |].
  inv_bind H. simpl. rewrite Ha. simpl.
  destruct a.1 as [token|]; [|injection H as <-; reflexivity].
  inv_bind H. injection H as <-. simpl.
  destruct (consume_token p token) as [[[m|] p1]|e]; simpl;
    [|auto | reflexivity].
  destruct m; try reflexivity;
    match goal with
    | |- context [apply order b ?m] => destruct (apply order b m)
    end; simpl; auto.
Qed.

End Variations.

(** ** The fuel of the model is enough *)

(** Two loops of the program are modelled with a bound on their turns: the
    rays of [is_locked] and the range-for over the scanner.  The bounds are
    never reached: no function of the model returns [Err OutOfFuel]. *)

Create HintDb fuel.

Lemma fuel_free_bind {A B} (m : result A) (k : A -> result B) :
  fuel_free m -> (forall a, fuel_free (k a)) -> fuel_free (bind m k).
Proof. unfold fuel_free. destruct m as [a|e]; simpl; [auto | congruence]. Qed.

Ltac fuel_free_step :=
  match goal with
  | |- fuel_free (Ok _) => unfold fuel_free; discriminate
  | |- fuel_free (Err AssertionFailed) => unfold fuel_free; discriminate
  | |- fuel_free (Err Exception) => unfold fuel_free; discriminate
  | |- fuel_free (Err UndefinedBehaviour) => unfold fuel_free; discriminate
  | |- fuel_free (bind _ _) => apply fuel_free_bind; [|intros ?]
  | |- fuel_free (if ?c then _ else _) => destruct c
  | |- fuel_free (match ?t with _ => _ end) => destruct t
  end.

Ltac fuel_free := repeat fuel_free_step; auto with fuel.

Lemma INTERNAL_ASSERT_fuel_free (c : bool) : fuel_free (INTERNAL_ASSERT c).
Proof. unfold INTERNAL_ASSERT. fuel_free. Qed.

Lemma deref_fuel_free (o : option Z) : fuel_free (deref o).
Proof. unfold deref. fuel_free. Qed.

Lemma value_fuel_free (o : option Z) : fuel_free (value o).
Proof. unfold value. fuel_free. Qed.

Lemma cell_at_fuel_free (b : Board) (a c : Z) : fuel_free (cell_at b a c).
Proof. unfold cell_at. fuel_free. Qed.

Lemma store_cell_fuel_free (b : Board) (a c : Z) (cell : Cell) :
  fuel_free (store_cell b a c cell).
Proof. unfold store_cell. fuel_free. Qed.

#[local] Hint Resolve INTERNAL_ASSERT_fuel_free deref_fuel_free
  value_fuel_free cell_at_fuel_free store_cell_fuel_free : fuel.

Lemma update_cell_fuel_free (b : Board) (a c : Z) (g : Cell -> Cell) :
  fuel_free (update_cell b a c g).
Proof. unfold update_cell. fuel_free. Qed.

Lemma is_free_cell_fuel_free (b : Board) (c : Coordinates) :
  fuel_free (is_free_cell b c).
Proof. unfold is_free_cell. fuel_free. Qed.

Lemma is_valid_dest_fuel_free (b : Board) (d : Coordinates) (cap w : bool) :
  fuel_free (is_valid_dest b d cap w).
Proof. unfold is_valid_dest. fuel_free. Qed.

Lemma is_king_under_attack_fuel_free (b : Board) (w : bool) (i ax ay : Z) :
  fuel_free (is_king_under_attack b w i ax ay).
Proof. unfold is_king_under_attack. fuel_free. Qed.

#[local] Hint Resolve update_cell_fuel_free is_free_cell_fuel_free
  is_valid_dest_fuel_free is_king_under_attack_fuel_free : fuel.

Lemma ray_slack_in_range (ddx ddy rx ry : Z) :
  In (ddx, ddy) directions ->
  in_range rx = true -> in_range ry = true ->
  0 <= ray_slack ddx ddy rx ry <= 7
  /\ (in_range (rx + ddx) = true -> in_range (ry + ddy) = true ->
      ray_slack ddx ddy (rx + ddx) (ry + ddy) = ray_slack ddx ddy rx ry - 1).
Proof.
  intros Hdir Hx Hy. apply in_range_spec in Hx, Hy.
  rewrite !in_range_spec.
  simpl in Hdir.
  repeat (destruct Hdir as [Hdir | Hdir];
          [injection Hdir as <- <-; unfold ray_slack; simpl; lia |]).
  destruct Hdir.
Qed.

Lemma ray_to_piece_in_range (fuel : nat) (b : Board) (ddx ddy : Z) :
  In (ddx, ddy) directions ->
  forall rx ry,
    in_range rx = true -> in_range ry = true ->
    ray_slack ddx ddy rx ry < Z.of_nat fuel ->
    fuel_free (ray_to_piece fuel b rx ry ddx ddy).
Proof.
  intros Hdir. induction fuel as [|fuel IH]; intros rx ry Hx Hy Hslack.
  - destruct (ray_slack_in_range ddx ddy rx ry Hdir Hx Hy) as [? _]. lia.
  - destruct (ray_slack_in_range ddx ddy rx ry Hdir Hx Hy) as [Hb Hstep].
    simpl.
    destruct (in_range (rx + ddx)) eqn:Hx', (in_range (ry + ddy)) eqn:Hy';
      simpl; fuel_free.
    apply IH; try assumption. rewrite Hstep by reflexivity. lia.
Qed.

Lemma ray_to_piece_S (fuel : nat) (b : Board) (rx ry ddx ddy : Z) :
  ray_to_piece (S fuel) b rx ry ddx ddy
  = if in_range (rx + ddx) && in_range (ry + ddy) then
      c <- cell_at b (rx + ddx) (ry + ddy) ;;
      if cell_piece c =c "."
      then ray_to_piece fuel b (rx + ddx) (ry + ddy) ddx ddy
      else Ok (rx + ddx, ry + ddy)
    else Ok (rx + ddx, ry + ddy).
Proof. reflexivity. Qed.

Lemma ray_to_piece_or_dst_S (fuel : nat) (b : Board) (d : Coordinates)
    (rx ry ddx ddy : Z) :
  ray_to_piece_or_dst (S fuel) b d rx ry ddx ddy
  = if bool_decide (at_ (rx + ddx) (ry + ddy) <> d)
       && in_range (rx + ddx) && in_range (ry + ddy) then
      c <- cell_at b (rx + ddx) (ry + ddy) ;;
      if cell_piece c =c "."
      then ray_to_piece_or_dst fuel b d (rx + ddx) (ry + ddy) ddx ddy
      else Ok (rx + ddx, ry + ddy)
    else Ok (rx + ddx, ry + ddy).
Proof. reflexivity. Qed.

Lemma ray_to_piece_fuel_free (b : Board) (rx ry ddx ddy : Z) :
  In (ddx, ddy) directions ->
  fuel_free (ray_to_piece ray_fuel b rx ry ddx ddy).
Proof.
  intros Hdir. unfold ray_fuel. rewrite ray_to_piece_S.
  destruct (in_range (rx + ddx)) eqn:Hx', (in_range (ry + ddy)) eqn:Hy';
    cbn [andb]; fuel_free.
  apply ray_to_piece_in_range; try assumption.
  destruct (ray_slack_in_range ddx ddy _ _ Hdir Hx' Hy') as [? _]. lia.
Qed.

Lemma ray_to_piece_or_dst_in_range (fuel : nat) (b : Board) (d : Coordinates)
    (ddx ddy : Z) :
  In (ddx, ddy) directions ->
  forall rx ry,
    in_range rx = true -> in_range ry = true ->
    ray_slack ddx ddy rx ry < Z.of_nat fuel ->
    fuel_free (ray_to_piece_or_dst fuel b d rx ry ddx ddy).
Proof.
  intros Hdir. induction fuel as [|fuel IH]; intros rx ry Hx Hy Hslack.
  - destruct (ray_slack_in_range ddx ddy rx ry Hdir Hx Hy) as [? _]. lia.
  - destruct (ray_slack_in_range ddx ddy rx ry Hdir Hx Hy) as [Hb Hstep].
    simpl.
    destruct (bool_decide _);
      destruct (in_range (rx + ddx)) eqn:Hx', (in_range (ry + ddy)) eqn:Hy';
      simpl; fuel_free.
    apply IH; try assumption. rewrite Hstep by reflexivity. lia.
Qed.

Lemma ray_to_piece_or_dst_fuel_free (b : Board) (d : Coordinates)
    (rx ry ddx ddy : Z) :
  In (ddx, ddy) directions ->
  fuel_free (ray_to_piece_or_dst ray_fuel b d rx ry ddx ddy).
Proof.
  intros Hdir. unfold ray_fuel. rewrite ray_to_piece_or_dst_S.
  destruct (bool_decide _);
    destruct (in_range (rx + ddx)) eqn:Hx', (in_range (ry + ddy)) eqn:Hy';
    cbn [andb]; fuel_free.
  apply ray_to_piece_or_dst_in_range; try assumption.
  destruct (ray_slack_in_range ddx ddy _ _ Hdir Hx' Hy') as [? _]. lia.
Qed.

Lemma find_king_fuel_free (b : Board) (sx sy : Z) (w : bool) (ds : list (Z * Z)) :
  (forall d, In d ds -> In d directions) ->
  forall i, fuel_free (find_king b sx sy w ds i).
Proof.
  induction ds as [|[ddx ddy] ds IH]; intros Hsub i; simpl; [fuel_free |].
  apply fuel_free_bind.
  - apply ray_to_piece_fuel_free, Hsub. left. reflexivity.
  - intros [rx ry].
    assert (forall j, fuel_free (find_king b sx sy w ds j))
      by (apply IH; intros d Hd; apply Hsub; right; exact Hd).
    fuel_free.
Qed.

Lemma is_locked_fuel_free (b : Board) (s d : Coordinates) (cap w : bool) :
  fuel_free (is_locked b s d cap w).
Proof.
  unfold is_locked.
  apply fuel_free_bind; [fuel_free | intros sx].
  apply fuel_free_bind; [fuel_free | intros sy].
  apply fuel_free_bind; [apply find_king_fuel_free; auto | intros [idx|]];
    [|fuel_free].
  destruct (directions !! _) as [[ddx ddy]|] eqn:Hd; [|fuel_free].
  apply fuel_free_bind.
  - apply ray_to_piece_or_dst_fuel_free.
    apply list_elem_of_In. eapply list_elem_of_lookup_2. exact Hd.
  - intros [rx ry]. fuel_free.
Qed.

#[local] Hint Resolve is_locked_fuel_free : fuel.

Lemma can_move_pawn_fuel_free (b : Board) (s d : Coordinates) (cap w : bool) :
  fuel_free (can_move_pawn b s d cap w).
Proof. unfold can_move_pawn. fuel_free. Qed.

Lemma path_is_free_fuel_free (n : nat) (b : Board) (d : Coordinates)
    (ddx ddy : Z) :
  forall rx ry, fuel_free (path_is_free n b d rx ry ddx ddy).
Proof. induction n as [|n IH]; intros rx ry; simpl; fuel_free. Qed.

#[local] Hint Resolve can_move_pawn_fuel_free path_is_free_fuel_free : fuel.

Lemma can_move_rook_fuel_free (b : Board) (s d : Coordinates) (cap w : bool) :
  fuel_free (can_move_rook b s d cap w).
Proof. unfold can_move_rook. fuel_free. Qed.

Lemma can_move_bishop_fuel_free (b : Board) (s d : Coordinates) (cap w : bool) :
  fuel_free (can_move_bishop b s d cap w).
Proof. unfold can_move_bishop. fuel_free. Qed.

#[local] Hint Resolve can_move_rook_fuel_free can_move_bishop_fuel_free : fuel.

Lemma can_move_queen_fuel_free (b : Board) (s d : Coordinates) (cap w : bool) :
  fuel_free (can_move_queen b s d cap w).
Proof. unfold can_move_queen. fuel_free. Qed.

Lemma can_move_knight_fuel_free (b : Board) (s d : Coordinates) (cap w : bool) :
  fuel_free (can_move_knight b s d cap w).
Proof. unfold can_move_knight. fuel_free. Qed.

Lemma can_move_king_fuel_free (b : Board) (s d : Coordinates) (cap w : bool) :
  fuel_free (can_move_king b s d cap w).
Proof. unfold can_move_king. fuel_free. Qed.

#[local] Hint Resolve can_move_queen_fuel_free can_move_knight_fuel_free
  can_move_king_fuel_free : fuel.

Lemma piece_can_move_fuel_free (val : NextMove) (b : Board) (s d : Coordinates) :
  fuel_free (piece_can_move val b s d).
Proof. unfold piece_can_move. fuel_free. Qed.

Lemma on_first_match_fuel_free (val : NextMove) (b : Board) (s d : Coordinates) :
  fuel_free (on_first_match val b s d).
Proof. unfold on_first_match. fuel_free. Qed.

#[local] Hint Resolve piece_can_move_fuel_free on_first_match_fuel_free : fuel.

Lemma try_pair_fuel_free (val : NextMove) (st : Resolution) (s d : Coordinates) :
  fuel_free (try_pair val st s d).
Proof. unfold try_pair. fuel_free. Qed.

#[local] Hint Resolve try_pair_fuel_free : fuel.

Lemma for_each_dst_fuel_free (val : NextMove) (s : Coordinates)
    (dsts : list Coordinates) :
  forall st, fuel_free (for_each_dst val st s dsts).
Proof. induction dsts as [|d dsts IH]; intros st; simpl; fuel_free. Qed.

#[local] Hint Resolve for_each_dst_fuel_free : fuel.

Lemma for_each_src_fuel_free (val : NextMove) (srcs dsts : list Coordinates) :
  forall st, fuel_free (for_each_src val st srcs dsts).
Proof. induction srcs as [|s srcs IH]; intros st; simpl; fuel_free. Qed.

Lemma scan_cells_fuel_free (b : Board) (test : Cell -> bool)
    (cells : list (Z * Z)) :
  fuel_free (scan_cells b test cells).
Proof. induction cells as [|[cx cy] cells IH]; simpl; fuel_free. Qed.

#[local] Hint Resolve for_each_src_fuel_free scan_cells_fuel_free : fuel.

Lemma src_candidates_fuel_free (b : Board) (val : NextMove) :
  fuel_free (src_candidates b val).
Proof. unfold src_candidates. fuel_free. Qed.

Lemma dst_candidates_fuel_free (b : Board) (val : NextMove) :
  fuel_free (dst_candidates b val).
Proof. unfold dst_candidates. fuel_free. Qed.

Lemma move_piece_fuel_free (val : NextMove) (st : Resolution) :
  fuel_free (move_piece val st).
Proof. unfold move_piece. fuel_free. Qed.

Lemma castle_fuel_free (b : Board) (rank_ f1 f2 k rf rt : ascii) :
  fuel_free (castle b rank_ f1 f2 k rf rt).
Proof. unfold castle. fuel_free. Qed.

#[local] Hint Resolve src_candidates_fuel_free dst_candidates_fuel_free
  move_piece_fuel_free castle_fuel_free : fuel.

Lemma apply_fuel_free (order : list Coordinates -> list Coordinates)
    (b : Board) (move : Moves) :
  fuel_free (apply order b move).
Proof. unfold apply, resolve. fuel_free. Qed.

Lemma parse_marks_fuel_free (n : nat) :
  forall m c, fuel_free (parse_marks n m c).
Proof.
  induction n as [|n IH]; intros m c; simpl; [fuel_free |].
  unfold needs_one_char, peek. fuel_free.
Qed.

Lemma parse_square_fuel_free (guard : bool) (c : list ascii) :
  fuel_free (parse_square guard c).
Proof. unfold parse_square, peek. fuel_free. Qed.

#[local] Hint Resolve apply_fuel_free parse_marks_fuel_free
  parse_square_fuel_free : fuel.

Lemma regular_move_fuel_free (val : list ascii) (w : bool) :
  fuel_free (regular_move val w).
Proof. unfold regular_move, needs_one_char, peek. fuel_free. Qed.

#[local] Hint Resolve regular_move_fuel_free : fuel.

Lemma MoveFactory_fuel_free (val : list ascii) (w : bool) :
  fuel_free (MoveFactory val w).
Proof. unfold MoveFactory. fuel_free. Qed.

#[local] Hint Resolve MoveFactory_fuel_free : fuel.

Lemma consume_token_fuel_free (p : PGNParser) (token : Token) :
  fuel_free (consume_token p token).
Proof. unfold consume_token, emit_move. fuel_free. Qed.

Lemma accept_fuel_free (t : Token) (c : ascii) : fuel_free (accept t c).
Proof. unfold accept. fuel_free. Qed.

Lemma open_token_fuel_free (c : ascii) : fuel_free (open_token c).
Proof. unfold open_token. fuel_free. Qed.

#[local] Hint Resolve consume_token_fuel_free accept_fuel_free
  open_token_fuel_free : fuel.

Lemma scan_char_fuel_free (rep e : bool) (t : Token) (c : ascii) :
  fuel_free (scan_char rep e t c).
Proof. unfold scan_char. fuel_free. Qed.

#[local] Hint Resolve scan_char_fuel_free : fuel.

Lemma read_loop_fuel_free (file : list ascii) :
  forall e t c, fuel_free (read_loop e t file c).
Proof. induction file as [|c' file IH]; intros e t c; simpl; fuel_free. Qed.

#[local] Hint Resolve read_loop_fuel_free : fuel.

Lemma scan_token_fuel_free (s : TokenScanner) : fuel_free (scan_token s).
Proof. unfold scan_token. fuel_free. Qed.

#[local] Hint Resolve scan_token_fuel_free : fuel.

(** A token that is opened by a character never ends on that character
    without taking it: the character fed again is always used up. *)
Lemma scan_char_first (c : ascii) (t : Token) (rep : bool) :
  scan_char true true monostate c = Ok (Terminated t rep) -> rep = false.
Proof.
  destruct c as [[] [] [] [] [] [] [] []]; vm_compute; intros H;
    try discriminate H; injection H as _ <-; reflexivity.
Qed.

Lemma read_loop_measure (file : list ascii) :
  forall e t c token s',
    read_loop e t file c = Ok (Some token, s') ->
    (scan_measure s' < 2 * length file)%nat.
Proof.
  induction file as [|c' file IH]; intros e t c token s' H; simpl in H.
  - discriminate H.
  - inv_bind H. destruct a as [e' t'|t' rep].
    + apply IH in H. simpl. lia.
    + injection H as _ <-. unfold scan_measure. simpl. destruct rep; lia.
Qed.

Lemma scan_token_measure (s s' : TokenScanner) (token : Token) :
  scan_token s = Ok (Some token, s') ->
  (scan_measure s' < scan_measure s)%nat.
Proof.
  unfold scan_token. intros H.
  destruct (repeat_ s) eqn:Hrep.
  - inv_bind H. destruct a as [e' t'|t' rep].
    + apply read_loop_measure in H. unfold scan_measure at 2. lia.
    + injection H as _ <-. apply scan_char_first in Ha. subst rep.
      unfold scan_measure. simpl. rewrite Hrep. lia.
  - apply read_loop_measure in H. unfold scan_measure at 2. lia.
Qed.

Lemma tokens_of_fuel_free (fuel : nat) :
  forall s, (scan_measure s < fuel)%nat -> fuel_free (tokens_of fuel s).
Proof.
  induction fuel as [|fuel IH]; intros s Hfuel; [lia |]. simpl.
  destruct (scan_token s) as [[[token|] s']|e] eqn:Hscan; simpl.
  - apply scan_token_measure in Hscan.
    apply fuel_free_bind; [apply IH; lia | intros rest; fuel_free].
  - fuel_free.
  - pose proof (scan_token_fuel_free s) as Hf. rewrite Hscan in Hf.
    unfold fuel_free in *. congruence.
Qed.

Lemma main_loop_fuel_free (order : list Coordinates -> list Coordinates)
    (fuel : nat) :
  forall s p b,
    (scan_measure s < fuel)%nat -> fuel_free (main_loop order fuel s p b).
Proof.
  induction fuel as [|fuel IH]; intros s p b Hfuel; [lia |]. simpl.
  destruct (scan_token s) as [[[token|] s']|e] eqn:Hscan; simpl.
  - apply scan_token_measure in Hscan.
    assert (forall p' b', fuel_free (main_loop order fuel s' p' b'))
      by (intros p' b'; apply IH; lia).
    fuel_free.
  - fuel_free.
  - pose proof (scan_token_fuel_free s) as Hf. rewrite Hscan in Hf.
    unfold fuel_free in *. congruence.
Qed.

(** The scanner and the replay of a text never stop for lack of fuel. *)
Theorem replay_text_total (order : list Coordinates -> list Coordinates)
    (text : list ascii) :
  fuel_free (tokens_of_text text) /\ fuel_free (replay_text order text).
Proof.
  split.
  - apply tokens_of_fuel_free. unfold scan_measure, scan_fuel. simpl. lia.
  - apply main_loop_fuel_free. unfold scan_measure, scan_fuel. simpl. lia.
Qed.

(** ** Scenarios of the repository's tests *)

(** [test_locked_moves]: the knight on c1 shields its king from the rook
    and is locked, so [Nd3] is the knight from e1. *)
Example pinned_knight_scenario :
  (b <- pinned_knight_board ;; is_locked b (at_ 7 2) (at_ 5 3) false true)
    = Ok true
  /\ (b <- pinned_knight_board ;; is_locked b (at_ 7 4) (at_ 5 3) false true)
    = Ok false
  /\ exists b',
       play insertion_order pinned_knight_board "Nd3" true = Ok b'
       /\ cell_at b' 5 3 = Ok (mkCell true "N" false)
       /\ cell_at b' 7 2 = Ok (mkCell true "N" false)
       /\ cell_at b' 7 4 = Ok (mkCell true "." false).
Proof.
  split; [reflexivity |]. split; [reflexivity |].
  eexists. split; [vm_compute; reflexivity |]. repeat split.
Qed.

(** [test_castling]: king-side castling of the white king and rook. *)
Example king_side_castling_scenario :
  exists b',
    play insertion_order
      (place (place (Ok cleared_board) 7 7 (mkCell true "R" false))
         7 4 (mkCell true "K" false))
      "O-O" true = Ok b'
    /\ cell_at b' 7 6 = Ok (mkCell true "K" false)
    /\ cell_at b' 7 5 = Ok (mkCell true "R" false)
    /\ cell_at b' 7 4 = Ok (mkCell true "." false)
    /\ cell_at b' 7 7 = Ok (mkCell true "." false).
Proof. eexists. split; [vm_compute; reflexivity |]. repeat split. Qed.

(** [test_pawn_board_moves]: the four ways to write a promotion. *)
Example promotion_scenarios :
  let start := place (Ok cleared_board) 1 1 (mkCell true "P" false) in
  let promoted (text : string) (p : ascii) :=
    exists b', play insertion_order start text true = Ok b'
               /\ cell_at b' 0 1 = Ok (mkCell true p false)
               /\ cell_at b' 1 1 = Ok (mkCell true "." false) in
  promoted "b8=Q" "Q"%char /\ promoted "b8/R" "R"%char
  /\ promoted "b8(B)" "B"%char /\ promoted "b8Q" "Q"%char.
Proof.
  repeat split; eexists; (split; [vm_compute; reflexivity |]); split; reflexivity.
Qed.

(** A two-square pawn push, its answer and a knight move. *)
Example opening_scenario :
  exists b,
    replay_text insertion_order (str "1. e4 e5 2. Nf3 ") = Ok b
    /\ cell_at b 4 4 = Ok (mkCell true "P" true)
    /\ cell_at b 3 4 = Ok (mkCell false "P" true)
    /\ cell_at b 5 5 = Ok (mkCell true "N" false)
    /\ cell_at b 6 4 = Ok (mkCell true "." false)
    /\ cell_at b 1 4 = Ok (mkCell false "." false)
    /\ cell_at b 7 6 = Ok (mkCell true "." false).
Proof. eexists. split; [vm_compute; reflexivity |]. repeat split. Qed.

(** A comment or a string that the input ends in is dropped like a final
    symbol: no token and no error. *)
Example unterminated_comment_and_string :
  tokens_of_text (str "{unfinished") = Ok []
  /\ tokens_of_text (dquote :: str "unfinished") = Ok [].
Proof. split; reflexivity. Qed.

(** * Further properties *)

(** ** board.h: the dimensions of the board *)

Lemma store_cell_shape (b b' : Board) (a c : Z) (cell : Cell) :
  store_cell b a c cell = Ok b' -> shape b' = shape b.
Proof.
  intros H. apply store_cell_inv in H as (_ & _ & row & old & Hrow & Hold & ->).
  unfold shape. rewrite list_fmap_insert, length_insert.
  apply list_insert_id. rewrite list_lookup_fmap, Hrow. reflexivity.
Qed.

Lemma update_cell_shape (b b' : Board) (a c : Z) (g : Cell -> Cell) :
  update_cell b a c g = Ok b' -> shape b' = shape b.
Proof.
  intros H. apply update_cell_inv in H as (old & _ & H).
  eapply store_cell_shape, H.
Qed.

Lemma grid_cell_at (b : Board) (a c : Z) :
  is_grid b -> in_range a = true -> in_range c = true ->
  exists cell, cell_at b a c = Ok cell.
Proof.
  unfold is_grid, shape. intros Hg Ha Hc.
  apply in_range_spec in Ha, Hc. unfold cell_at.
  replace (0 <=? a) with true by (symmetry; apply Z.leb_le; lia).
  replace (0 <=? c) with true by (symmetry; apply Z.leb_le; lia).
  cbn [andb].
  assert (Hrow : (length <$> b) !! Z.to_nat a = Some 8%nat).
  { rewrite Hg. apply lookup_replicate_2. lia. }
  rewrite list_lookup_fmap in Hrow.
  destruct (b !! Z.to_nat a) as [row|]; [|discriminate Hrow].
  injection Hrow as Hlen.
  destruct (lookup_lt_is_Some_2 row (Z.to_nat c)) as [cell Hcell]; [lia |].
  rewrite Hcell. eauto.
Qed.

Lemma cell_at_in_grid (b : Board) (a c : Z) (cell : Cell) :
  is_grid b -> cell_at b a c = Ok cell ->
  in_range a = true /\ in_range c = true.
Proof.
  unfold is_grid, shape, cell_at. intros Hg H.
  destruct (0 <=? a) eqn:Ha, (0 <=? c) eqn:Hc; simpl in H; try discriminate H.
  apply Z.leb_le in Ha, Hc.
  destruct (b !! Z.to_nat a) as [row|] eqn:Hrow; [|discriminate H].
  destruct (row !! Z.to_nat c) as [cell'|] eqn:Hcell; [|discriminate H].
  pose proof (lookup_lt_Some _ _ _ Hrow) as Hla.
  pose proof (lookup_lt_Some _ _ _ Hcell) as Hlc.
  assert (Hl : (length <$> b) !! Z.to_nat a = Some (length row))
    by (rewrite list_lookup_fmap, Hrow; reflexivity).
  rewrite Hg in Hl. apply lookup_replicate in Hl as [Hl Hlt].
  rewrite !in_range_spec. lia.
Qed.

Lemma can_move_pawn_shape (b b1 : Board) (s d : Coordinates) (cap w v : bool) :
  can_move_pawn b s d cap w = Ok (v, b1) -> shape b1 = shape b.
Proof.
  unfold can_move_pawn. intros H.
  repeat step_Ok; subst; try reflexivity;
    eauto using store_cell_shape, update_cell_shape.
Qed.

Lemma piece_can_move_shape (val : NextMove) (b b1 : Board) (s d : Coordinates)
    (v : bool) :
  piece_can_move val b s d = Ok (v, b1) -> shape b1 = shape b.
Proof.
  unfold piece_can_move. intros H.
  destruct (piece val =c "P"); [eapply can_move_pawn_shape, H |].
  repeat step_Ok; subst; reflexivity.
Qed.

Lemma pair_verdict_shape (val : NextMove) (b b1 : Board)
    (p : Coordinates * Coordinates) (v : bool) :
  pair_verdict val b p = Ok (v, b1) -> shape b1 = shape b.
Proof.
  unfold pair_verdict. intros H. inv_bind H.
  destruct a; [injection H as _ <-; reflexivity |].
  eapply piece_can_move_shape, H.
Qed.

Lemma on_first_match_shape (val : NextMove) (b b2 : Board) (s d : Coordinates) :
  on_first_match val b s d = Ok b2 -> shape b2 = shape b.
Proof.
  unfold on_first_match. intros H.
  repeat step_Ok; subst; try reflexivity; eauto using store_cell_shape.
Qed.

Lemma move_piece_shape (val : NextMove) (st : Resolution) (b' : Board) :
  move_piece val st = Ok b' -> shape b' = shape (res_board st).
Proof.
  unfold move_piece. intros H. repeat step_Ok.
  apply update_cell_shape in H, Ha4, Ha1. congruence.
Qed.

Lemma castle_shape (b b' : Board) (rank_ f1 f2 k rf rt : ascii) :
  castle b rank_ f1 f2 k rf rt = Ok b' -> shape b' = shape b.
Proof.
  unfold castle. intros H. repeat step_Ok.
  apply update_cell_shape in H, Ha5.
  apply store_cell_shape in Ha4, Ha7. congruence.
Qed.

Lemma apply_shape (order : list Coordinates -> list Coordinates)
    (b b' : Board) (move : Moves) :
  apply order b move = Ok b' -> shape b' = shape b.
Proof.
  destruct move as [w | w | val | m |].
  - simpl. destruct w; apply castle_shape.
  - simpl. destruct w; apply castle_shape.
  - intros H. apply apply_NextMove_inv in H
      as (srcs & dsts & pre & p & post & b1 & b2
          & _ & _ & _ & _ & Hv & Hm & _ & Hmove).
    apply pair_verdict_shape in Hv. apply on_first_match_shape in Hm.
    apply move_piece_shape in Hmove. simpl in Hmove. congruence.
  - simpl. congruence.
  - simpl. congruence.
Qed.

(** ** board.h: [operator<<] *)

Section Replayed.

Variable order : list Coordinates -> list Coordinates.

Lemma replay_shape (tokens : list Token) :
  forall p b b', replay order tokens p b = Ok b' -> shape b' = shape b.
Proof.
  induction tokens as [|token tokens IH]; intros p b b' H; simpl in H.
  - congruence.
  - inv_bind H. destruct a as [[m|] p1]; simpl in H; [|eauto].
    destruct m; try (injection H as <-; reflexivity);
      inv_bind H; apply apply_shape in Ha0; apply IH in H; congruence.
Qed.

Lemma main_loop_shape (fuel : nat) :
  forall s p b b', main_loop order fuel s p b = Ok b' -> shape b' = shape b.
Proof.
  induction fuel as [|fuel IH]; intros s p b b' H; simpl in H;
    [discriminate H |].
  inv_bind H. destruct a as [[token|] s1]; simpl in H; [|congruence].
  inv_bind H. destruct a as [[m|] p1]; simpl in H; [|eauto].
  destruct m; try (injection H as <-; reflexivity);
    inv_bind H; apply apply_shape in Ha1; apply IH in H; congruence.
Qed.

End Replayed.

Lemma print_cell_length (c : Cell) : length (print_cell c) = 2%nat.
Proof. unfold print_cell. destruct (_ =c _); reflexivity. Qed.

Lemma print_row_defined (b : Board) (cx : Z) (ys : list Z) :
  is_grid b -> in_range cx = true ->
  Forall (fun cy => in_range cy = true) ys ->
  exists s, print_row b cx ys = Ok s
            /\ length s = (length ys + length (filter (fun cy : Z => (0 < cy)%Z) ys)
                           + length ys + 1)%nat.
Proof.
  intros Hg Hx Hys. induction Hys as [|cy ys Hy _ (s & Hs & Hlen)]; simpl.
  - eexists. split; reflexivity.
  - destruct (grid_cell_at b cx cy Hg Hx Hy) as [cell ->]. simpl.
    rewrite Hs. simpl. eexists. split; [reflexivity |].
    rewrite !length_app, print_cell_length, Hlen.
    rewrite filter_cons.
    destruct (decide (0 < cy)) as [Hpos | Hneg].
    + replace (0 <? cy) with true by (symmetry; apply Z.ltb_lt; lia).
      simpl. lia.
    + replace (0 <? cy) with false by (symmetry; apply Z.ltb_ge; lia).
      simpl. lia.
Qed.

Lemma print_rows_defined (b : Board) (xs : list Z) :
  is_grid b -> Forall (fun cx => in_range cx = true) xs ->
  exists s, print_rows b xs = Ok s /\ length s = (24 * length xs)%nat.
Proof.
  intros Hg Hxs. induction Hxs as [|cx xs Hx _ (s & Hs & Hlen)];
    cbn [print_rows].
  - eexists. split; reflexivity.
  - destruct (print_row_defined b cx indices Hg Hx) as (row & Hrow & Hrl).
    { repeat constructor. }
    rewrite Hrow, Hs. cbn [bind]. eexists. split; [reflexivity |].
    rewrite length_app, Hrl, Hlen.
    change (length (filter (fun cy : Z => 0 < cy) indices)) with 7%nat.
    change (length indices) with 8%nat. simpl length. lia.
Qed.

Lemma print_cell_visible (c1 c2 : Cell) :
  print_cell c1 = print_cell c2 <-> visible c1 = visible c2.
Proof.
  unfold print_cell, visible.
  destruct (cell_piece c1 =c "."), (cell_piece c2 =c "."),
    (is_white c1), (is_white c2); split; intros H;
    try reflexivity; try discriminate H;
    injection H as ->; reflexivity.
Qed.

Lemma in_range_indices (a : Z) : in_range a = true <-> a ∈ indices.
Proof.
  rewrite in_range_spec. unfold indices, _N_. rewrite elem_of_seqZ. lia.
Qed.

Lemma print_row_inj (b1 b2 : Board) (cx : Z) (ys : list Z) :
  forall r1 r2 t1 t2,
    print_row b1 cx ys = Ok r1 -> print_row b2 cx ys = Ok r2 ->
    r1 ++ t1 = r2 ++ t2 ->
    t1 = t2
    /\ forall cy c1 c2, cy ∈ ys ->
         cell_at b1 cx cy = Ok c1 -> cell_at b2 cx cy = Ok c2 ->
         visible c1 = visible c2.
Proof.
  induction ys as [|cy ys IH]; intros r1 r2 t1 t2 H1 H2 E; simpl in H1, H2.
  - injection H1 as <-. injection H2 as <-. injection E as ->.
    split; [reflexivity |]. intros cy c1 c2 Hin. inversion Hin.
  - inv_bind H1. inv_bind H1. injection H1 as <-.
    inv_bind H2. inv_bind H2. injection H2 as <-.
    rewrite <- !app_assoc in E.
    apply app_inv_head in E.
    apply app_inj_1 in E as [Ecell E];
      [|rewrite !print_cell_length; reflexivity].
    destruct (IH _ _ _ _ Ha0 Ha2 E) as [Ht Hcells].
    split; [exact Ht |].
    intros cy' c1 c2 Hin Hc1 Hc2.
    apply elem_of_cons in Hin as [-> | Hin]; [|eauto].
    rewrite Ha in Hc1. rewrite Ha1 in Hc2.
    injection Hc1 as <-. injection Hc2 as <-.
    apply print_cell_visible, Ecell.
Qed.

Lemma print_rows_inj (b1 b2 : Board) (xs : list Z) :
  forall s1 s2,
    print_rows b1 xs = Ok s1 -> print_rows b2 xs = Ok s2 ->
    s1 = s2 ->
    forall cx cy c1 c2, cx ∈ xs -> cy ∈ indices ->
      cell_at b1 cx cy = Ok c1 -> cell_at b2 cx cy = Ok c2 ->
      visible c1 = visible c2.
Proof.
  induction xs as [|cx xs IH]; intros s1 s2 H1 H2 E;
    cbn [print_rows] in H1, H2.
  - intros cx cy c1 c2 Hin. inversion Hin.
  - inv_bind H1. inv_bind H1. injection H1 as <-.
    inv_bind H2. inv_bind H2. injection H2 as <-.
    destruct (print_row_inj _ _ _ _ _ _ _ _ Ha Ha1 E) as [Erest Hrow].
    intros cx' cy c1 c2 Hin Hcy Hc1 Hc2.
    apply elem_of_cons in Hin as [-> | Hin]; [eauto | eapply IH; eauto].
Qed.

Lemma print_row_ext (b1 b2 : Board) (cx : Z) (ys : list Z) :
  forall r1 r2,
    print_row b1 cx ys = Ok r1 -> print_row b2 cx ys = Ok r2 ->
    (forall cy c1 c2, cy ∈ ys ->
       cell_at b1 cx cy = Ok c1 -> cell_at b2 cx cy = Ok c2 ->
       visible c1 = visible c2) ->
    r1 = r2.
Proof.
  induction ys as [|cy ys IH]; intros r1 r2 H1 H2 Hsame; simpl in H1, H2.
  - congruence.
  - inv_bind H1. inv_bind H1. injection H1 as <-.
    inv_bind H2. inv_bind H2. injection H2 as <-.
    f_equal. f_equal.
    + apply print_cell_visible. eapply Hsame; eauto. left.
    + eapply IH; eauto. intros cy' c1 c2 Hin. apply Hsame. right. exact Hin.
Qed.

Lemma print_rows_ext (b1 b2 : Board) (xs : list Z) :
  forall s1 s2,
    print_rows b1 xs = Ok s1 -> print_rows b2 xs = Ok s2 ->
    (forall cx cy c1 c2, cx ∈ xs -> cy ∈ indices ->
       cell_at b1 cx cy = Ok c1 -> cell_at b2 cx cy = Ok c2 ->
       visible c1 = visible c2) ->
    s1 = s2.
Proof.
  induction xs as [|cx xs IH]; intros s1 s2 H1 H2 Hsame;
    cbn [print_rows] in H1, H2.
  - congruence.
  - inv_bind H1. inv_bind H1. injection H1 as <-.
    inv_bind H2. inv_bind H2. injection H2 as <-.
    f_equal.
    + eapply print_row_ext; eauto. intros cy c1 c2 Hin. apply Hsame; [left | exact Hin].
    + eapply IH; eauto. intros cx' cy c1 c2 Hin. apply Hsame. right. exact Hin.
Qed.

(** X1.  The printed board shows the position and nothing else: two boards are
    printed alike exactly when every square holds the same piece of the
    same colour on both, or is empty on both.  The colour flag of an empty
    cell and the [double_move] flags are not shown. *)
Theorem print_board_shows_the_position (b1 b2 : Board) (s1 s2 : list ascii) :
  print_board b1 = Ok s1 ->
  print_board b2 = Ok s2 ->
  s1 = s2 <->
  forall a c c1 c2,
    in_range a = true -> in_range c = true ->
    cell_at b1 a c = Ok c1 -> cell_at b2 a c = Ok c2 ->
    visible c1 = visible c2.
Proof.
  unfold print_board. intros H1 H2. split.
  - intros E a c c1 c2 Ha Hc.
    apply (print_rows_inj _ _ _ _ _ H1 H2 E); apply in_range_indices; assumption.
  - intros Hsame. apply (print_rows_ext _ _ _ _ _ H1 H2).
    intros cx cy c1 c2 Hx Hy. apply Hsame; apply in_range_indices; assumption.
Qed.

(** X2.  Every position reached by a replay is a grid of 8 by 8 cells, so that
    printing it reads no cell outside the vectors: it writes 8 lines of 23
    characters and a newline each. *)
Theorem replayed_board_is_printed (order : list Coordinates -> list Coordinates)
    (text : list ascii) (b : Board) :
  replay_text order text = Ok b ->
  is_grid b /\ exists s, print_board b = Ok s /\ length s = 192%nat.
Proof.
  unfold replay_text. intros H. apply main_loop_shape in H.
  assert (Hg : is_grid b) by (unfold is_grid; rewrite H; reflexivity).
  split; [exact Hg |].
  destruct (print_rows_defined b indices Hg) as (s & Hs & Hlen).
  { repeat constructor. }
  exists s. split; [exact Hs | exact Hlen].
Qed.

(** ** board.h: the motion predicates *)

Lemma deref_Ok (o : option Z) (v : Z) : deref o = Ok v -> o = Some v.
Proof. destruct o; simpl; congruence. Qed.

Lemma coordinates_at (c : Coordinates) (a b : Z) :
  x c = Some a -> y c = Some b -> c = at_ a b.
Proof. destruct c; simpl; intros -> ->; reflexivity. Qed.

Lemma is_valid_dest_true (b : Board) (d : Coordinates) (cap w : bool) :
  is_valid_dest b d cap w = Ok true ->
  exists dx dy cell,
    d = at_ dx dy /\ cell_at b dx dy = Ok cell
    /\ if cap then is_white cell = negb w /\ cell_piece cell <> "K"%char
       else cell_piece cell = "."%char.
Proof.
  unfold is_valid_dest. intros H. do 3 inv_bind H.
  apply deref_Ok in Ha, Ha0.
  exists a, a0, a1. split; [apply coordinates_at; assumption |].
  split; [assumption |].
  destruct cap; injection H as H.
  - apply andb_true_iff in H as [Hw Hk]. apply eqb_prop in Hw.
    apply negb_true_iff, char_eq_false in Hk. auto.
  - apply char_eq_true in H. exact H.
Qed.

Lemma can_move_rook_dest (b : Board) (s d : Coordinates) (cap w : bool) :
  can_move_rook b s d cap w = Ok true -> is_valid_dest b d cap w = Ok true.
Proof. unfold can_move_rook. intros H. repeat step_Ok; congruence. Qed.

Lemma can_move_bishop_dest (b : Board) (s d : Coordinates) (cap w : bool) :
  can_move_bishop b s d cap w = Ok true -> is_valid_dest b d cap w = Ok true.
Proof. unfold can_move_bishop. intros H. repeat step_Ok; congruence. Qed.

Lemma can_move_queen_dest (b : Board) (s d : Coordinates) (cap w : bool) :
  can_move_queen b s d cap w = Ok true -> is_valid_dest b d cap w = Ok true.
Proof.
  unfold can_move_queen. intros H. inv_bind H. destruct a.
  - eapply can_move_rook_dest, Ha.
  - eapply can_move_bishop_dest, H.
Qed.

Lemma can_move_knight_dest (b : Board) (s d : Coordinates) (cap w : bool) :
  can_move_knight b s d cap w = Ok true -> is_valid_dest b d cap w = Ok true.
Proof. unfold can_move_knight. intros H. repeat step_Ok; congruence. Qed.

Lemma can_move_king_dest (b : Board) (s d : Coordinates) (cap w : bool) :
  can_move_king b s d cap w = Ok true -> is_valid_dest b d cap w = Ok true.
Proof. unfold can_move_king. intros H. repeat step_Ok; congruence. Qed.

(** Boolean tests on integers, as propositions. *)
Ltac bool_hyps :=
  repeat match goal with
         | H : _ && _ = true |- _ => apply andb_true_iff in H as [? ?]
         | H : _ || _ = false |- _ => apply orb_false_iff in H as [? ?]
         | H : negb _ = true |- _ => apply negb_true_iff in H
         | H : negb _ = false |- _ => apply negb_false_iff in H
         | H : (_ =? _) = true |- _ => apply Z.eqb_eq in H
         | H : (_ =? _) = false |- _ => apply Z.eqb_neq in H
         | H : (_ <=? _) = true |- _ => apply Z.leb_le in H
         | H : (_ <=? _) = false |- _ => apply Z.leb_gt in H
         | H : (_ <? _) = true |- _ => apply Z.ltb_lt in H
         | H : (_ <? _) = false |- _ => apply Z.ltb_ge in H
         end.

Ltac bool_goal :=
  repeat first
    [ rewrite orb_true_iff | rewrite andb_true_iff | rewrite negb_true_iff
    | rewrite andb_false_iff | rewrite orb_false_iff | rewrite negb_false_iff
    | rewrite Z.eqb_eq | rewrite Z.eqb_neq | rewrite Z.leb_le
    | rewrite Z.leb_gt | rewrite Z.ltb_lt | rewrite Z.ltb_ge ].

Lemma can_move_rook_pattern (b : Board) (sx sy dx dy : Z) (cap w : bool) :
  can_move_rook b (at_ sx sy) (at_ dx dy) cap w = Ok true ->
  pattern "R" w cap sx sy dx dy = true.
Proof.
  unfold can_move_rook. cbn [bind deref x y at_]. intros H.
  unfold pattern. cbn -[Z.abs Z.sub].
  destruct ((sx =? dx) && negb (sy =? dy)) eqn:E1.
  - bool_hyps. bool_goal. lia.
  - destruct ((sy =? dy) && negb (sx =? dx)) eqn:E2; [|discriminate H].
    bool_hyps. bool_goal. lia.
Qed.

Lemma can_move_bishop_pattern (b : Board) (sx sy dx dy : Z) (cap w : bool) :
  can_move_bishop b (at_ sx sy) (at_ dx dy) cap w = Ok true ->
  pattern "B" w cap sx sy dx dy = true.
Proof.
  unfold can_move_bishop. cbn [bind deref x y at_]. intros H.
  unfold pattern. cbn -[Z.abs Z.sub].
  destruct (_ && _ && _) eqn:E1; [|discriminate H].
  bool_hyps. bool_goal. lia.
Qed.

Lemma can_move_knight_pattern (b : Board) (sx sy dx dy : Z) (cap w : bool) :
  can_move_knight b (at_ sx sy) (at_ dx dy) cap w = Ok true ->
  pattern "N" w cap sx sy dx dy = true.
Proof.
  unfold can_move_knight. cbn [bind deref x y at_]. intros H.
  unfold pattern. cbn -[Z.abs Z.sub].
  destruct (_ || _) eqn:E1; [reflexivity | discriminate H].
Qed.

Lemma can_move_king_pattern (b : Board) (sx sy dx dy : Z) (cap w : bool) :
  can_move_king b (at_ sx sy) (at_ dx dy) cap w = Ok true ->
  pattern "K" w cap sx sy dx dy = true.
Proof.
  unfold can_move_king. cbn [bind deref x y at_]. intros H.
  unfold pattern. cbn -[Z.abs Z.sub].
  destruct (_ && _ && _) eqn:E1; [|discriminate H].
  bool_hyps. bool_goal. lia.
Qed.

Lemma can_move_queen_pattern (b : Board) (sx sy dx dy : Z) (cap w : bool) :
  can_move_queen b (at_ sx sy) (at_ dx dy) cap w = Ok true ->
  pattern "Q" w cap sx sy dx dy = true.
Proof.
  unfold can_move_queen. intros H. inv_bind H.
  destruct a.
  - apply can_move_rook_pattern in Ha. unfold pattern in *.
    cbn -[Z.abs Z.sub] in *. rewrite Ha. reflexivity.
  - apply can_move_bishop_pattern in H. unfold pattern in *.
    cbn -[Z.abs Z.sub] in *. rewrite H. apply orb_true_r.
Qed.

Lemma can_move_pawn_pattern (b b1 : Board) (sx sy dx dy : Z) (cap w : bool) :
  can_move_pawn b (at_ sx sy) (at_ dx dy) cap w = Ok (true, b1) ->
  pattern "P" w cap sx sy dx dy = true.
Proof.
  unfold can_move_pawn. cbn [bind deref x y at_]. intros H.
  destruct cap.
  - repeat step_Ok; bool_hyps; try discriminate;
      unfold pattern; cbn -[Z.abs Z.sub pawn_home_row]; bool_goal; auto.
  - repeat step_Ok; bool_hyps; try discriminate;
      unfold pattern; cbn -[Z.abs Z.sub pawn_home_row]; bool_goal.
    + split; [assumption |]. right. split; [assumption |].
      destruct w; bool_hyps; vm_compute in H0; vm_compute; congruence.
    + auto.
Qed.

Lemma is_free_cell_true (b : Board) (a c : Z) :
  is_free_cell b (at_ a c) = Ok true ->
  exists cell, cell_at b a c = Ok cell /\ cell_piece cell = "."%char.
Proof.
  unfold is_free_cell. cbn [bind deref x y at_]. intros H. inv_bind H.
  injection H as H. apply char_eq_true in H. eauto.
Qed.

Lemma is_valid_dest_lands (b : Board) (dx dy : Z) (cap w : bool) :
  is_valid_dest b (at_ dx dy) cap w = Ok true ->
  exists cell, cell_at b dx dy = Ok cell /\ lands_safely cap w cell.
Proof.
  intros H. apply is_valid_dest_true in H as (dx' & dy' & cell & E & Hc & H).
  injection E as <- <-. exists cell. split; [exact Hc |].
  unfold lands_safely. destruct cap.
  - destruct H as [Hw Hk].
    split; [exact Hk |]. split; [intros [=] | auto].
  - rewrite H. split; [discriminate |]. split; [reflexivity | intros [=]].
Qed.

Lemma can_move_pawn_lands (b b1 : Board) (sx sy dx dy : Z) (cap w : bool) :
  can_move_pawn b (at_ sx sy) (at_ dx dy) cap w = Ok (true, b1) ->
  exists cell, cell_at b dx dy = Ok cell /\ lands_safely cap w cell.
Proof.
  unfold can_move_pawn. cbn [bind deref x y at_]. intros H.
  destruct cap.
  - inv_bind H. destruct (_ && (_ =c _)) eqn:Hep.
    + apply andb_true_iff in Hep as [_ Hep]. apply char_eq_true in Hep.
      exists a. split; [exact Ha |]. unfold lands_safely. rewrite Hep.
      split; [discriminate |]. split; [reflexivity | congruence].
    + repeat step_Ok; try discriminate. subst.
      apply is_valid_dest_lands. assumption.
  - repeat step_Ok; bool_hyps; try discriminate; subst.
    + apply is_free_cell_true in Ha0 as (cell & Hcell & Hp).
      exists cell. split.
      * rewrite <- Hcell. f_equal; destruct w; lia.
      * unfold lands_safely. rewrite Hp.
        split; [discriminate |]. split; [reflexivity | intros [=]].
    + apply is_valid_dest_lands. assumption.
Qed.

Lemma piece_can_move_complete (val : NextMove) (b b1 : Board)
    (s d : Coordinates) (v : bool) :
  piece_can_move val b s d = Ok (v, b1) ->
  exists sx sy dx dy, s = at_ sx sy /\ d = at_ dx dy.
Proof.
  unfold piece_can_move, can_move_pawn, can_move_rook, can_move_queen,
    can_move_rook, can_move_bishop, can_move_knight, can_move_king.
  destruct s as [[sx|] [sy|]], d as [[dx|] [dy|]];
    cbn [bind deref x y]; intros H;
    try (exists sx, sy, dx, dy; split; reflexivity);
    repeat match type of H with
           | (if ?c then _ else _) = _ => destruct c
           end; discriminate H.
Qed.

Lemma pair_verdict_true (val : NextMove) (b b1 : Board) (s d : Coordinates) :
  pair_verdict val b (s, d) = Ok (true, b1) ->
  is_locked b s d (capture val) (is_white_move val) = Ok false
  /\ piece_can_move val b s d = Ok (true, b1).
Proof.
  unfold pair_verdict. cbn [fst snd]. intros H. inv_bind H.
  destruct a; [discriminate H | auto].
Qed.

Lemma piece_can_move_pattern (val : NextMove) (b b1 : Board) (sx sy dx dy : Z) :
  piece_can_move val b (at_ sx sy) (at_ dx dy) = Ok (true, b1) ->
  pattern (piece val) (is_white_move val) (capture val) sx sy dx dy = true.
Proof.
  unfold piece_can_move. intros H.
  destruct (piece val =c "P") eqn:E;
    [apply char_eq_true in E; rewrite E; eapply can_move_pawn_pattern, H |].
  destruct (piece val =c "R") eqn:E0;
    [apply char_eq_true in E0; rewrite E0; inv_bind H; injection H as -> _;
     eapply can_move_rook_pattern, Ha |].
  destruct (piece val =c "Q") eqn:E1;
    [apply char_eq_true in E1; rewrite E1; inv_bind H; injection H as -> _;
     eapply can_move_queen_pattern, Ha |].
  destruct (piece val =c "N") eqn:E2;
    [apply char_eq_true in E2; rewrite E2; inv_bind H; injection H as -> _;
     eapply can_move_knight_pattern, Ha |].
  destruct (piece val =c "B") eqn:E3;
    [apply char_eq_true in E3; rewrite E3; inv_bind H; injection H as -> _;
     eapply can_move_bishop_pattern, Ha |].
  destruct (piece val =c "K") eqn:E4;
    [apply char_eq_true in E4; rewrite E4; inv_bind H; injection H as -> _;
     eapply can_move_king_pattern, Ha |].
  discriminate H.
Qed.

Lemma piece_can_move_lands (val : NextMove) (b b1 : Board) (sx sy dx dy : Z) :
  piece_can_move val b (at_ sx sy) (at_ dx dy) = Ok (true, b1) ->
  exists cell, cell_at b dx dy = Ok cell
               /\ lands_safely (capture val) (is_white_move val) cell.
Proof.
  unfold piece_can_move. intros H.
  destruct (piece val =c "P"); [eapply can_move_pawn_lands, H |].
  destruct (piece val =c "R");
    [inv_bind H; injection H as -> _;
     eapply is_valid_dest_lands, can_move_rook_dest, Ha |].
  destruct (piece val =c "Q");
    [inv_bind H; injection H as -> _;
     eapply is_valid_dest_lands, can_move_queen_dest, Ha |].
  destruct (piece val =c "N");
    [inv_bind H; injection H as -> _;
     eapply is_valid_dest_lands, can_move_knight_dest, Ha |].
  destruct (piece val =c "B");
    [inv_bind H; injection H as -> _;
     eapply is_valid_dest_lands, can_move_bishop_dest, Ha |].
  destruct (piece val =c "K");
    [inv_bind H; injection H as -> _;
     eapply is_valid_dest_lands, can_move_king_dest, Ha |].
  discriminate H.
Qed.

Lemma pattern_moves (p : ascii) (w cap : bool) (sx sy dx dy : Z) :
  pattern p w cap sx sy dx dy = true -> (sx, sy) <> (dx, dy).
Proof.
  unfold pattern. intros H [= -> ->].
  rewrite !Z.sub_diag in H. change (Z.abs 0) with 0 in H.
  destruct w; cbn in H;
    repeat match type of H with
           | (if ?c then _ else _) = _ => destruct c
           end; discriminate H.
Qed.

(** X3.  Every pair that passes the legality test has complete coordinates, and
    the displacement from the source to the destination is one the piece
    is allowed: a pawn goes one row forward (two from its home row), or one
    row forward and one file aside when it captures; a rook stays on its row
    or file, a bishop on a diagonal, a queen on either; a knight makes its
    jump and a king one step.  The source and the destination differ. *)
Theorem pieces_move_in_their_pattern (val : NextMove) (b b1 : Board)
    (s d : Coordinates) :
  pair_verdict val b (s, d) = Ok (true, b1) ->
  exists sx sy dx dy,
    s = at_ sx sy /\ d = at_ dx dy
    /\ pattern (piece val) (is_white_move val) (capture val) sx sy dx dy = true
    /\ (sx, sy) <> (dx, dy).
Proof.
  intros H. apply pair_verdict_true in H as [_ H].
  destruct (piece_can_move_complete _ _ _ _ _ _ H)
    as (sx & sy & dx & dy & -> & ->).
  exists sx, sy, dx, dy.
  pose proof (piece_can_move_pattern _ _ _ _ _ _ _ H) as Hp.
  repeat split; [exact Hp | eapply pattern_moves, Hp].
Qed.

(** X4.  The destination of a pair that passes the legality test never holds a
    king; without the capture flag it is empty; with the capture flag a
    piece that stands on it belongs to the other side. *)
Theorem accepted_move_lands_safely (val : NextMove) (b b1 : Board)
    (s d : Coordinates) :
  pair_verdict val b (s, d) = Ok (true, b1) ->
  exists dx dy cell,
    d = at_ dx dy /\ cell_at b dx dy = Ok cell
    /\ cell_piece cell <> "K"%char
    /\ (capture val = false -> cell_piece cell = "."%char)
    /\ (capture val = true -> cell_piece cell <> "."%char ->
        is_white cell = negb (is_white_move val)).
Proof.
  intros H. apply pair_verdict_true in H as [_ H].
  destruct (piece_can_move_complete _ _ _ _ _ _ H)
    as (sx & sy & dx & dy & -> & ->).
  destruct (piece_can_move_lands _ _ _ _ _ _ _ H) as (cell & Hc & Hk & Hq & Hcap).
  exists dx, dy, cell. auto.
Qed.

(** ** board.h: [apply] on a NextMove *)

Lemma update_cell_other (b b' : Board) (i j a c : Z) (g : Cell -> Cell) :
  update_cell b i j g = Ok b' -> (a, c) <> (i, j) ->
  cell_at b' a c = cell_at b a c.
Proof.
  intros H Hne. apply update_cell_inv in H as (old & _ & H).
  eapply cell_at_store_other; eauto.
Qed.

Lemma update_cell_same (b b' : Board) (i j : Z) (g : Cell -> Cell) :
  update_cell b i j g = Ok b' ->
  exists old, cell_at b i j = Ok old /\ cell_at b' i j = Ok (g old).
Proof.
  intros H. apply update_cell_inv in H as (old & Hold & H).
  exists old. split; [exact Hold | eapply cell_at_store_same, H].
Qed.

Lemma can_move_pawn_frame (b b1 : Board) (sx sy dx dy : Z) (cap w v : bool) :
  can_move_pawn b (at_ sx sy) (at_ dx dy) cap w = Ok (v, b1) ->
  forall a c, (a, c) <> (dx, dy) -> (a, c) <> (sx, dy) ->
              cell_at b1 a c = cell_at b a c.
Proof.
  unfold can_move_pawn. cbn [bind deref x y at_]. intros H a c Nd Ns.
  repeat step_Ok; subst; try reflexivity.
  - eapply cell_at_store_other; [eassumption |].
    replace (sy + (dy - sy)) with dy by lia. exact Ns.
  - eapply update_cell_other; eassumption.
Qed.

Lemma piece_can_move_frame (val : NextMove) (b b1 : Board) (sx sy dx dy : Z)
    (v : bool) :
  piece_can_move val b (at_ sx sy) (at_ dx dy) = Ok (v, b1) ->
  forall a c, (a, c) <> (dx, dy) -> (a, c) <> (sx, dy) ->
              cell_at b1 a c = cell_at b a c.
Proof.
  unfold piece_can_move. intros H.
  destruct (piece val =c "P"); [eapply can_move_pawn_frame, H |].
  repeat step_Ok; subst; reflexivity.
Qed.

Lemma on_first_match_frame (val : NextMove) (b1 b2 : Board) (sx sy dx dy : Z) :
  on_first_match val b1 (at_ sx sy) (at_ dx dy) = Ok b2 ->
  forall a c, (a, c) <> (sx, sy) -> (a, c) <> (dx, dy) ->
              cell_at b2 a c = cell_at b1 a c.
Proof.
  unfold on_first_match. cbn [bind deref x y at_]. intros H a c Ns Nd.
  repeat step_Ok; subst; try reflexivity;
    eapply cell_at_store_other; eassumption.
Qed.

Lemma move_piece_effect (val : NextMove) (b2 b' : Board) (n : nat)
    (sx sy dx dy : Z) (fm : bool) :
  move_piece val (mkResolution b2 n (at_ sx sy) (at_ dx dy) fm) = Ok b' ->
  (sx, sy) <> (dx, dy) ->
  (exists old, cell_at b2 dx dy = Ok old
               /\ cell_at b' dx dy
                  = Ok (mkCell (is_white_move val) (moved_piece val)
                          (double_move old)))
  /\ (exists old, cell_at b2 sx sy = Ok old
                  /\ cell_at b' sx sy = Ok (set_piece "." old))
  /\ forall a c, (a, c) <> (sx, sy) -> (a, c) <> (dx, dy) ->
                 cell_at b' a c = cell_at b2 a c.
Proof.
  unfold move_piece. cbn [bind deref x y at_ final_src final_dst res_board].
  intros H Hne. inv_bind H. inv_bind H.
  assert (Hne' : (dx, dy) <> (sx, sy)) by congruence.
  pose proof (update_cell_same _ _ _ _ _ Ha) as (old1 & Hold1 & Hnew1).
  pose proof (update_cell_same _ _ _ _ _ Ha0) as (old2 & Hold2 & Hnew2).
  pose proof (update_cell_same _ _ _ _ _ H) as (old3 & Hold3 & Hnew3).
  split; [|split].
  - exists old1. split; [exact Hold1 |]. rewrite Hnew3. f_equal.
    rewrite (update_cell_other _ _ _ _ _ _ _ Ha0 Hne') in Hold3.
    rewrite Hnew1 in Hold3. injection Hold3 as <-. reflexivity.
  - exists old2. split.
    + rewrite <- Hold2. symmetry. eapply update_cell_other; eassumption.
    + rewrite (update_cell_other _ _ _ _ _ _ _ H Hne). exact Hnew2.
  - intros i j Ns Nd.
    rewrite (update_cell_other _ _ _ _ _ _ _ H Nd).
    rewrite (update_cell_other _ _ _ _ _ _ _ Ha0 Ns).
    apply (update_cell_other _ _ _ _ _ _ _ Ha Nd).
Qed.

(** X5.  What an applied NextMove does to the board.  There are a source square
    and a destination square, different from each other: afterwards the
    destination holds the piece named by the move (the promotion piece, if
    one is given) with the mover's colour, the source has piece ['.'], and
    every other cell is as before, except at most the cell on the row of
    the source and the file of the destination, where a pawn captured en
    passant stood. *)
Theorem apply_NextMove_effect (order : list Coordinates -> list Coordinates)
    (b b' : Board) (val : NextMove) :
  apply order b (MNextMove val) = Ok b' ->
  exists sx sy dx dy,
    (sx, sy) <> (dx, dy)
    /\ pattern (piece val) (is_white_move val) (capture val) sx sy dx dy = true
    /\ (exists cd, cell_at b' dx dy = Ok cd
                   /\ cell_piece cd = moved_piece val
                   /\ is_white cd = is_white_move val)
    /\ (exists cs, cell_at b' sx sy = Ok cs /\ cell_piece cs = "."%char)
    /\ forall a c, (a, c) <> (sx, sy) -> (a, c) <> (dx, dy) ->
                   (a, c) <> (sx, dy) ->
                   cell_at b' a c = cell_at b a c.
Proof.
  intros H. apply apply_NextMove_inv in H
    as (srcs & dsts & pre & [s d] & post & b1 & b2
        & _ & _ & _ & _ & Hv & Hm & _ & Hmove).
  cbn [fst snd] in Hm, Hmove.
  apply pair_verdict_true in Hv as [_ Hv].
  destruct (piece_can_move_complete _ _ _ _ _ _ Hv)
    as (sx & sy & dx & dy & -> & ->).
  pose proof (piece_can_move_pattern _ _ _ _ _ _ _ Hv) as Hp.
  pose proof (pattern_moves _ _ _ _ _ _ _ Hp) as Hne.
  destruct (move_piece_effect _ _ _ _ _ _ _ _ _ Hmove Hne)
    as ((oldd & _ & Hd) & (olds & _ & Hs) & Hframe).
  exists sx, sy, dx, dy.
  split; [exact Hne |]. split; [exact Hp |].
  split; [eexists; split; [exact Hd | split; reflexivity] |].
  split; [eexists; split; [exact Hs | reflexivity] |].
  intros a c Ns Nd Ne.
  rewrite (Hframe a c Ns Nd).
  rewrite (on_first_match_frame _ _ _ _ _ _ _ Hm a c Ns Nd).
  apply (piece_can_move_frame _ _ _ _ _ _ _ _ Hv a c Nd Ne).
Qed.

(** ** board.h: the paths of rooks, bishops and queens *)

Lemma is_free_cell_iff (b : Board) (a c : Z) :
  is_free_cell b (at_ a c) = Ok true
  <-> exists cell, cell_at b a c = Ok cell /\ cell_piece cell = "."%char.
Proof.
  split; [apply is_free_cell_true |].
  intros (cell & Hc & Hp). rewrite (is_free_cell_spec _ _ _ _ Hc), Hp.
  reflexivity.
Qed.

Lemma path_is_free_spec (b : Board) (ddx ddy : Z) (n : nat) :
  (ddx, ddy) <> (0, 0) ->
  forall rx ry,
    path_is_free n b (at_ (rx + Z.of_nat n * ddx) (ry + Z.of_nat n * ddy))
      rx ry ddx ddy = Ok true
    <-> forall k, 0 < k < Z.of_nat n ->
          exists cell, cell_at b (rx + k * ddx) (ry + k * ddy) = Ok cell
                       /\ cell_piece cell = "."%char.
Proof.
  intros Hd. induction n as [|n IH]; intros rx ry.
  - simpl. split; [intros _ k Hk; lia | reflexivity].
  - cbn [path_is_free].
    replace (rx + Z.of_nat (S n) * ddx) with (rx + ddx + Z.of_nat n * ddx) by lia.
    replace (ry + Z.of_nat (S n) * ddy) with (ry + ddy + Z.of_nat n * ddy) by lia.
    destruct n as [|n].
    + replace (rx + ddx + Z.of_nat 0 * ddx) with (rx + ddx) by lia.
      replace (ry + ddy + Z.of_nat 0 * ddy) with (ry + ddy) by lia.
      rewrite bool_decide_eq_false_2 by (intros N; apply N; reflexivity).
      simpl. split; [intros _ k Hk; lia | reflexivity].
    + rewrite bool_decide_eq_true_2.
      2:{ intros [= E1 E2]. apply Hd.
          assert (ddx = 0) by nia. assert (ddy = 0) by nia. congruence. }
      specialize (IH (rx + ddx) (ry + ddy)).
      split.
      * intros H. inv_bind H. destruct a; [|discriminate H]. simpl in H.
        intros k Hk. destruct (decide (k = 1)) as [-> | Hk1].
        -- rewrite !Z.mul_1_l. apply is_free_cell_iff, Ha.
        -- destruct (proj1 IH H (k - 1)) as (cell & Hc & Hp); [lia |].
           exists cell. split; [|exact Hp]. rewrite <- Hc. f_equal; lia.
      * intros H.
        assert (H1 : is_free_cell b (at_ (rx + ddx) (ry + ddy)) = Ok true).
        { apply is_free_cell_iff. destruct (H 1) as (cell & Hc & Hp); [lia |].
          exists cell. split; [|exact Hp]. rewrite <- Hc. f_equal; lia. }
        rewrite H1. simpl. apply IH. intros k Hk.
        destruct (H (k + 1)) as (cell & Hc & Hp); [lia |].
        exists cell. split; [|exact Hp]. rewrite <- Hc. f_equal; lia.
Qed.

Lemma slide_iff (b : Board) (sx sy dx dy m ddx ddy : Z) (cap w : bool) :
  0 < m -> dx = sx + m * ddx -> dy = sy + m * ddy ->
  ddx = Z.sgn (dx - sx) -> ddy = Z.sgn (dy - sy) ->
  m = Z.max (Z.abs (dx - sx)) (Z.abs (dy - sy)) ->
  (free <- path_is_free (Z.to_nat m) b (at_ dx dy) sx sy ddx ddy ;;
   if free then is_valid_dest b (at_ dx dy) cap w else Ok false) = Ok true
  <-> empty_between b sx sy dx dy
      /\ is_valid_dest b (at_ dx dy) cap w = Ok true.
Proof.
  intros Hm Hx Hy Hsx Hsy Hmax.
  assert (Hd : (ddx, ddy) <> (0, 0)) by (intros [= -> ->]; lia).
  pose proof (path_is_free_spec b ddx ddy (Z.to_nat m) Hd sx sy) as Hspec.
  rewrite Z2Nat.id in Hspec by lia. rewrite <- Hx, <- Hy in Hspec.
  unfold empty_between. rewrite <- Hmax, <- Hsx, <- Hsy.
  split.
  - intros H. inv_bind H. destruct a; [|discriminate H].
    split; [apply Hspec, Ha | exact H].
  - intros [Hfree Hdest]. apply Hspec in Hfree. rewrite Hfree. exact Hdest.
Qed.

Lemma can_move_rook_iff (b : Board) (sx sy dx dy : Z) (cap w : bool) :
  can_move_rook b (at_ sx sy) (at_ dx dy) cap w = Ok true
  <-> pattern "R" w cap sx sy dx dy = true
      /\ empty_between b sx sy dx dy
      /\ is_valid_dest b (at_ dx dy) cap w = Ok true.
Proof.
  unfold can_move_rook, pattern. cbn [bind deref x y at_].
  cbn -[Z.abs Z.sub Z.max Z.sgn path_is_free].
  destruct ((sx =? dx) && negb (sy =? dy)) eqn:E1; bool_hyps.
  - assert (Hp : (Z.abs (dx - sx) =? 0) && negb (Z.abs (dy - sy) =? 0)
                 || (Z.abs (dy - sy) =? 0) && negb (Z.abs (dx - sx) =? 0) = true)
      by (bool_goal; lia).
    rewrite Hp.
    destruct (sy <? dy) eqn:E2; bool_hyps.
    + rewrite (slide_iff b sx sy dx dy (dy - sy) 0 1 cap w) by lia. tauto.
    + rewrite (slide_iff b sx sy dx dy (sy - dy) 0 (-1) cap w) by lia. tauto.
  - destruct ((sy =? dy) && negb (sx =? dx)) eqn:E2; bool_hyps.
    + assert (Hp : (Z.abs (dx - sx) =? 0) && negb (Z.abs (dy - sy) =? 0)
                   || (Z.abs (dy - sy) =? 0) && negb (Z.abs (dx - sx) =? 0) = true)
        by (bool_goal; lia).
      rewrite Hp.
      destruct (sx <? dx) eqn:E3; bool_hyps.
      * rewrite (slide_iff b sx sy dx dy (dx - sx) 1 0 cap w) by lia. tauto.
      * rewrite (slide_iff b sx sy dx dy (sx - dx) (-1) 0 cap w) by lia. tauto.
    + split; [discriminate |]. intros [Hp _]. exfalso.
      apply andb_false_iff in E1, E2. bool_hyps.
      revert Hp. bool_goal. 
      destruct E1 as [E1 | E1], E2 as [E2 | E2]; bool_hyps; lia.
Qed.

Lemma can_move_bishop_iff (b : Board) (sx sy dx dy : Z) (cap w : bool) :
  can_move_bishop b (at_ sx sy) (at_ dx dy) cap w = Ok true
  <-> pattern "B" w cap sx sy dx dy = true
      /\ empty_between b sx sy dx dy
      /\ is_valid_dest b (at_ dx dy) cap w = Ok true.
Proof.
  unfold can_move_bishop, pattern. cbn [bind deref x y at_].
  cbn -[Z.abs Z.sub Z.max Z.sgn path_is_free].
  destruct ((1 <=? Z.abs (dx - sx)) && (1 <=? Z.abs (dy - sy))
            && (Z.abs (dx - sx) =? Z.abs (dy - sy))) eqn:E1; bool_hyps.
  - assert (Hp : (Z.abs (dx - sx) =? Z.abs (dy - sy)) && (1 <=? Z.abs (dx - sx))
                 = true) by (bool_goal; lia).
    rewrite Hp.
    destruct ((sx <? dx) && (sy <? dy)) eqn:E2; bool_hyps.
    { rewrite (slide_iff b sx sy dx dy (dx - sx) 1 1 cap w) by lia. tauto. }
    destruct ((sx <? dx) && (dy <? sy)) eqn:E3; bool_hyps.
    { rewrite (slide_iff b sx sy dx dy (dx - sx) 1 (-1) cap w) by lia. tauto. }
    destruct ((dx <? sx) && (sy <? dy)) eqn:E4; bool_hyps.
    { rewrite (slide_iff b sx sy dx dy (sx - dx) (-1) 1 cap w) by lia. tauto. }
    destruct ((dx <? sx) && (dy <? sy)) eqn:E5; bool_hyps.
    { rewrite (slide_iff b sx sy dx dy (sx - dx) (-1) (-1) cap w) by lia. tauto. }
    exfalso. apply andb_false_iff in E2, E3, E4, E5.
    destruct E2, E3, E4, E5; bool_hyps; lia.
  - split; [discriminate |]. intros [Hp _]. exfalso.
    bool_hyps. apply andb_false_iff in E1 as [E1 | E1];
      [apply andb_false_iff in E1 as [E1 | E1] |]; bool_hyps; lia.
Qed.

Lemma can_move_rook_false_off_line (b : Board) (sx sy dx dy : Z) (cap w : bool) :
  sx <> dx -> sy <> dy ->
  can_move_rook b (at_ sx sy) (at_ dx dy) cap w = Ok false.
Proof.
  intros Hx Hy. unfold can_move_rook. cbn [bind deref x y at_].
  apply Z.eqb_neq in Hx, Hy. rewrite Hx, Hy. reflexivity.
Qed.

(** X6.  Rooks, bishops and queens do not jump.  Each of the three predicates
    answers true exactly when the displacement fits the piece, every square
    strictly between the source and the destination is empty, and the
    landing test accepts the destination. *)
Theorem sliding_pieces_do_not_jump (b : Board) (sx sy dx dy : Z) (cap w : bool) :
  let clear_and_valid :=
    empty_between b sx sy dx dy
    /\ is_valid_dest b (at_ dx dy) cap w = Ok true in
  (can_move_rook b (at_ sx sy) (at_ dx dy) cap w = Ok true
   <-> pattern "R" w cap sx sy dx dy = true /\ clear_and_valid)
  /\ (can_move_bishop b (at_ sx sy) (at_ dx dy) cap w = Ok true
      <-> pattern "B" w cap sx sy dx dy = true /\ clear_and_valid)
  /\ (can_move_queen b (at_ sx sy) (at_ dx dy) cap w = Ok true
      <-> pattern "Q" w cap sx sy dx dy = true /\ clear_and_valid).
Proof.
  intros clear_and_valid. subst clear_and_valid.
  split; [apply can_move_rook_iff |]. split; [apply can_move_bishop_iff |].
  assert (Hq : pattern "Q" w cap sx sy dx dy
               = pattern "R" w cap sx sy dx dy || pattern "B" w cap sx sy dx dy)
    by reflexivity.
  rewrite Hq, orb_true_iff. unfold can_move_queen.
  split.
  - intros H. inv_bind H. destruct a.
    + apply can_move_rook_iff in Ha as (Hp & Hc). auto.
    + apply can_move_bishop_iff in H as (Hp & Hc). auto.
  - intros [[Hr | Hb] Hc].
    + rewrite (proj2 (can_move_rook_iff b sx sy dx dy cap w)) by auto.
      reflexivity.
    + assert (Hoff : sx <> dx /\ sy <> dy).
      { unfold pattern in Hb. cbn -[Z.abs Z.sub] in Hb. bool_hyps. lia. }
      rewrite can_move_rook_false_off_line by tauto.
      apply can_move_bishop_iff. auto.
Qed.

(** ** board.h: [can_move_pawn] *)

(** X7.  The moves of a pawn.  Without the capture flag [can_move_pawn] accepts
    a step of one row forward on the same file onto an empty square, and
    leaves the board alone; or a step of two rows from the home row of the
    colour over an empty square onto an empty square, and sets
    [double_move] on the destination; and nothing else.  With the capture
    flag and a piece on the destination, it accepts one row forward and one
    file aside onto a piece of the other colour that is not a king, and
    leaves the board alone. *)
Theorem pawn_moves (b b1 : Board) (sx sy dx dy : Z) (w : bool) :
  let step := if w then sx - dx else dx - sx in
  let ahead := if w then sx - 1 else sx + 1 in
  (can_move_pawn b (at_ sx sy) (at_ dx dy) false w = Ok (true, b1)
   <-> dy = sy
       /\ ((step = 1 /\ empty_square b dx dy /\ b1 = b)
           \/ (step = 2 /\ sx = pawn_home_row w
               /\ empty_square b ahead sy /\ empty_square b dx dy
               /\ update_cell b dx dy (set_double_move true) = Ok b1)))
  /\ (forall cell,
        cell_at b dx dy = Ok cell -> cell_piece cell <> "."%char ->
        (can_move_pawn b (at_ sx sy) (at_ dx dy) true w = Ok (true, b1)
         <-> step = 1 /\ Z.abs (dy - sy) = 1
             /\ is_white cell = negb w /\ cell_piece cell <> "K"%char
             /\ b1 = b)).
Proof.
  intros step ahead. split.
  - unfold can_move_pawn. cbn [bind deref x y at_]. fold step.
    assert (Hhome : (if w then r "2" =? sx else r "7" =? sx)
                    = (sx =? pawn_home_row w))
      by (destruct w; cbn; apply Z.eqb_sym).
    rewrite Hhome.
    assert (Hahead : sx + (if w then -1 else 1) = ahead)
      by (unfold ahead; destruct w; lia).
    rewrite Hahead.
    destruct (step =? 2) eqn:E2; bool_hyps.
    + assert (Hdst : dy = sy -> ahead + (if w then -1 else 1) = dx)
        by (unfold ahead, step in *; destruct w; lia).
      destruct (sx =? pawn_home_row w) eqn:Eh; bool_hyps;
        [|cbn [andb]; split; [discriminate | intros (_ & [? | ?]); lia]].
      destruct (Z.abs (dy - sy) =? 0) eqn:Ey; bool_hyps;
        [|cbn [andb]; split; [discriminate | intros (? & _); lia]].
      cbn [andb]. assert (dy = sy) as -> by lia. rewrite Hdst by reflexivity.
      split.
      * intros H. inv_bind H. destruct a; [|discriminate H]. cbn [negb] in H.
        inv_bind H. destruct a; [|discriminate H].
        inv_bind H. injection H as <-.
        apply is_free_cell_iff in Ha, Ha0.
        split; [reflexivity |]. right. unfold empty_square. auto.
      * intros (_ & [(? & _) | (_ & _ & Hmid & Hd & Hupd)]); [lia |].
        apply is_free_cell_iff in Hmid, Hd. rewrite Hmid. cbn [bind negb].
        rewrite Hd. cbn [bind]. rewrite Hupd. reflexivity.
    + destruct (step =? 1) eqn:E1; bool_hyps;
        [|split; [discriminate | intros (_ & [? | ?]); lia]].
      destruct (Z.abs (dy - sy) =? 0) eqn:Ey; bool_hyps;
        [|split; [discriminate | intros (? & _); lia]].
      assert (dy = sy) as -> by lia.
      unfold is_valid_dest. cbn [bind deref x y at_].
      split.
      * intros H. inv_bind H. inv_bind Ha. injection Ha as <-.
        injection H as Hp <-. apply char_eq_true in Hp.
        split; [reflexivity |]. left. unfold empty_square. eauto.
      * intros (_ & [(_ & (cell & Hc & Hp) & ->) | (? & _)]); [|lia].
        rewrite Hc. cbn [bind]. rewrite Hp. reflexivity.
  - intros cell Hcell Hocc.
    unfold can_move_pawn. cbn [bind deref x y at_]. fold step.
    rewrite Hcell. cbn [bind].
    apply char_eq_false in Hocc. rewrite Hocc, andb_false_r.
    destruct ((step =? 1) && (Z.abs (dy - sy) =? 1)) eqn:E; bool_hyps.
    + unfold is_valid_dest. cbn [bind deref x y at_]. rewrite Hcell.
      cbn [bind]. split.
      * intros [= Hv <-]. apply andb_true_iff in Hv as [Hw Hk].
        apply eqb_prop in Hw. apply negb_true_iff, char_eq_false in Hk.
        repeat split; assumption.
      * intros (_ & _ & Hw & Hk & ->). apply char_eq_false in Hk.
        rewrite Hw, Hk, eqb_reflx. reflexivity.
    + split; [discriminate |]. intros (? & ? & _).
      apply andb_false_iff in E as [E | E]; bool_hyps; lia.
Qed.

(** ** board.h: [apply] on a KingCastling *)

Lemma apply_KingCastling (order : list Coordinates -> list Coordinates)
    (b : Board) (w : bool) :
  apply order b (KingCastling w) =
  let row := castling_row w in
  c1 <- is_free_cell b (at_ row 6) ;;
  _ <- INTERNAL_ASSERT c1 ;;
  c2 <- is_free_cell b (at_ row 5) ;;
  _ <- INTERNAL_ASSERT c2 ;;
  king <- cell_at b row 4 ;;
  b1 <- store_cell b row 6 king ;;
  b2 <- update_cell b1 row 4 (set_piece ".") ;;
  rook <- cell_at b2 row 7 ;;
  b3 <- store_cell b2 row 5 rook ;;
  update_cell b3 row 7 (set_piece ".").
Proof. destruct w; reflexivity. Qed.

(** X8.  Applying a KingCastling descriptor asserts that columns 6 and 5 of the
    mover's back rank are empty and fails fatally otherwise.  When they are,
    the cell of column 4 is copied to column 6 and the cell of column 7 to
    column 5, with their colour and [double_move] flags, columns 4 and 7 get
    piece ['.'], and no other cell changes.  What the cells of columns 4 and
    7 hold is not examined: they need not be a king and a rook. *)
Theorem king_side_castling (order : list Coordinates -> list Coordinates)
    (b : Board) (w : bool) (king rook c5 c6 : Cell) :
  let row := castling_row w in
  cell_at b row 4 = Ok king ->
  cell_at b row 7 = Ok rook ->
  cell_at b row 5 = Ok c5 ->
  cell_at b row 6 = Ok c6 ->
  (cell_piece c5 = "."%char /\ cell_piece c6 = "."%char ->
   exists b',
     apply order b (KingCastling w) = Ok b'
     /\ cell_at b' row 6 = Ok king
     /\ cell_at b' row 5 = Ok rook
     /\ cell_at b' row 4 = Ok (set_piece "." king)
     /\ cell_at b' row 7 = Ok (set_piece "." rook)
     /\ forall a c, (a, c) <> (row, 4) -> (a, c) <> (row, 5) ->
                    (a, c) <> (row, 6) -> (a, c) <> (row, 7) ->
                    cell_at b' a c = cell_at b a c)
  /\ (cell_piece c5 <> "."%char \/ cell_piece c6 <> "."%char ->
      apply order b (KingCastling w) = Err AssertionFailed).
Proof.
  intros row Hking Hrook Hc5 Hc6. rewrite apply_KingCastling. fold row.
  cbv zeta.
  rewrite (is_free_cell_spec b row 6 c6 Hc6), (is_free_cell_spec b row 5 c5 Hc5).
  split.
  - intros [E5 E6]. rewrite E5, E6. simpl. rewrite Hking. simpl.
    destruct (store_cell_defined b row 6 king c6 Hc6) as [b1 Hb1].
    rewrite Hb1. simpl.
    assert (Hk1 : cell_at b1 row 4 = Ok king).
    { rewrite (cell_at_store_other _ _ _ _ _ _ _ Hb1); [assumption | intros [=]]. }
    destruct (update_cell_defined b1 row 4 (set_piece ".") king Hk1)
      as (b2 & -> & Hb2). simpl.
    assert (Hr2 : cell_at b2 row 7 = Ok rook).
    { rewrite (cell_at_store_other _ _ _ _ _ _ _ Hb2) by (intros [=]).
      rewrite (cell_at_store_other _ _ _ _ _ _ _ Hb1) by (intros [=]).
      assumption. }
    rewrite Hr2. simpl.
    assert (H52 : cell_at b2 row 5 = Ok c5).
    { rewrite (cell_at_store_other _ _ _ _ _ _ _ Hb2) by (intros [=]).
      rewrite (cell_at_store_other _ _ _ _ _ _ _ Hb1) by (intros [=]).
      assumption. }
    destruct (store_cell_defined b2 row 5 rook c5 H52) as [b3 Hb3].
    rewrite Hb3. simpl.
    assert (Hr3 : cell_at b3 row 7 = Ok rook).
    { rewrite (cell_at_store_other _ _ _ _ _ _ _ Hb3) by (intros [=]).
      assumption. }
    destruct (update_cell_defined b3 row 7 (set_piece ".") rook Hr3)
      as (b4 & -> & Hb4).
    exists b4. split; [reflexivity |].
    repeat split.
    + rewrite (cell_at_store_other _ _ _ _ _ _ _ Hb4) by (intros [=]).
      rewrite (cell_at_store_other _ _ _ _ _ _ _ Hb3) by (intros [=]).
      rewrite (cell_at_store_other _ _ _ _ _ _ _ Hb2) by (intros [=]).
      apply (cell_at_store_same _ _ _ _ _ Hb1).
    + rewrite (cell_at_store_other _ _ _ _ _ _ _ Hb4) by (intros [=]).
      apply (cell_at_store_same _ _ _ _ _ Hb3).
    + rewrite (cell_at_store_other _ _ _ _ _ _ _ Hb4) by (intros [=]).
      rewrite (cell_at_store_other _ _ _ _ _ _ _ Hb3) by (intros [=]).
      apply (cell_at_store_same _ _ _ _ _ Hb2).
    + apply (cell_at_store_same _ _ _ _ _ Hb4).
    + intros a c N4 N5 N6 N7.
      rewrite (cell_at_store_other _ _ _ _ _ _ _ Hb4) by assumption.
      rewrite (cell_at_store_other _ _ _ _ _ _ _ Hb3) by assumption.
      rewrite (cell_at_store_other _ _ _ _ _ _ _ Hb2) by assumption.
      apply (cell_at_store_other _ _ _ _ _ _ _ Hb1). assumption.
  - intros [N | N].
    + apply char_eq_false in N. rewrite N.
      destruct (cell_piece c6 =c "."); reflexivity.
    + apply char_eq_false in N. rewrite N. reflexivity.
Qed.

(** ** board.h: [manualy_set_cell] and [get] *)

(** X9.  A cell written with [manualy_set_cell] is the cell [get] reads back,
    and no other cell is touched: on a grid of 8 by 8 cells the write
    succeeds for every row and column between 0 and 7.  A coordinate that
    is missing or outside that range is a fatal error. *)
Theorem manualy_set_cell_then_get (b : Board) (c : Coordinates) (cell : Cell) :
  (forall a k,
     is_grid b -> c = at_ a k -> in_range a = true -> in_range k = true ->
     exists b',
       manualy_set_cell b c cell = Ok b'
       /\ is_grid b'
       /\ get b' c = Ok cell
       /\ forall c', c' <> c -> get b' c' = get b c')
  /\ (match x c, y c with
      | Some a, Some k => in_range a = false \/ in_range k = false
      | _, _ => True
      end ->
      manualy_set_cell b c cell = Err AssertionFailed).
Proof.
  split.
  - intros a k Hg -> Ha Hk.
    destruct (grid_cell_at b a k Hg Ha Hk) as [old Hold].
    destruct (store_cell_defined b a k cell old Hold) as [b' Hb'].
    exists b'. unfold manualy_set_cell. cbn [bind deref x y at_].
    rewrite !bool_decide_eq_true_2 by eauto. cbn [INTERNAL_ASSERT bind].
    pose proof Ha as Ha'. pose proof Hk as Hk'.
    apply in_range_spec in Ha', Hk'. unfold _N_.
    replace (k <=? 8 - 1) with true by (symmetry; apply Z.leb_le; lia).
    replace (0 <=? k) with true by (symmetry; apply Z.leb_le; lia).
    replace (a <=? 8 - 1) with true by (symmetry; apply Z.leb_le; lia).
    replace (0 <=? a) with true by (symmetry; apply Z.leb_le; lia).
    cbn [andb INTERNAL_ASSERT bind].
    split; [exact Hb' |].
    split; [unfold is_grid in *; rewrite (store_cell_shape _ _ _ _ _ Hb');
            exact Hg |].
    split; [unfold get; cbn [bind deref x y at_];
            apply (cell_at_store_same _ _ _ _ _ Hb') |].
    intros [[a'|] [k'|]] Hne; unfold get; cbn [bind deref x y]; try reflexivity.
    apply (cell_at_store_other _ _ _ _ _ _ _ Hb').
    intros [= -> ->]. apply Hne. reflexivity.
  - unfold manualy_set_cell. destruct c as [[a|] [k|]]; cbn [x y]; intros H;
      try reflexivity.
    rewrite !bool_decide_eq_true_2 by eauto. cbn [INTERNAL_ASSERT bind deref].
    unfold in_range in H.
    destruct ((k <=? _N_ - 1) && (0 <=? k)) eqn:Ek; [|reflexivity].
    destruct ((a <=? _N_ - 1) && (0 <=? a)) eqn:Ea; [|reflexivity].
    exfalso. destruct H as [H | H]; apply andb_false_iff in H;
      apply andb_true_iff in Ek, Ea; destruct H as [H | H];
      rewrite H in *; intuition discriminate.
Qed.

(** ** board.h: [is_locked] *)

Lemma ray_to_piece_result (b : Board) (ddx ddy : Z) (fuel : nat) :
  forall rx ry tx ty,
    ray_to_piece fuel b rx ry ddx ddy = Ok (tx, ty) ->
    exists n, 1 <= n /\ tx = rx + n * ddx /\ ty = ry + n * ddy
              /\ forall k, 0 < k < n ->
                   empty_square b (rx + k * ddx) (ry + k * ddy).
Proof.
  induction fuel as [|fuel IH]; intros rx ry tx ty H; [discriminate H |].
  rewrite ray_to_piece_S in H.
  destruct (in_range (rx + ddx) && in_range (ry + ddy)).
  - inv_bind H. destruct (cell_piece a =c ".") eqn:Hp.
    + apply IH in H as (n & Hn & -> & -> & Hfree).
      exists (n + 1). repeat split; try lia.
      intros k Hk. destruct (decide (k = 1)) as [-> | Hk1].
      * rewrite !Z.mul_1_l. exists a. apply char_eq_true in Hp. auto.
      * destruct (Hfree (k - 1)) as (cell & Hc & Hcp); [lia |].
        exists cell. split; [|exact Hcp]. rewrite <- Hc. f_equal; lia.
    + injection H as <- <-. exists 1. repeat split; try lia.
  - injection H as <- <-. exists 1. repeat split; try lia.
Qed.

Lemma ray_to_piece_or_dst_result (b : Board) (d : Coordinates) (ddx ddy : Z)
    (fuel : nat) :
  forall rx ry tx ty,
    ray_to_piece_or_dst fuel b d rx ry ddx ddy = Ok (tx, ty) ->
    exists n, 1 <= n /\ tx = rx + n * ddx /\ ty = ry + n * ddy
              /\ forall k, 0 < k < n ->
                   empty_square b (rx + k * ddx) (ry + k * ddy).
Proof.
  induction fuel as [|fuel IH]; intros rx ry tx ty H; [discriminate H |].
  rewrite ray_to_piece_or_dst_S in H.
  destruct (bool_decide _ && in_range (rx + ddx) && in_range (ry + ddy)).
  - inv_bind H. destruct (cell_piece a =c ".") eqn:Hp.
    + apply IH in H as (n & Hn & -> & -> & Hfree).
      exists (n + 1). repeat split; try lia.
      intros k Hk. destruct (decide (k = 1)) as [-> | Hk1].
      * rewrite !Z.mul_1_l. exists a. apply char_eq_true in Hp. auto.
      * destruct (Hfree (k - 1)) as (cell & Hc & Hcp); [lia |].
        exists cell. split; [|exact Hcp]. rewrite <- Hc. f_equal; lia.
    + injection H as <- <-. exists 1. repeat split; try lia.
  - injection H as <- <-. exists 1. repeat split; try lia.
Qed.

Lemma find_king_Some (b : Board) (sx sy : Z) (w : bool) (ds : list (Z * Z)) :
  forall i idx,
    find_king b sx sy w ds i = Ok (Some idx) ->
    exists j ddx ddy n king,
      ds !! j = Some (ddx, ddy) /\ idx = i + Z.of_nat j /\ 1 <= n
      /\ cell_at b (sx + n * ddx) (sy + n * ddy) = Ok king
      /\ cell_piece king = "K"%char /\ is_white king = w
      /\ forall k, 0 < k < n -> empty_square b (sx + k * ddx) (sy + k * ddy).
Proof.
  induction ds as [|[ddx ddy] ds IH]; intros i idx H; [discriminate H |].
  cbn [find_king] in H. inv_bind H. destruct a as [rx ry].
  assert (Hrest : find_king b sx sy w ds (i + 1) = Ok (Some idx) ->
                  exists j ddx0 ddy0 n king,
                    ((ddx, ddy) :: ds) !! j = Some (ddx0, ddy0)
                    /\ idx = i + Z.of_nat j /\ 1 <= n
                    /\ cell_at b (sx + n * ddx0) (sy + n * ddy0) = Ok king
                    /\ cell_piece king = "K"%char /\ is_white king = w
                    /\ forall k, 0 < k < n ->
                         empty_square b (sx + k * ddx0) (sy + k * ddy0)).
  { intros Hr. apply IH in Hr as (j & dx0 & dy0 & n & king & Hj & -> & Hr).
    exists (S j), dx0, dy0, n, king. split; [exact Hj |].
    split; [lia | exact Hr]. }
  destruct (in_range rx && in_range ry); [|auto].
  inv_bind H. destruct ((cell_piece a =c "K") && eqb (is_white a) w) eqn:Hk;
    [|auto].
  injection H as <-.
  apply andb_true_iff in Hk as [Hk Hw].
  apply char_eq_true in Hk. apply eqb_prop in Hw.
  apply ray_to_piece_result in Ha as (n & Hn & -> & -> & Hfree).
  exists O, ddx, ddy, n, a. repeat split; try assumption. lia.
Qed.

Lemma is_king_under_attack_true (b : Board) (w : bool) (idx ax ay : Z) :
  is_king_under_attack b w idx ax ay = Ok true ->
  exists att, cell_at b ax ay = Ok att /\ is_white att = negb w
              /\ line_piece (negb (Z.land idx 1 =? 0)) (cell_piece att) = true.
Proof.
  unfold is_king_under_attack. intros H. inv_bind H.
  exists a. split; [exact Ha |].
  destruct (cell_piece a =c "."); [discriminate H |].
  destruct (eqb (is_white a) w) eqn:Hw; [discriminate H |].
  apply eqb_false_iff in Hw.
  split; [destruct (is_white a), w; simpl; congruence |].
  unfold line_piece.
  destruct (negb (Z.land idx 1 =? 0)); injection H as ->; reflexivity.
Qed.

Lemma opposite_direction (j : nat) (ddx ddy : Z) :
  directions !! j = Some (ddx, ddy) ->
  directions !! Z.to_nat ((Z.of_nat j + _N_ / 2) mod _N_) = Some (- ddx, - ddy)
  /\ negb (Z.land (Z.of_nat j) 1 =? 0) = negb (ddx * ddy =? 0)
  /\ In (ddx, ddy) directions.
Proof.
  do 8 (destruct j as [|j]; [intros [= <- <-]; vm_compute; auto 20 |]).
  intros H. discriminate H.
Qed.

(** X10.  The pin test is sound.  [is_locked] answers true only when the mover's
    king stands on one of the eight lines through the source, with nothing
    between the source and the king, and on the same line on the other side
    of the source stands a piece of the other colour that attacks along
    that line (a queen, a rook on a row or file, a bishop on a diagonal),
    with nothing between the source and that piece except, possibly, the
    destination of the move. *)
Theorem is_locked_sound (b : Board) (sx sy : Z) (d : Coordinates) (cap w : bool) :
  is_locked b (at_ sx sy) d cap w = Ok true ->
  exists ddx ddy n m king att,
    In (ddx, ddy) directions /\ 1 <= n /\ 1 <= m
    /\ cell_at b (sx + n * ddx) (sy + n * ddy) = Ok king
    /\ cell_piece king = "K"%char /\ is_white king = w
    /\ (forall k, 0 < k < n -> empty_square b (sx + k * ddx) (sy + k * ddy))
    /\ cell_at b (sx - m * ddx) (sy - m * ddy) = Ok att
    /\ is_white att = negb w
    /\ line_piece (negb (ddx * ddy =? 0)) (cell_piece att) = true
    /\ (forall k, 0 < k < m ->
          empty_square b (sx - k * ddx) (sy - k * ddy)
          \/ d = at_ (sx - k * ddx) (sy - k * ddy)).
Proof.
  unfold is_locked. cbn [bind deref x y at_]. intros H.
  inv_bind H. destruct a as [idx|]; [|discriminate H].
  apply find_king_Some in Ha
    as (j & ddx & ddy & n & king & Hj & -> & Hn & Hking & HK & Hw & Hfree).
  rewrite Z.add_0_l in H.
  destruct (opposite_direction j ddx ddy Hj) as (Hopp & Hpar & Hin).
  rewrite Hopp in H. inv_bind H. destruct a as [rx ry].
  apply ray_to_piece_or_dst_result in Ha as (m & Hm & -> & -> & Hclear).
  assert (Hclear' : forall k, 0 < k < m ->
                      empty_square b (sx - k * ddx) (sy - k * ddy)).
  { intros k Hk. destruct (Hclear k Hk) as (cell & Hc & Hp).
    exists cell. split; [|exact Hp]. rewrite <- Hc. f_equal; lia. }
  destruct (in_range _ && in_range _); [|discriminate H].
  inv_bind H. destruct (negb (cell_piece a =c ".")); [|discriminate H].
  destruct (bool_decide _) eqn:Hdst.
  - apply bool_decide_eq_true in Hdst.
    inv_assert H. inv_assert H.
    destruct (in_range _ && in_range _); [|discriminate H].
    apply is_king_under_attack_true in H as (att & Hatt & Hcol & Hline).
    rewrite Hpar in Hline.
    exists ddx, ddy, n, (m + 1), king, att.
    repeat split; try assumption; try lia.
    + rewrite <- Hatt. f_equal; lia.
    + intros k Hk. destruct (decide (k = m)) as [-> | Hkm].
      * right. rewrite <- Hdst. f_equal; lia.
      * left. apply Hclear'. lia.
  - apply is_king_under_attack_true in H as (att & Hatt & Hcol & Hline).
    rewrite Hpar in Hline.
    exists ddx, ddy, n, m, king, att.
    repeat split; try assumption.
    + rewrite <- Hatt. f_equal; lia.
    + intros k Hk. left. apply Hclear'. exact Hk.
Qed.

(** ** board.h: the candidate squares of [apply] *)

Lemma scan_cells_spec (b : Board) (test : Cell -> bool) (cells : list (Z * Z)) :
  forall l,
    scan_cells b test cells = Ok l ->
    forall a c,
      In (at_ a c) l
      <-> In (a, c) cells
          /\ exists cell, cell_at b a c = Ok cell /\ test cell = true.
Proof.
  induction cells as [|[cx cy] cells IH]; intros l H a c; simpl in H.
  - injection H as <-. simpl. tauto.
  - inv_bind H. inv_bind H. injection H as <-.
    specialize (IH _ Ha0 a c). simpl.
    destruct (test a0) eqn:Ht; simpl; rewrite ?IH; split.
    + intros [[= <- <-] | (Hin & Hc)]; [eauto | auto].
    + intros ([[= <- <-] | Hin] & Hc); [left; reflexivity | auto].
    + intros (Hin & Hc). auto.
    + intros ([[= <- <-] | Hin] & cell & Hc & Hcell); [|eauto].
      rewrite Ha in Hc. injection Hc as <-. congruence.
Qed.

Lemma In_indices (a : Z) : In a indices <-> in_range a = true.
Proof. rewrite <- list_elem_of_In. symmetry. apply in_range_indices. Qed.

Lemma In_whole_board (a c : Z) :
  In (a, c) whole_board <-> in_range a = true /\ in_range c = true.
Proof.
  unfold whole_board. rewrite in_flat_map. split.
  - intros (cx & Hx & Hin). apply in_map_iff in Hin as (cy & [= <- <-] & Hy).
    rewrite <- !In_indices. auto.
  - intros [Ha Hc]. exists a. rewrite In_indices. split; [exact Ha |].
    apply in_map_iff. exists c. rewrite In_indices. auto.
Qed.

Lemma In_whole_row (cx a c : Z) :
  In (a, c) (whole_row cx) <-> a = cx /\ in_range c = true.
Proof.
  unfold whole_row. rewrite in_map_iff. split.
  - intros (cy & [= <- <-] & Hy). rewrite <- In_indices. auto.
  - intros [-> Hc]. exists c. rewrite In_indices. auto.
Qed.

Lemma In_whole_file (cy a c : Z) :
  In (a, c) (whole_file cy) <-> in_range a = true /\ c = cy.
Proof.
  unfold whole_file. rewrite in_map_iff. split.
  - intros (cx & [= <- <-] & Hx). rewrite <- In_indices. auto.
  - intros [Ha ->]. exists a. rewrite In_indices. auto.
Qed.

(** X11.  The candidate sets of [apply], on a grid of 8 by 8 cells.  When the
    move text leaves the row or the column of the source open, the source
    candidates are exactly the squares that agree with what the text gives
    and hold the piece of the move in the mover's colour.  When the text
    gives the file of the destination and not its rank, the destination
    candidates are the squares of that file that are empty, or all of them
    for a capture.  A square given in full is the one candidate, whatever
    stands on it. *)
Theorem candidate_squares (b : Board) (val : NextMove) :
  is_grid b ->
  (forall srcs,
     src_candidates b val = Ok srcs ->
     x (src val) = None \/ y (src val) = None ->
     forall a c,
       In (at_ a c) srcs
       <-> agrees (x (src val)) a /\ agrees (y (src val)) c
           /\ exists cell, cell_at b a c = Ok cell
                           /\ cell_piece cell = piece val
                           /\ is_white cell = is_white_move val)
  /\ (forall dsts dy,
        dst_candidates b val = Ok dsts ->
        x (dst val) = None -> y (dst val) = Some dy ->
        forall a c,
          In (at_ a c) dsts
          <-> c = dy
              /\ exists cell, cell_at b a c = Ok cell
                              /\ (cell_piece cell = "."%char
                                  \/ capture val = true))
  /\ (forall sx sy, src val = at_ sx sy -> src_candidates b val = Ok [at_ sx sy])
  /\ (forall dx dy, dst val = at_ dx dy -> dst_candidates b val = Ok [at_ dx dy]).
Proof.
  intros Hg.
  assert (Hin : forall a c (P : Cell -> Prop),
            (exists cell, cell_at b a c = Ok cell /\ P cell) ->
            in_range a = true /\ in_range c = true).
  { intros a c P (cell & Hc & _). eapply cell_at_in_grid; eauto. }
  split; [|split; [|split]].
  - intros srcs H Hopen a c. unfold src_candidates in H.
    assert (Htest : forall cell,
              (cell_piece cell =c piece val)
              && eqb (is_white cell) (is_white_move val) = true
              <-> cell_piece cell = piece val
                  /\ is_white cell = is_white_move val).
    { intros cell. rewrite andb_true_iff, char_eq_true, eqb_true_iff.
      reflexivity. }
    destruct (x (src val)) as [gx|], (y (src val)) as [gy|]; cbn [agrees].
    + destruct Hopen; discriminate.
    + rewrite (scan_cells_spec _ _ _ _ H), In_whole_row.
      setoid_rewrite Htest. split; [tauto |].
      intros (-> & _ & Hc). destruct (Hin _ _ _ Hc). auto.
    + rewrite (scan_cells_spec _ _ _ _ H), In_whole_file.
      setoid_rewrite Htest. split; [tauto |].
      intros (_ & -> & Hc). destruct (Hin _ _ _ Hc). auto.
    + rewrite (scan_cells_spec _ _ _ _ H), In_whole_board.
      setoid_rewrite Htest. split; [tauto |].
      intros (_ & _ & Hc). destruct (Hin _ _ _ Hc). auto.
  - intros dsts dy H Hx Hy a c. unfold dst_candidates in H.
    rewrite Hx, Hy in H.
    rewrite (scan_cells_spec _ _ _ _ H), In_whole_file.
    assert (Htest : forall cell,
              (cell_piece cell =c ".") || capture val = true
              <-> cell_piece cell = "."%char \/ capture val = true).
    { intros cell. rewrite orb_true_iff, char_eq_true. reflexivity. }
    setoid_rewrite Htest. split; [tauto |].
    intros (-> & Hc). destruct (Hin _ _ _ Hc). auto.
  - intros sx sy E. unfold src_candidates. rewrite E. reflexivity.
  - intros dx dy E. unfold dst_candidates. rewrite E. reflexivity.
Qed.

(** ** scanner.h: the tokens handed out *)

Lemma scan_char_rep (rep : bool) (t : Token) (c : ascii) :
  scan_char rep true t c = scan_char false true t c.
Proof.
  destruct rep; [|reflexivity].
  destruct c as [[] [] [] [] [] [] [] []]; reflexivity.
Qed.

Lemma scan_token_pending (s : TokenScanner) :
  scan_token s = read_loop true monostate (pending_input s) (c_ s).
Proof.
  unfold scan_token, pending_input. destruct (repeat_ s); [|reflexivity].
  cbn [read_loop]. rewrite scan_char_rep. reflexivity.
Qed.

Lemma read_loop_c (e : bool) (t : Token) (file : list ascii) (c c' : ascii) :
  file <> [] -> read_loop e t file c = read_loop e t file c'.
Proof. destruct file; [congruence | reflexivity]. Qed.

Lemma read_loop_separators (t : Token) (ws rest : list ascii) (x c : ascii) :
  Forall (fun w => is_token_separator w = true) ws ->
  read_loop true t (ws ++ x :: rest) c = read_loop true t (x :: rest) c.
Proof.
  intros Hws. revert c. induction Hws as [|w ws Hw _ IH]; intros c;
    [reflexivity |].
  cbn [app read_loop]. unfold scan_char at 1. rewrite Hw. cbn [andb bind].
  rewrite IH. reflexivity.
Qed.

Lemma forallb_push_back (p : ascii -> bool) (v : list ascii) (c : ascii) :
  forallb p (push_back v c) = forallb p v && p c.
Proof.
  unfold push_back. rewrite forallb_app. simpl. rewrite andb_true_r.
  reflexivity.
Qed.

Lemma forallb_pop_back (p : ascii -> bool) (v : list ascii) :
  forallb p v = true -> forallb p (pop_back v) = true.
Proof.
  unfold pop_back. induction v as [|a [|a' v] IH]; simpl; intros H;
    [reflexivity | reflexivity |].
  simpl in IH. apply andb_true_iff in H as [-> H]. apply IH, H.
Qed.

Lemma isprint_dquote : isprint dquote = true.
Proof. reflexivity. Qed.

Lemma isprint_backslash : isprint backslash = true.
Proof. reflexivity. Qed.

(** One turn of the loop keeps what holds of the token under construction,
    and a token it closes is well formed. *)
Lemma scan_char_opening (rep : bool) (t : Token) (c : ascii) :
  match scan_char rep true t c with
  | Ok (Continue e' t') => (e' = true /\ t' = t) \/ (e' = false /\ open_ok t' = true)
  | Ok (Terminated t' _) => token_ok t' = true
  | Err _ => True
  end.
Proof.
  destruct c as [[] [] [] [] [] [] [] []]; vm_compute; auto.
Qed.

Lemma scan_char_inside (rep : bool) (t : Token) (c : ascii) :
  open_ok t = true ->
  match scan_char rep false t c with
  | Ok (Continue e' t') => e' = false /\ open_ok t' = true
  | Ok (Terminated t' _) => token_ok t' = true
  | Err _ => True
  end.
Proof.
  intros Hok. unfold scan_char. cbn [andb bind].
  destruct t; try discriminate Hok; cbn [accept bind fst snd].
  - (* StringToken *)
    cbn [open_ok] in Hok. unfold StringToken_accept.
    destruct (c =c dquote) eqn:Hq.
    + apply char_eq_true in Hq. subst c.
      destruct (empty value_) eqn:He; cbn; [auto |].
      destruct (back_is value_ backslash); cbn.
      * rewrite forallb_push_back, forallb_pop_back by assumption. auto.
      * rewrite He, Hok. reflexivity.
    + destruct (c =c backslash) eqn:Hb.
      * apply char_eq_true in Hb. subst c.
        destruct (empty value_ || back_is value_ backslash); cbn;
          rewrite ?forallb_push_back, ?Hok; auto.
      * destruct (isprint c) eqn:Hp; [|exact I].
        destruct (negb (empty value_) && back_is value_ backslash); cbn;
          [exact I |].
        rewrite forallb_push_back, Hok, Hp. auto.
  - (* SymbolToken *)
    cbn [open_ok] in Hok. apply andb_true_iff in Hok as [Hok Hn].
    apply andb_true_iff in Hok as [He Hsym]. apply eqb_prop in Hn.
    unfold SymbolToken_accept. destruct (is_symbol_char c) eqn:Hc; cbn.
    + split; [reflexivity |]. rewrite empty_push_back, !forallb_push_back.
      rewrite Hsym, Hc, <- Hn. cbn.
      destruct number_only_, (isdigit c); reflexivity.
    + destruct number_only_; cbn.
      * rewrite He, <- Hn. reflexivity.
      * rewrite He, Hsym, <- Hn. reflexivity.
  - (* BraceComment *)
    unfold BraceComment_accept. destruct (c =c "}"); cbn; auto.
  - unfold LineComment_accept. destruct (c =c newline); cbn; auto.
  - unfold EscapeToken_accept. destruct (c =c newline); cbn; auto.
  - (* NumericGlyphToken *)
    cbn [open_ok] in Hok. apply negb_true_iff in Hok. subst first.
    unfold NumericGlyphToken_accept.
    destruct (isdigit c || false && (c =c "$")); cbn; auto.
Qed.

Lemma read_loop_token_ok (file : list ascii) :
  forall e t c token s',
    e = true \/ open_ok t = true ->
    read_loop e t file c = Ok (Some token, s') ->
    token_ok token = true.
Proof.
  induction file as [|c' file IH]; intros e t c token s' Hinv H;
    [discriminate H |].
  cbn [read_loop] in H. inv_bind H.
  destruct e.
  - pose proof (scan_char_opening false t c') as Hstep. rewrite Ha in Hstep.
    destruct a as [e' t'|t' rep].
    + eapply IH; [|exact H]. destruct Hstep as [[-> _] | [_ Hok]]; auto.
    + injection H as <- _. exact Hstep.
  - destruct Hinv as [Hinv | Hinv]; [discriminate Hinv |].
    pose proof (scan_char_inside false t c' Hinv) as Hstep.
    rewrite Ha in Hstep.
    destruct a as [e' t'|t' rep].
    + eapply IH; [|exact H]. destruct Hstep as [_ Hok]. auto.
    + injection H as <- _. exact Hstep.
Qed.

(** X12.  Every token the scanner hands out is well formed: it is never the
    empty alternative [std::monostate], so that the assertion of
    [consume_token] on it cannot fail; a SYMBOL is a non-empty run of symbol
    characters with a character that is not a digit, and its [number_only_]
    flag is false; an INTEGER is a non-empty run of digits; a STRING has a
    value that is not empty and holds printable characters only. *)
Theorem scanner_yields_well_formed_tokens (s s' : TokenScanner) (token : Token) :
  scan_token s = Ok (Some token, s') ->
  token_ok token = true /\ event_of token <> None.
Proof.
  rewrite scan_token_pending. intros H.
  apply read_loop_token_ok in H; [|left; reflexivity].
  split; [exact H |]. destruct token; [discriminate H | discriminate ..].
Qed.

(** ** tokens.h: symbols, comments and strings *)

Lemma read_loop_symbol (sym : list ascii) :
  forall (v : list ascii) (n : bool) (t0 : ascii) (rest : list ascii) (c : ascii),
    Forall (fun a => is_symbol_char a = true) sym ->
    is_symbol_char t0 = false ->
    read_loop false (SymbolToken v n) (sym ++ t0 :: rest) c
    = Ok (Some (if n && forallb isdigit sym
                then IntegerToken (v ++ sym) else SymbolToken (v ++ sym) false),
          mkTokenScanner rest t0 true).
Proof.
  induction sym as [|a sym IH]; intros v n t0 rest c Hsym Ht0.
  - cbn [app read_loop]. unfold scan_char. cbn [andb bind accept].
    unfold SymbolToken_accept. rewrite Ht0. cbn. rewrite app_nil_r.
    destruct n; reflexivity.
  - inversion Hsym as [|? ? Ha Hsym']; subst.
    cbn [app read_loop]. unfold scan_char. cbn [andb bind accept].
    unfold SymbolToken_accept. rewrite Ha. cbn [bind fst snd].
    rewrite IH by assumption. unfold push_back. rewrite <- app_assoc.
    cbn [app forallb].
    destruct n, (isdigit a); reflexivity.
Qed.

(** X13.  A SYMBOL or INTEGER runs up to the first character that is not a
    symbol character.  That character is not consumed: it is fed again to
    the next token.  A run of digits only is handed out as an INTEGER,
    every other run as a SYMBOL. *)
Theorem symbol_ends_before_the_first_other_character (s : TokenScanner)
    (ws : list ascii) (ch : ascii) (sym : list ascii) (t0 : ascii)
    (rest : list ascii) :
  pending_input s = ws ++ ch :: sym ++ t0 :: rest ->
  Forall (fun w => is_token_separator w = true) ws ->
  isdigit ch || isalpha ch = true ->
  Forall (fun a => is_symbol_char a = true) sym ->
  is_symbol_char t0 = false ->
  scan_token s
  = Ok (Some (word_token (ch :: sym)), mkTokenScanner rest t0 true)
  /\ pending_input (mkTokenScanner rest t0 true) = t0 :: rest.
Proof.
  intros Hp Hws Hch Hsym Ht0. split; [|reflexivity].
  rewrite scan_token_pending, Hp, read_loop_separators by assumption.
  cbn [read_loop].
  destruct (scan_char_opens_symbol false ch Hch) as [n Hn]. rewrite Hn.
  cbn [bind].
  assert (n = isdigit ch) as ->.
  { destruct (alnum_opens_symbol ch Hch) as (Hopen & Hsep & Hsy).
    unfold scan_char in Hn. rewrite Hsep, Hopen in Hn. cbn in Hn.
    unfold SymbolToken_accept in Hn. rewrite Hsy in Hn. cbn in Hn.
    injection Hn as <-. destruct (isdigit ch); reflexivity. }
  rewrite read_loop_symbol by assumption. reflexivity.
Qed.

Lemma read_loop_brace_comment (body rest : list ascii) (c : ascii) :
  Forall (fun a => a <> "}"%char) body ->
  read_loop false BraceComment (body ++ "}"%char :: rest) c
  = Ok (Some BraceComment, mkTokenScanner rest "}" false).
Proof.
  intros Hbody. revert c. induction Hbody as [|a body Ha _ IH]; intros c.
  - reflexivity.
  - cbn [app read_loop]. unfold scan_char. cbn [andb bind accept].
    unfold BraceComment_accept. apply char_eq_false in Ha. rewrite Ha.
    cbn [bind fst snd]. apply IH.
Qed.

Lemma read_loop_line_comment (t : Token) (body rest : list ascii) (c : ascii) :
  t = LineComment \/ t = EscapeToken ->
  Forall (fun a => a <> newline) body ->
  read_loop false t (body ++ newline :: rest) c
  = Ok (Some t, mkTokenScanner rest newline false).
Proof.
  intros Ht Hbody. revert c. induction Hbody as [|a body Ha _ IH]; intros c.
  - destruct Ht as [-> | ->]; reflexivity.
  - cbn [app read_loop]. unfold scan_char. cbn [andb bind].
    apply char_eq_false in Ha.
    destruct Ht as [-> | ->]; cbn [accept bind];
      unfold LineComment_accept, EscapeToken_accept; rewrite Ha;
      cbn [bind fst snd]; apply IH.
Qed.

(** X14.  Commentary is skipped up to its end, whatever it holds.  A brace
    comment runs from the opening brace to the first closing brace (so
    braces do not nest); a rest-of-line comment, from a semicolon, and an
    escape line, from a percent sign wherever it stands, run to the first
    newline.  Each is handed out as one token, and the character after the
    closing brace or the newline is the next to be read. *)
Theorem comments_run_to_their_end (s : TokenScanner)
    (ws body rest : list ascii) :
  Forall (fun w => is_token_separator w = true) ws ->
  (Forall (fun a => a <> "}"%char) body ->
   pending_input s = ws ++ "{"%char :: body ++ "}"%char :: rest ->
   scan_token s = Ok (Some BraceComment, mkTokenScanner rest "}" false))
  /\ (Forall (fun a => a <> newline) body ->
      pending_input s = ws ++ ";"%char :: body ++ newline :: rest ->
      scan_token s = Ok (Some LineComment, mkTokenScanner rest newline false))
  /\ (Forall (fun a => a <> newline) body ->
      pending_input s = ws ++ "%"%char :: body ++ newline :: rest ->
      scan_token s = Ok (Some EscapeToken, mkTokenScanner rest newline false)).
Proof.
  intros Hws. repeat split; intros Hbody Hp;
    rewrite scan_token_pending, Hp, read_loop_separators by assumption;
    cbn [read_loop]; unfold scan_char at 1; cbn.
  - apply read_loop_brace_comment, Hbody.
  - apply read_loop_line_comment; auto.
  - apply read_loop_line_comment; auto.
Qed.

Lemma plain_spec (c : ascii) :
  plain c = true ->
  isprint c = true /\ (c =c dquote) = false /\ (c =c backslash) = false.
Proof.
  unfold plain. intros H. apply andb_true_iff in H as [H Hb].
  apply andb_true_iff in H as [Hp Hq].
  apply negb_true_iff in Hq, Hb. auto.
Qed.

Lemma back_is_plain (v : list ascii) :
  Forall (fun a => plain a = true) v -> back_is v backslash = false.
Proof.
  intros Hv. unfold back_is, back.
  destruct (last v) as [l|] eqn:Hl; [|reflexivity].
  apply last_Some in Hl as [v' ->]. apply Forall_app in Hv as [_ Hv].
  inversion Hv as [|? ? Hp _]; subst.
  apply plain_spec in Hp as (_ & _ & Hb). exact Hb.
Qed.

Lemma read_loop_string (body : list ascii) :
  forall (v rest : list ascii) (c : ascii),
    Forall (fun a => plain a = true) v ->
    Forall (fun a => plain a = true) body ->
    v ++ body <> [] ->
    read_loop false (StringToken v) (body ++ dquote :: rest) c
    = Ok (Some (StringToken (v ++ body)), mkTokenScanner rest dquote false).
Proof.
  induction body as [|a body IH]; intros v rest c Hv Hbody Hne.
  - rewrite app_nil_r in *. cbn [app read_loop]. unfold scan_char.
    cbn [andb bind accept]. unfold StringToken_accept.
    rewrite char_eq_refl, (back_is_plain v Hv).
    destruct v; [congruence | reflexivity].
  - inversion Hbody as [|? ? Ha Hbody']; subst.
    cbn [app read_loop]. unfold scan_char. cbn [andb bind accept].
    unfold StringToken_accept.
    destruct (plain_spec a Ha) as (Hp & Hq & Hb).
    rewrite Hq, Hb, Hp, (back_is_plain v Hv), andb_false_r.
    cbn [bind fst snd]. unfold push_back.
    rewrite IH; [rewrite <- app_assoc; reflexivity | | assumption |].
    + apply Forall_app. split; [assumption | repeat constructor; assumption].
    + destruct v; discriminate.
Qed.

Lemma read_loop_quotes (n : nat) (file : list ascii) (c : ascii) :
  read_loop false (StringToken []) (replicate n dquote ++ file) c
  = read_loop false (StringToken []) file
      (match n with O => c | S _ => dquote end).
Proof.
  revert c. induction n as [|n IH]; intros c; [reflexivity |].
  cbn [replicate app read_loop]. unfold scan_char at 1. cbn.
  rewrite IH. destruct n; reflexivity.
Qed.

(** X15.  A STRING of plain characters is scanned back as its value: the text
    made of a quote, a non-empty run of printable characters other than the
    quote and the backslash, and a quote, is handed out as a STRING with that
    run as its value.  A quote met while the value is still empty is taken
    for another opening quote: any number of quotes may open the string, and
    the empty string cannot be written. *)
Theorem plain_string_is_scanned_back (s : TokenScanner) (n : nat)
    (ws v rest : list ascii) :
  pending_input s = ws ++ replicate (S n) dquote ++ v ++ dquote :: rest ->
  Forall (fun w => is_token_separator w = true) ws ->
  Forall (fun a => plain a = true) v ->
  v <> [] ->
  scan_token s = Ok (Some (StringToken v), mkTokenScanner rest dquote false).
Proof.
  intros Hp Hws Hv Hne.
  rewrite scan_token_pending, Hp. cbn [replicate app].
  rewrite read_loop_separators by assumption.
  cbn [read_loop]. unfold scan_char at 1. cbn.
  rewrite read_loop_quotes.
  rewrite read_loop_string; [reflexivity | constructor | assumption | assumption].
Qed.

(** ** scanner.h: the token sequence of a text *)

Lemma tokens_of_stable (fuel : nat) :
  forall fuel' s,
    (scan_measure s < fuel)%nat -> (scan_measure s < fuel')%nat ->
    tokens_of fuel' s = tokens_of fuel s.
Proof.
  induction fuel as [|fuel IH]; intros fuel' s Hf Hf'; [lia |].
  destruct fuel' as [|fuel']; [lia |].
  cbn [tokens_of].
  destruct (scan_token s) as [[[token|] s1]|e] eqn:Hscan; cbn [bind fst snd];
    try reflexivity.
  apply scan_token_measure in Hscan.
  rewrite (IH fuel' s1) by lia. reflexivity.
Qed.

Lemma tokens_of_pending (fuel : nat) (s1 s2 : TokenScanner) :
  pending_input s1 = pending_input s2 ->
  tokens_of fuel s1 = tokens_of fuel s2.
Proof.
  intros Hp. destruct fuel as [|fuel]; [reflexivity |].
  cbn [tokens_of]. rewrite !scan_token_pending, <- Hp.
  destruct (pending_input s1) as [|a file] eqn:Hfile; [reflexivity |].
  rewrite (read_loop_c true monostate (a :: file) (c_ s2) (c_ s1))
    by discriminate.
  reflexivity.
Qed.

Lemma scan_token_shortens (s s' : TokenScanner) (token : Token) :
  scan_token s = Ok (Some token, s') ->
  (length (pending_input s') <= length (pending_input s))%nat.
Proof.
  intros H. pose proof (scan_token_measure _ _ _ H) as Hm.
  unfold scan_measure, pending_input in *.
  destruct (repeat_ s), (repeat_ s'); cbn [length]; lia.
Qed.

Lemma tokens_of_text_pending (fuel : nat) (s : TokenScanner) :
  (2 * length (pending_input s) < fuel)%nat ->
  tokens_of fuel s = tokens_of_text (pending_input s).
Proof.
  intros Hf. unfold tokens_of_text.
  rewrite (tokens_of_pending fuel s (new_TokenScanner (pending_input s)))
    by reflexivity.
  apply tokens_of_stable; unfold scan_measure, scan_fuel; cbn; lia.
Qed.

(** The tokens of a text, chunk by chunk: the first token, then the tokens
    of what the scanner has left to read. *)
Lemma tokens_of_text_step (text : list ascii) :
  tokens_of_text text
  = (r <- scan_token (new_TokenScanner text) ;;
     match r.1 with
     | None => Ok []
     | Some token =>
         rest <- tokens_of_text (pending_input r.2) ;;
         Ok (token :: rest)
     end).
Proof.
  unfold tokens_of_text at 1, scan_fuel.
  replace (2 * length text + 2)%nat with (S (2 * length text + 1)) by lia.
  cbn [tokens_of].
  destruct (scan_token (new_TokenScanner text)) as [[[token|] s1]|e] eqn:Hscan;
    cbn [bind fst snd]; try reflexivity.
  apply scan_token_shortens in Hscan. cbn in Hscan.
  rewrite tokens_of_text_pending by lia. reflexivity.
Qed.

Lemma read_loop_only_separators (t : Token) (ws : list ascii) (c : ascii) :
  Forall (fun w => is_token_separator w = true) ws ->
  exists s', read_loop true t ws c = Ok (None, s').
Proof.
  intros Hws. revert c. induction Hws as [|w ws Hw _ IH]; intros c.
  - eexists. reflexivity.
  - cbn [read_loop]. unfold scan_char at 1. rewrite Hw. cbn [andb bind].
    apply IH.
Qed.

(** X16.  The token sequence of a text is put together token by token, and
    separators only separate.  Blanks, tabs and newlines in front of a text
    do not change its tokens.  When the scanner hands out a token, the
    tokens of the text are that token followed by the tokens of the
    characters the scanner has not used up; when it reaches the end of the
    text without a token, the sequence ends; its lexical error is the error
    of the whole text. *)
Theorem text_is_scanned_token_by_token (text : list ascii) :
  (forall ws, Forall (fun w => is_token_separator w = true) ws ->
              tokens_of_text (ws ++ text) = tokens_of_text text)
  /\ (forall token s',
        scan_token (new_TokenScanner text) = Ok (Some token, s') ->
        tokens_of_text text
        = (rest <- tokens_of_text (pending_input s') ;; Ok (token :: rest)))
  /\ (forall s', scan_token (new_TokenScanner text) = Ok (None, s') ->
                 tokens_of_text text = Ok [])
  /\ (forall e, scan_token (new_TokenScanner text) = Err e ->
                tokens_of_text text = Err e).
Proof.
  split; [|repeat split].
  - intros ws Hws. rewrite (tokens_of_text_step (ws ++ text)),
      (tokens_of_text_step text), !scan_token_pending.
    cbn [pending_input new_TokenScanner repeat_ file_ c_].
    destruct text as [|a text].
    + rewrite app_nil_r.
      destruct (read_loop_only_separators monostate ws zero Hws) as [s' ->].
      reflexivity.
    + rewrite read_loop_separators by assumption. reflexivity.
  - intros token s' H. rewrite tokens_of_text_step, H. reflexivity.
  - intros s' H. rewrite tokens_of_text_step, H. reflexivity.
  - intros e H. rewrite tokens_of_text_step, H. reflexivity.
Qed.

(** ** scanner.h: the end of the stream *)

Lemma read_loop_fed (body : list ascii) :
  forall (t t' : Token) (c : ascii),
    fed t body = Some t' ->
    exists c', read_loop false t body c = Ok (None, mkTokenScanner [] c' false).
Proof.
  induction body as [|a body IH]; intros t t' c H.
  - eexists. reflexivity.
  - cbn [fed] in H. cbn [read_loop].
    destruct (scan_char false false t a) as [[[] t1 | ]|]; try discriminate H.
    cbn [bind]. eapply IH, H.
Qed.

Lemma fed_symbol (sym : list ascii) :
  forall (v : list ascii) (n : bool),
    Forall (fun a => is_symbol_char a = true) sym ->
    is_Some (fed (SymbolToken v n) sym).
Proof.
  induction sym as [|a sym IH]; intros v n Hsym; [eexists; reflexivity |].
  inversion Hsym as [|? ? Ha Hsym']; subst.
  cbn [fed]. unfold scan_char. cbn [andb bind accept].
  unfold SymbolToken_accept. rewrite Ha. cbn [bind fst snd].
  apply IH, Hsym'.
Qed.

Lemma fed_string (body : list ascii) :
  forall v : list ascii,
    Forall (fun a => plain a = true) v ->
    Forall (fun a => plain a = true) body ->
    is_Some (fed (StringToken v) body).
Proof.
  induction body as [|a body IH]; intros v Hv Hbody; [eexists; reflexivity |].
  inversion Hbody as [|? ? Ha Hbody']; subst.
  cbn [fed]. unfold scan_char. cbn [andb bind accept].
  unfold StringToken_accept.
  destruct (plain_spec a Ha) as (Hp & Hq & Hb).
  rewrite Hq, Hb, Hp, (back_is_plain v Hv), andb_false_r.
  cbn [bind fst snd]. apply IH; [|assumption].
  unfold push_back. apply Forall_app. split; [assumption |].
  repeat constructor; assumption.
Qed.

Lemma fed_quotes (n : nat) (body : list ascii) :
  fed (StringToken []) (replicate n dquote ++ body)
  = fed (StringToken []) body.
Proof.
  induction n as [|n IH]; [reflexivity |].
  cbn [replicate app fed]. unfold scan_char at 1. cbn. exact IH.
Qed.

Lemma fed_comment (t : Token) (stop : ascii) (body : list ascii) :
  (t = BraceComment /\ stop = "}"%char)
  \/ ((t = LineComment \/ t = EscapeToken) /\ stop = newline) ->
  Forall (fun a => a <> stop) body ->
  is_Some (fed t body).
Proof.
  intros Ht Hbody. induction Hbody as [|a body Ha _ IH]; [eexists; reflexivity |].
  apply char_eq_false in Ha.
  cbn [fed]. unfold scan_char. cbn [andb bind].
  destruct Ht as [[-> ->] | [[-> | ->] ->]]; cbn [accept bind];
    unfold BraceComment_accept, LineComment_accept, EscapeToken_accept;
    rewrite Ha; cbn [bind fst snd]; apply IH; auto.
Qed.

Lemma fed_glyph (digits : list ascii) :
  Forall (fun a => isdigit a = true) digits ->
  is_Some (fed (NumericGlyphToken false) digits).
Proof.
  intros Hd. induction Hd as [|a digits Ha _ IH]; [eexists; reflexivity |].
  cbn [fed]. unfold scan_char. cbn [andb bind accept].
  unfold NumericGlyphToken_accept. rewrite Ha. cbn [orb bind fst snd].
  exact IH.
Qed.

(** Every atom written without its end is an open atom. *)
Lemma unterminated_open_atom (tail : list ascii) :
  unterminated tail -> open_atom tail = true.
Proof.
  intros [ch sym Hch Hsym | n v Hv | body Hb | body Hb | body Hb | digits Hd].
  - unfold open_atom.
    destruct (scan_char_opens_symbol false ch Hch) as [n ->].
    apply bool_decide_eq_true_2, fed_symbol, Hsym.
  - cbn [replicate app open_atom].
    change (scan_char false true monostate dquote)
      with (Ok (Continue false (StringToken []))).
    apply bool_decide_eq_true_2. rewrite fed_quotes.
    apply fed_string; [constructor | assumption].
  - apply bool_decide_eq_true_2.
    apply (fed_comment BraceComment "}"); auto.
  - apply bool_decide_eq_true_2.
    apply (fed_comment LineComment newline); auto.
  - apply bool_decide_eq_true_2.
    apply (fed_comment EscapeToken newline); auto.
  - apply bool_decide_eq_true_2, fed_glyph, Hd.
Qed.

Lemma read_loop_open_atom (ws tail : list ascii) (c : ascii) :
  Forall (fun w => is_token_separator w = true) ws ->
  open_atom tail = true ->
  exists c', read_loop true monostate (ws ++ tail) c
             = Ok (None, mkTokenScanner [] c' false).
Proof.
  intros Hws Hopen.
  destruct tail as [|a body]; [discriminate Hopen |].
  rewrite (read_loop_separators monostate ws body a c Hws).
  cbn [open_atom] in Hopen. cbn [read_loop].
  destruct (scan_char false true monostate a) as [[[] t | ]|];
    try discriminate Hopen.
  cbn [bind]. apply bool_decide_eq_true_1 in Hopen as [t' Ht'].
  eapply read_loop_fed, Ht'.
Qed.

(** A token that is handed out is handed out whatever follows in the
    stream. *)
Lemma read_loop_app (file rest : list ascii) :
  forall (e : bool) (t : Token) (c : ascii) (token : Token) (s' : TokenScanner),
    read_loop e t file c = Ok (Some token, s') ->
    read_loop e t (file ++ rest) c
    = Ok (Some token, mkTokenScanner (file_ s' ++ rest) (c_ s') (repeat_ s')).
Proof.
  induction file as [|a file IH]; intros e t c token s' H; [discriminate H |].
  cbn [app read_loop] in *.
  destruct (scan_char false e t a) as [[e1 t1 | t1 rep]|]; cbn [bind] in *;
    [| |discriminate H].
  - apply IH, H.
  - injection H as <- <-. reflexivity.
Qed.

Lemma scan_token_app (text rest : list ascii) (token : Token)
    (s' : TokenScanner) :
  scan_token (new_TokenScanner text) = Ok (Some token, s') ->
  exists s'',
    scan_token (new_TokenScanner (text ++ rest)) = Ok (Some token, s'')
    /\ pending_input s'' = pending_input s' ++ rest.
Proof.
  rewrite !scan_token_pending.
  cbn [pending_input new_TokenScanner repeat_ file_ c_].
  intros H. rewrite (read_loop_app _ rest _ _ _ _ _ H).
  eexists. split; [reflexivity |].
  unfold pending_input. cbn [repeat_ file_ c_].
  destruct (repeat_ s'); reflexivity.
Qed.

Lemma tokens_of_text_separators (ws text : list ascii) :
  Forall (fun w => is_token_separator w = true) ws ->
  tokens_of_text (ws ++ text) = tokens_of_text text.
Proof.
  intros Hws. rewrite (tokens_of_text_step (ws ++ text)),
    (tokens_of_text_step text), !scan_token_pending.
  cbn [pending_input new_TokenScanner repeat_ file_ c_].
  destruct text as [|a text].
  - rewrite app_nil_r.
    destruct (read_loop_only_separators monostate ws zero Hws) as [s' ->].
    reflexivity.
  - rewrite read_loop_separators by assumption. reflexivity.
Qed.

(** What has been scanned completely is scanned alike in front of any
    other text. *)
Lemma tokens_of_text_scanned (text : list ascii) (tokens : list Token) :
  scanned text tokens ->
  forall rest,
    tokens_of_text (text ++ rest)
    = (r <- tokens_of_text rest ;; Ok (tokens ++ r)).
Proof.
  induction 1 as [ws Hws | text token s' tokens Hscan _ IH]; intros rest.
  - rewrite tokens_of_text_separators by assumption.
    destruct (tokens_of_text rest); reflexivity.
  - destruct (scan_token_app text rest token s' Hscan) as (s'' & Hs'' & Hp).
    rewrite tokens_of_text_step, Hs''. cbn [bind fst snd].
    rewrite Hp, IH.
    destruct (tokens_of_text rest); reflexivity.
Qed.

(** C10.  Let the characters still to be scanned be separators followed by
    an atom that is still open where the input ends, whatever its kind (a
    SYMBOL or INTEGER, a STRING, a brace comment, a rest-of-line comment, an
    escape line or a numeric annotation glyph).  Then [scan_token] returns
    without a token and without an error, with nothing left to scan: the
    iterator becomes the end iterator, and the range-for of [main] ends with
    the board as it stands.  On whole texts: after a text that is scanned
    completely, the open atom adds no token and changes nothing of the
    replay; it is silently dropped. *)
Theorem unterminated_final_atom_is_dropped (ws tail : list ascii) :
  Forall (fun w => is_token_separator w = true) ws ->
  open_atom tail = true \/ unterminated tail ->
  (forall s : TokenScanner,
     pending_input s = ws ++ tail ->
     (exists s', scan_token s = Ok (None, s') /\ pending_input s' = [])
     /\ (forall (order : list Coordinates -> list Coordinates) (fuel : nat)
                (p : PGNParser) (b : Board),
           main_loop order (S fuel) s p b = Ok b))
  /\ (forall (pre : list ascii) (tokens : list Token),
        scanned pre tokens ->
        tokens_of_text (pre ++ ws ++ tail) = Ok tokens
        /\ tokens_of_text pre = Ok tokens
        /\ forall order : list Coordinates -> list Coordinates,
             replay_text order (pre ++ ws ++ tail) = replay_text order pre).
Proof.
  intros Hws Hopen.
  assert (Ho : open_atom tail = true)
    by (destruct Hopen as [H | H]; [exact H | apply unterminated_open_atom, H]).
  assert (Hscan : forall s, pending_input s = ws ++ tail ->
                            exists c', scan_token s
                                       = Ok (None, mkTokenScanner [] c' false)).
  { intros s Hpending.
    destruct (read_loop_open_atom ws tail (c_ s) Hws Ho) as [c' Hloop].
    exists c'. rewrite scan_token_pending, Hpending. exact Hloop. }
  split.
  - intros s Hpending. destruct (Hscan s Hpending) as [c' Hs]. split.
    + eexists. split; [exact Hs | reflexivity].
    + intros order fuel p b. cbn [main_loop]. rewrite Hs. reflexivity.
  - intros pre tokens Hpre.
    assert (Htail : tokens_of_text (ws ++ tail) = Ok []).
    { destruct (Hscan (new_TokenScanner (ws ++ tail)) eq_refl) as [c' Hs].
      rewrite tokens_of_text_step, Hs. reflexivity. }
    assert (Hfull : tokens_of_text (pre ++ ws ++ tail) = Ok tokens).
    { rewrite (tokens_of_text_scanned pre tokens Hpre), Htail.
      cbn [bind]. rewrite app_nil_r. reflexivity. }
    assert (Hcut : tokens_of_text pre = Ok tokens).
    { pose proof (tokens_of_text_scanned pre tokens Hpre []) as H.
      rewrite app_nil_r in H. rewrite H.
      change (tokens_of_text []) with (Ok (@nil Token)).
      cbn [bind]. rewrite app_nil_r. reflexivity. }
    split; [exact Hfull |]. split; [exact Hcut |].
    intros order. unfold replay_text.
    rewrite (main_loop_replay order _ _ _ _ _ Hfull).
    rewrite (main_loop_replay order _ _ _ _ _ Hcut). reflexivity.
Qed.

(** Scanning a given text to its end. *)
Ltac scan_on :=
  repeat (eapply scanned_token; [vm_compute; reflexivity |]);
  apply scanned_separators; repeat constructor.

Lemma unterminated_final_atom_is_dropped_witness :
  (exists s',
     scan_token (mkTokenScanner (dquote :: str "Ruy Lopez") " " true)
     = Ok (None, s')
     /\ pending_input s' = [])
  /\ tokens_of_text (str "1. e4 " ++ [" "%char] ++ dquote :: str "Ruy Lopez")
     = Ok rav_example_pre
  /\ (forall order : list Coordinates -> list Coordinates,
        replay_text order
          (str "1. e4 " ++ [" "%char] ++ dquote :: str "Ruy Lopez")
        = replay_text order (str "1. e4 ")).
Proof.
  destruct (unterminated_final_atom_is_dropped [" "%char]
              (dquote :: str "Ruy Lopez")) as [Hscan Htext].
  - repeat constructor.
  - left. reflexivity.
  - split.
    + apply (Hscan (mkTokenScanner (dquote :: str "Ruy Lopez") " " true)
               eq_refl).
    + destruct (Htext (str "1. e4 ") rav_example_pre) as (Hfull & _ & Hreplay);
        [unfold rav_example_pre; scan_on | split; assumption].
Defined.

(** The same for a final half-move: in a text that ends with it, it never
    reaches the parser. *)
Example final_move_without_separator :
  tokens_of_text (str "1. e4 e5")
  = Ok [IntegerToken (str "1"); PeriodToken; SymbolToken (str "e4") false]
  /\ tokens_of_text (str "1. e4 e5") = tokens_of_text (str "1. e4 ").
Proof. split; reflexivity. Qed.

(** ** parser.h: what the driver reads *)

Section GrammarDriver.

Variable order : list Coordinates -> list Coordinates.

Lemma consume_token_commentary (p : PGNParser) (token : Token) :
  is_commentary token = true -> consume_token p token = Ok (None, p).
Proof.
  unfold is_commentary, consume_token.
  destruct (event_of token) as [event|]; [|discriminate].
  intros ->. reflexivity.
Qed.

(** X17.  Commentary has no effect on the replay: the token sequence with its
    comments, escape lines and numeric annotation glyphs removed is replayed
    to the same board, or to the same error. *)
Theorem commentary_does_not_affect_the_replay (tokens : list Token)
    (p : PGNParser) (b : Board) :
  replay order (List.filter (fun t => negb (is_commentary t)) tokens) p b
  = replay order tokens p b.
Proof.
  revert p b. induction tokens as [|token tokens IH]; intros p b;
    [reflexivity |].
  cbn [List.filter]. destruct (is_commentary token) eqn:Hc; cbn [negb].
  - cbn [replay]. rewrite (consume_token_commentary p token Hc).
    cbn [bind fst snd]. apply IH.
  - cbn [replay]. destruct (consume_token p token) as [[[m|] p1]|e];
      cbn [bind fst snd]; [|apply IH | reflexivity].
    destruct m; try reflexivity;
      match goal with
      | |- context [apply order b ?m] => destruct (apply order b m)
      end; cbn [bind]; first [apply IH | reflexivity].
Qed.

Lemma consume_token_view (p : PGNParser) (t1 t2 : Token) :
  parser_view t1 = parser_view t2 -> consume_token p t1 = consume_token p t2.
Proof.
  destruct p as [s n w].
  destruct t1, t2; intros H; try discriminate H;
    try (injection H as ->); try reflexivity;
    unfold consume_token; cbn -[Z.leb Z.ltb Z.add Z.sub];
    destruct (0 <=? n); try reflexivity;
    destruct s; reflexivity.
Qed.

(** X18.  The driver never reads the value of an INTEGER or of a STRING: move
    numbers and tag values are not checked.  Two token sequences that agree
    on the types of their tokens and on the values of their SYMBOLs are
    replayed alike. *)
Theorem replay_reads_types_and_symbols_only (ts1 ts2 : list Token)
    (p : PGNParser) (b : Board) :
  map parser_view ts1 = map parser_view ts2 ->
  replay order ts1 p b = replay order ts2 p b.
Proof.
  revert ts2 p b. induction ts1 as [|t1 ts1 IH]; intros [|t2 ts2] p b H;
    try discriminate H; [reflexivity |].
  cbn [map] in H.
  assert (Hv : parser_view t1 = parser_view t2) by congruence.
  assert (Ht : map parser_view ts1 = map parser_view ts2) by congruence.
  clear H. rename Ht into H. cbn [replay].
  rewrite (consume_token_view p t1 t2 Hv).
  destruct (consume_token p t2) as [[[m|] p1]|e]; cbn [bind fst snd];
    [|apply IH, H | reflexivity].
  destruct m; try reflexivity;
    match goal with
    | |- context [apply order b ?m] => destruct (apply order b m)
    end; cbn [bind]; first [apply IH, H | reflexivity].
Qed.

Lemma replay_tag_pair (tag : list ascii * list ascii) (rest : list Token)
    (p : PGNParser) (b : Board) :
  state_ p = Init \/ state_ p = ParsingRightBracket ->
  0 <= paranthesis_count_ p ->
  replay order (tag_pair tag ++ rest) p b
  = replay order rest
      (mkPGNParser ParsingRightBracket (paranthesis_count_ p) (white_turn p)) b.
Proof.
  destruct p as [s n w]. cbn [state_ paranthesis_count_ white_turn].
  intros Hs Hn.
  assert (Hle : (0 <=? n) = true) by (apply Z.leb_le; lia).
  assert (H1 : consume_token (mkPGNParser s n w) LeftBraceToken
               = Ok (None, mkPGNParser ParsingLeftBracket n w)).
  { unfold consume_token. cbn [event_of paranthesis_count_ state_ white_turn].
    rewrite Hle. destruct Hs as [-> | ->]; reflexivity. }
  assert (H2 : consume_token (mkPGNParser ParsingLeftBracket n w)
                 (SymbolToken tag.1 false)
               = Ok (None, mkPGNParser ParsingHeaderName n w)).
  { unfold consume_token. cbn [event_of paranthesis_count_ state_ white_turn].
    rewrite Hle. reflexivity. }
  assert (H3 : consume_token (mkPGNParser ParsingHeaderName n w)
                 (StringToken tag.2)
               = Ok (None, mkPGNParser ParsingHeaderValue n w)).
  { unfold consume_token. cbn [event_of paranthesis_count_ state_ white_turn].
    rewrite Hle. reflexivity. }
  assert (H4 : consume_token (mkPGNParser ParsingHeaderValue n w)
                 RightBraceToken
               = Ok (None, mkPGNParser ParsingRightBracket n w)).
  { unfold consume_token. cbn [event_of paranthesis_count_ state_ white_turn].
    rewrite Hle. reflexivity. }
  unfold tag_pair. cbn [app replay].
  rewrite H1. cbn [bind fst snd]. rewrite H2. cbn [bind fst snd].
  rewrite H3. cbn [bind fst snd]. rewrite H4. reflexivity.
Qed.

(** X19.  Tag pairs are skipped.  From the initial state, or after a tag pair,
    and outside negative parenthesis depth, any number of tag pairs is
    replayed without a change of the board, of the side to move or of the
    depth; the driver is then in the state that follows a closing bracket.
    The name and the value of a tag are not looked at. *)
Theorem tag_pairs_are_skipped (tags : list (list ascii * list ascii))
    (rest : list Token) (p : PGNParser) (b : Board) :
  state_ p = Init \/ state_ p = ParsingRightBracket ->
  0 <= paranthesis_count_ p ->
  tags <> [] ->
  replay order (concat (map tag_pair tags) ++ rest) p b
  = replay order rest
      (mkPGNParser ParsingRightBracket (paranthesis_count_ p) (white_turn p)) b.
Proof.
  intros Hs Hn Hne. revert p Hs Hn.
  induction tags as [|tag tags IH]; intros p Hs Hn; [congruence |].
  cbn [map concat]. rewrite <- app_assoc, replay_tag_pair by assumption.
  destruct tags as [|tag' tags]; [reflexivity |].
  rewrite IH; [reflexivity | discriminate | right; reflexivity | exact Hn].
Qed.

(** X20.  [Finished] is a dead end.  Once the driver is in that state, every
    token other than commentary and parentheses ends the session with a
    failed assertion.  The main loop stops at the descriptor [Finish], but a
    ['*'] inside parentheses takes the driver to [Finished] without a
    descriptor: the first token after it that is neither commentary nor a
    parenthesis is then fatal. *)
Theorem finished_is_a_dead_end (p : PGNParser) (token : Token) :
  is_commentary token = false ->
  is_paren token = false ->
  (state_ p = Finished -> consume_token p token = Err AssertionFailed)
  /\ (forall rest b,
        0 < paranthesis_count_ p ->
        state_ p <> ParsingLeftBracket -> state_ p <> Finished ->
        replay order (AsterkixToken :: token :: rest) p b
        = Err AssertionFailed).
Proof.
  intros Hc Hp.
  assert (Hdead : forall n w,
            consume_token (mkPGNParser Finished n w) token
            = Err AssertionFailed).
  { intros n w. unfold consume_token.
    destruct token; try discriminate Hp; try discriminate Hc;
      cbn [event_of paranthesis_count_ state_ white_turn];
      try reflexivity; destruct (0 <=? n); reflexivity. }
  split.
  - destruct p as [s n w]. cbn [state_]. intros ->. apply Hdead.
  - intros rest b Hn Hs Hf. destruct p as [s n w].
    cbn [state_ paranthesis_count_] in *. cbn [replay].
    rewrite star_finishes by (assumption || lia).
    replace (0 <? n) with true by (symmetry; apply Z.ltb_lt; lia).
    cbn [bind fst snd replay]. rewrite Hdead. reflexivity.
Qed.

End GrammarDriver.

(** ** parser.h: variations in the text *)

Lemma find_transition_not_empty (s target : State) (event : Event) :
  find_transition s event = Some target -> transitions_empty s = false.
Proof. destruct s, event; vm_compute; congruence. Qed.

Lemma consume_token_rejoin (s s' target : State) (d : Z) (w : bool)
    (token : Token) (event : Event) :
  is_commentary token = false ->
  is_paren token = false ->
  event_of token = Some event ->
  find_transition s event = Some target ->
  find_transition s' event = Some target ->
  consume_token (mkPGNParser s d w) token
  = consume_token (mkPGNParser s' d w) token.
Proof.
  intros Hc Hp He Hs Hs'. unfold is_commentary in Hc. rewrite He in Hc.
  assert (Hl : bool_decide (event = LeftParenthesisToken_Event) = false)
    by (destruct token; try discriminate Hp; try discriminate He;
        injection He as <-; reflexivity).
  assert (Hr : bool_decide (event = RightParenthesisToken_Event) = false)
    by (destruct token; try discriminate Hp; try discriminate He;
        injection He as <-; reflexivity).
  unfold consume_token. rewrite He, Hc, Hl, Hr.
  cbn [state_ paranthesis_count_ white_turn].
  rewrite Hs, Hs'.
  rewrite (find_transition_not_empty _ _ _ Hs).
  rewrite (find_transition_not_empty _ _ _ Hs').
  reflexivity.
Qed.

Section Rejoin.

Variable order : list Coordinates -> list Coordinates.

Lemma replay_rejoin (s s' : State) (tokens : list Token) :
  rejoin s s' tokens = true ->
  forall (d : Z) (w : bool) (b : Board),
    replay order tokens (mkPGNParser s d w) b
    = replay order tokens (mkPGNParser s' d w) b.
Proof.
  induction tokens as [|token rest IH]; intros H d w b; [reflexivity |].
  cbn [rejoin] in H. cbn [replay].
  destruct (is_commentary token) eqn:Hc.
  - rewrite !(consume_token_commentary _ _ Hc). cbn [bind fst snd].
    apply IH, H.
  - destruct (is_paren token) eqn:Hp; cbn [orb] in H.
    + destruct token; try discriminate Hp; cbn; apply IH, H.
    + destruct (event_of token) as [event|] eqn:He; [|discriminate H].
      destruct (find_transition s event) as [target|] eqn:Hs;
        [|discriminate H].
      apply bool_decide_eq_true_1 in H.
      rewrite (consume_token_rejoin s s' target d w token event)
        by assumption.
      reflexivity.
Qed.

Lemma replay_alike (s s' : State) (tokens : list Token) (d : Z) (w : bool)
    (b : Board) :
  alike s s' tokens = true ->
  replay order tokens (mkPGNParser s d w) b
  = replay order tokens (mkPGNParser s' d w) b.
Proof.
  unfold alike. intros H. apply orb_true_iff in H as [H | H].
  - apply bool_decide_eq_true_1 in H. subst s'. reflexivity.
  - apply replay_rejoin, H.
Qed.

(** A variation can be taken out of the token sequence. *)
Lemma replay_without_variation (pre rav post : list Token) (p0 p : PGNParser)
    (s' : State) (b0 : Board) :
  parser_after pre p0 = Ok p ->
  0 <= paranthesis_count_ p ->
  nesting 0 rav = Some 0%nat ->
  automaton_run (state_ p) rav = Some s' ->
  alike (state_ p) s' post = true ->
  replay order
    (pre ++ LeftParenthesisToken :: rav ++ RightParenthesisToken :: post) p0 b0
  = replay order (pre ++ post) p0 b0.
Proof.
  intros Hpre Hdepth Hnest Hrun Halike.
  apply (replay_prefix order pre _ _ p0 p Hpre). intros b.
  change (replay order (LeftParenthesisToken :: rav ++ RightParenthesisToken :: post) p b)
    with (replay order (rav ++ RightParenthesisToken :: post)
            (mkPGNParser (state_ p) (paranthesis_count_ p + 1) (white_turn p)) b).
  rewrite (replay_inside order rav (RightParenthesisToken :: post) 0 0
             (mkPGNParser (state_ p) (paranthesis_count_ p + 1) (white_turn p))
             s' b Hnest Hrun) by (simpl; lia).
  cbn [replay consume_token event_of is_dummy bind fst snd state_
       paranthesis_count_ white_turn].
  change (replay order post
            (mkPGNParser s'
               (paranthesis_count_ p + 1 - Z.of_nat 0 + Z.of_nat 0 - 1)
               (white_turn p)) b
          = replay order post p b).
  replace (paranthesis_count_ p + 1 - Z.of_nat 0 + Z.of_nat 0 - 1)
    with (paranthesis_count_ p) by lia.
  rewrite <- (replay_alike (state_ p) s' post _ _ b Halike).
  destruct p; reflexivity.
Qed.

End Rejoin.

(** The same on texts, once the scanner is known to split the text around
    the variation. *)
Lemma replay_text_without_variation
    (order : list Coordinates -> list Coordinates)
    (pre body post : list ascii) (tpre trav tpost : list Token)
    (p : PGNParser) (s' : State) :
  tokens_of_text (pre ++ "("%char :: body ++ ")"%char :: post)
  = Ok (tpre ++ LeftParenthesisToken :: trav
        ++ RightParenthesisToken :: tpost) ->
  tokens_of_text (pre ++ post) = Ok (tpre ++ tpost) ->
  parser_after tpre new_PGNParser = Ok p ->
  0 <= paranthesis_count_ p ->
  nesting 0 trav = Some 0%nat ->
  automaton_run (state_ p) trav = Some s' ->
  alike (state_ p) s' tpost = true ->
  replay_text order (pre ++ "("%char :: body ++ ")"%char :: post)
  = replay_text order (pre ++ post).
Proof.
  intros Hfull Hcut Hpre Hdepth Hnest Hrun Halike.
  unfold replay_text.
  rewrite (main_loop_replay order _ _ _ _ _ Hfull).
  rewrite (main_loop_replay order _ _ _ _ _ Hcut).
  apply (replay_without_variation order tpre trav tpost new_PGNParser p s');
    assumption.
Qed.

(** The scanner splits the text around a variation that stands between
    complete tokens. *)
Lemma tokens_around_variation (pre body post : list ascii)
    (tpre trav tpost : list Token) :
  scanned pre tpre ->
  scanned ("("%char :: body ++ [")"%char])
    (LeftParenthesisToken :: trav ++ [RightParenthesisToken]) ->
  tokens_of_text post = Ok tpost ->
  tokens_of_text (pre ++ "("%char :: body ++ ")"%char :: post)
  = Ok (tpre ++ LeftParenthesisToken :: trav
        ++ RightParenthesisToken :: tpost)
  /\ tokens_of_text (pre ++ post) = Ok (tpre ++ tpost).
Proof.
  intros Hpre Hrav Hpost. split.
  - replace ("("%char :: body ++ ")"%char :: post)
      with (("("%char :: body ++ [")"%char]) ++ post)
      by (cbn [app]; rewrite <- app_assoc; reflexivity).
    rewrite (tokens_of_text_scanned _ _ Hpre),
      (tokens_of_text_scanned _ _ Hrav), Hpost.
    cbn [bind app]. rewrite <- app_assoc. reflexivity.
  - rewrite (tokens_of_text_scanned _ _ Hpre), Hpost. reflexivity.
Qed.

(** C3 (counterexample).  In [1. e4 e5(1. d4 d5)] the opening parenthesis
    is what ends the atom [e5]: the black pawn is moved to e5.  With the
    variation removed, [e5] is the last atom of the text, it is still open
    where the text ends and is dropped: the pawn stays on e7. *)
Lemma variation_after_last_move_alters_board :
  exists b1 b2,
    replay_text insertion_order (str "1. e4 e5(1. d4 d5)") = Ok b1
    /\ replay_text insertion_order (str "1. e4 e5") = Ok b2
    /\ cell_at b1 3 4 = Ok (mkCell false "P" true)
    /\ cell_at b2 3 4 = Ok (mkCell false "." false)
    /\ b1 <> b2.
Proof.
  do 2 eexists. split; [vm_compute; reflexivity |].
  split; [vm_compute; reflexivity |].
  split; [reflexivity |]. split; [reflexivity |]. discriminate.
Qed.

(** C3 (amended).  Take a text [pre ( body ) post] that the scanner splits
    into the tokens of [pre], an opening parenthesis, the tokens of the
    body, a closing parenthesis and the tokens of [post], and such that the
    text without the variation, [pre post], is split into the tokens of
    [pre] and those of [post]: removing the variation removes its tokens and
    changes no other.  Let the tokens before the variation raise no grammar
    error and leave a parenthesis depth that is not negative, let the body be
    parenthesis-balanced and raise no grammar error, and let the tokens after
    the variation be handled alike from the state the body leaves the
    automaton in and from the state it found it in (the two states are the
    same, or nothing but commentary and parentheses follows, or the next
    token has the same transition from both).  Then the replay of the text
    and the replay of the text without the variation end alike, with the
    same board or the same error.  The scanner splits the two texts in this
    way whenever [pre] and the variation are each scanned completely, with
    no atom left open where they end.  In particular
    [1. e4 (1. d4 d5) {Ruy Lopez} e5] and [1. e4 e5] yield the same position,
    with or without a separator after the last half-move. *)
Theorem rav_does_not_alter_board :
  (forall (order : list Coordinates -> list Coordinates)
          (pre body post : list ascii) (tpre trav tpost : list Token)
          (p : PGNParser) (s' : State),
     tokens_of_text (pre ++ "("%char :: body ++ ")"%char :: post)
     = Ok (tpre ++ LeftParenthesisToken :: trav
           ++ RightParenthesisToken :: tpost) ->
     tokens_of_text (pre ++ post) = Ok (tpre ++ tpost) ->
     parser_after tpre new_PGNParser = Ok p ->
     0 <= paranthesis_count_ p ->
     nesting 0 trav = Some 0%nat ->
     automaton_run (state_ p) trav = Some s' ->
     alike (state_ p) s' tpost = true ->
     replay_text order (pre ++ "("%char :: body ++ ")"%char :: post)
     = replay_text order (pre ++ post))
  /\ (forall (pre body post : list ascii) (tpre trav tpost : list Token),
        scanned pre tpre ->
        scanned ("("%char :: body ++ [")"%char])
          (LeftParenthesisToken :: trav ++ [RightParenthesisToken]) ->
        tokens_of_text post = Ok tpost ->
        tokens_of_text (pre ++ "("%char :: body ++ ")"%char :: post)
        = Ok (tpre ++ LeftParenthesisToken :: trav
              ++ RightParenthesisToken :: tpost)
        /\ tokens_of_text (pre ++ post) = Ok (tpre ++ tpost))
  /\ (forall order : list Coordinates -> list Coordinates,
        replay_text order (str "1. e4 (1. d4 d5) {Ruy Lopez} e5")
        = replay_text order (str "1. e4 e5")
        /\ replay_text order (str "1. e4 (1. d4 d5) {Ruy Lopez} e5 ")
           = replay_text order (str "1. e4 e5 ")).
Proof.
  split; [exact replay_text_without_variation |].
  split; [exact tokens_around_variation |].
  intros order. unfold replay_text. split.
  - erewrite !main_loop_replay by (vm_compute; reflexivity).
    transitivity (replay order (rav_example_pre ++ [BraceComment])
                    new_PGNParser initial_board).
    + apply (replay_without_variation order rav_example_pre rav_example_rav
               [BraceComment] new_PGNParser (mkPGNParser ParsingMove 0 true)
               ParsingMove);
        [reflexivity | simpl; lia | reflexivity | reflexivity | reflexivity].
    + apply (replay_prefix order rav_example_pre [BraceComment] []
               new_PGNParser (mkPGNParser ParsingMove 0 true));
        [reflexivity | intros b; reflexivity].
  - erewrite !main_loop_replay by (vm_compute; reflexivity).
    transitivity (replay order
                    (rav_example_pre
                     ++ [BraceComment; SymbolToken (str "e5") false])
                    new_PGNParser initial_board).
    + apply (replay_without_variation order rav_example_pre rav_example_rav
               [BraceComment; SymbolToken (str "e5") false]
               new_PGNParser (mkPGNParser ParsingMove 0 true) ParsingMove);
        [reflexivity | simpl; lia | reflexivity | reflexivity | reflexivity].
    + apply (replay_prefix order rav_example_pre
               [BraceComment; SymbolToken (str "e5") false]
               [SymbolToken (str "e5") false]
               new_PGNParser (mkPGNParser ParsingMove 0 true));
        [reflexivity | intros b; reflexivity].
Qed.

Lemma rav_does_not_alter_board_witness :
  replay_text insertion_order
    (str "1. e4 " ++ "("%char :: str "1. d4 d5" ++ ")"%char
     :: str " {Ruy Lopez} e5 ")
  = replay_text insertion_order (str "1. e4 " ++ str " {Ruy Lopez} e5 ").
Proof.
  destruct (proj1 (proj2 rav_does_not_alter_board)
              (str "1. e4 ") (str "1. d4 d5") (str " {Ruy Lopez} e5 ")
              rav_example_pre rav_example_rav
              [BraceComment; SymbolToken (str "e5") false])
    as [Hfull Hcut].
  - unfold rav_example_pre. scan_on.
  - unfold rav_example_rav. cbn [app]. scan_on.
  - reflexivity.
  - apply (proj1 rav_does_not_alter_board insertion_order
             (str "1. e4 ") (str "1. d4 d5") (str " {Ruy Lopez} e5 ")
             rav_example_pre rav_example_rav
             [BraceComment; SymbolToken (str "e5") false]
             (mkPGNParser ParsingMove 0 true) ParsingMove Hfull Hcut).
    + reflexivity.
    + simpl. lia.
    + reflexivity.
    + reflexivity.
    + reflexivity.
Defined.

(** The variation of [test_rav], in front of the first move and the whole
    text, and a variation in front of the first move: the automaton is left
    in another state than it was found in. *)
Example variation_before_the_first_move
    (order : list Coordinates -> list Coordinates) :
  replay_text order (str "(asdfasdf {asdfasd)(f})") = Ok initial_board
  /\ replay_text order (str "(1. d4 d5) 1. e4 e5 ")
     = replay_text order (str " 1. e4 e5 ").
Proof.
  split.
  - change (str "(asdfasdf {asdfasd)(f})")
      with ([] ++ "("%char :: str "asdfasdf {asdfasd)(f}" ++ ")"%char :: []).
    rewrite (replay_text_without_variation order
               [] (str "asdfasdf {asdfasd)(f}") []
               [] [SymbolToken (str "asdfasdf") false; BraceComment] []
               new_PGNParser ParsingMove);
      [reflexivity | vm_compute; reflexivity | reflexivity | reflexivity
      | simpl; lia | reflexivity | reflexivity | reflexivity].
  - apply (replay_text_without_variation order
             [] (str "1. d4 d5") (str " 1. e4 e5 ")
             [] rav_example_rav
             [IntegerToken (str "1"); PeriodToken;
              SymbolToken (str "e4") false; SymbolToken (str "e5") false]
             new_PGNParser ParsingMove);
      [vm_compute; reflexivity | reflexivity | reflexivity
      | simpl; lia | reflexivity | reflexivity | reflexivity].
Qed.

(** The position both texts end in, for the insertion order. *)
Example rav_example_position :
  exists b,
    replay_text insertion_order (str "1. e4 (1. d4 d5) {Ruy Lopez} e5 ") = Ok b
    /\ cell_at b 4 4 = Ok (mkCell true "P" true)
    /\ cell_at b 3 4 = Ok (mkCell false "P" true)
    /\ cell_at b 4 3 = Ok (mkCell false "." false)
    /\ cell_at b 3 3 = Ok (mkCell false "." false).
Proof. eexists. split; [vm_compute; reflexivity |]. repeat split. Qed.

(** ** parser.h: [MoveFactory] on algebraic notation *)

Lemma rank_facts (c : ascii) :
  char_between "1" "8" c = true ->
  (c =c "#") = false /\ (c =c "+") = false /\ (c =c ":") = false
  /\ (c =c ")") = false /\ is_piece c = false
  /\ (c =c "=") = false /\ (c =c "/") = false /\ (c =c "(") = false
  /\ (c =c "x") = false.
Proof.
  destruct c as [[] [] [] [] [] [] [] []]; vm_compute; intros H;
    try discriminate H; repeat split.
Qed.

Lemma file_facts (c : ascii) :
  char_between "a" "h" c = true ->
  (c =c "x") = false /\ (c =c ":") = false /\ char_between "1" "8" c = false.
Proof.
  destruct c as [[] [] [] [] [] [] [] []]; vm_compute; intros H;
    try discriminate H; repeat split.
Qed.

Lemma piece_facts (c : ascii) :
  is_piece c = true ->
  (c =c "#") = false /\ (c =c "+") = false /\ (c =c ":") = false
  /\ (c =c ")") = false /\ (c =c "x") = false
  /\ char_between "1" "8" c = false /\ char_between "a" "h" c = false.
Proof.
  destruct c as [[] [] [] [] [] [] [] []]; vm_compute; intros H;
    try discriminate H; repeat split.
Qed.

Lemma separator_facts (c : ascii) :
  (c =c "=") || (c =c "/") = true ->
  (c =c "=") || (c =c "/") || (c =c "(") = true.
Proof. intros ->. reflexivity. Qed.

Lemma parse_marks_spec (marks : list ascii) (h : ascii) (R val : list ascii)
    (w : bool) :
  forallb (fun c => (c =c "+") || (c =c "#")) marks = true ->
  (length marks <=? 2)%nat = true ->
  (h =c "#") = false -> (h =c "+") = false -> (h =c ":") = false ->
  parse_marks 2
    (mkNextMove zero w false false false (mkCoordinates None None)
       (mkCoordinates None None) None val)
    (rev marks ++ h :: R)
  = Ok (mkNextMove zero w false
          (existsb (fun c => c =c "+") marks)
          (existsb (fun c => c =c "#") marks)
          (mkCoordinates None None) (mkCoordinates None None) None val,
        h :: R).
Proof.
  intros Hm Hl H1 H2 H3.
  assert (Hmark : forall a, (a =c "+") || (a =c "#") = true ->
                            a = "+"%char \/ a = "#"%char).
  { intros a Ha. apply orb_true_iff in Ha as [Ha | Ha];
      apply char_eq_true in Ha; auto. }
  destruct marks as [|a [|a' [|]]]; try discriminate Hl; clear Hl;
    cbn [forallb] in Hm.
  - cbn. rewrite H1, H2, H3. reflexivity.
  - rewrite andb_true_r in Hm.
    destruct (Hmark a Hm) as [-> | ->]; cbn; rewrite H1, H2, H3; reflexivity.
  - rewrite andb_true_r in Hm. apply andb_true_iff in Hm as [Ha Ha'].
    destruct (Hmark a Ha) as [-> | ->], (Hmark a' Ha') as [-> | ->];
      reflexivity.
Qed.

Lemma rev_opt_char (o : option ascii) : rev (opt_char o) = opt_char o.
Proof. destruct o; reflexivity. Qed.

Lemma rev_san (piece_ sfile srank : option ascii) (cap : bool)
    (dfile drank : ascii) (promo : option (option ascii * ascii))
    (marks : list ascii) :
  rev (san piece_ sfile srank cap dfile drank promo marks)
  = rev marks
    ++ match promo with
       | Some (sep, p) => p :: opt_char sep
       | None => []
       end
    ++ drank :: dfile :: (if cap then ["x"%char] else [])
    ++ opt_char srank ++ opt_char sfile ++ opt_char piece_.
Proof.
  unfold san. rewrite !rev_app_distr, !rev_opt_char.
  destruct promo as [[sep p]|], cap; cbn [rev app];
    rewrite ?rev_app_distr, ?rev_opt_char; cbn [rev app];
    rewrite <- ?app_assoc; reflexivity.
Qed.

Lemma san_is_not_special (piece_ sfile srank : option ascii) (cap : bool)
    (dfile drank : ascii) (promo : option (option ascii * ascii))
    (marks : list ascii) (special : string) :
  char_between "a" "h" dfile = true ->
  char_between "1" "8" drank = true ->
  In special ["e"; "p"; "O-O"; "O-O-O"; "1-0"; "0-1"; "1/2-1/2"]%string ->
  string_eq (san piece_ sfile srank cap dfile drank promo marks) (str special)
  = false.
Proof.
  intros Hf Hr Hs. unfold string_eq. apply bool_decide_eq_false_2. intros E.
  assert (Hin : In dfile (str special) /\ In drank (str special)).
  { rewrite <- E. unfold san. rewrite !in_app_iff. cbn [In]. tauto. }
  destruct Hin as [Hd Hk].
  cbn [In] in Hs.
  repeat (destruct Hs as [<- | Hs];
          [cbn in Hd, Hk;
           repeat (destruct Hd as [<- | Hd]; [try discriminate Hf |]);
           try contradiction;
           repeat (destruct Hk as [<- | Hk]; [try discriminate Hr |]);
           try contradiction |]).
  exact Hs.
Qed.

Lemma regular_move_read_source (val : list ascii) (w : bool) :
  regular_move val w
  = (let m := mkNextMove zero w false false false
                (mkCoordinates None None) (mkCoordinates None None) None val in
     mc <- parse_marks 2 m (rev val) ;;
     let '(m, c) := mc in
     ch <- peek c ;;
     c <- (if ch =c ")" then _ <- needs_one_char (tail c) ;; Ok (tail c)
           else Ok c) ;;
     ch <- peek c ;;
     mc <- (if is_piece ch then
              _ <- needs_one_char (tail c) ;;
              sep <- peek (tail c) ;;
              Ok (with_promote_piece ch m,
                  if (sep =c "=") || (sep =c "/") || (sep =c "(")
                  then tail (tail c) else tail c)
            else Ok (m, c)) ;;
     let '(m, c) := mc in
     dc <- parse_square true c ;;
     let '(d, c) := dc in
     read_source (with_dst d m) c).
Proof. reflexivity. Qed.

Ltac use_facts :=
  repeat match goal with
         | H : ?l = true |- context [?l] => rewrite H
         | H : ?l = false |- context [?l] => rewrite H
         end.

Ltac read_on :=
  repeat progress
    (cbn [bind peek tail needs_one_char has_more_char empty negb andb orb
          app opt_char fst snd];
     use_facts).

Lemma parse_square_destination (rk fl : ascii) (rest : list ascii) :
  char_between "1" "8" rk = true -> char_between "a" "h" fl = true ->
  parse_square true (rk :: fl :: rest) = Ok (at_ (r rk) (f fl), rest).
Proof. intros Hr Hf. unfold parse_square. read_on. reflexivity. Qed.

Lemma read_source_spec (piece_ sfile srank : option ascii) (cap : bool)
    (w ck cm : bool) (d : Coordinates) (pr : option ascii) (val : list ascii) :
  from_option is_piece true piece_ = true ->
  from_option (char_between "a" "h") true sfile = true ->
  from_option (char_between "1" "8") true srank = true ->
  capture_has_source piece_ sfile srank cap = true ->
  read_source
    (mkNextMove zero w false ck cm (mkCoordinates None None) d pr val)
    ((if cap then ["x"%char] else [])
     ++ opt_char srank ++ opt_char sfile ++ opt_char piece_)
  = Ok (MNextMove
          (mkNextMove (default "P"%char piece_) w cap ck cm
             (mkCoordinates (r <$> srank) (f <$> sfile)) d pr val)).
Proof.
  unfold capture_has_source. intros Hpiece Hsfile Hsrank Hcap.
  assert (Hx : ("x" =c "x") = true) by reflexivity.
  destruct piece_ as [pc|], sfile as [fl|], srank as [rk|], cap;
    cbn [from_option] in Hpiece, Hsfile, Hsrank;
    try discriminate Hcap; clear Hcap;
    repeat match goal with
           | H : is_piece ?c = true |- _ =>
               lazymatch goal with
               | _ : (c =c ")") = false |- _ => fail
               | _ => pose proof (piece_facts c H) as (? & ? & ? & ? & ? & ? & ?)
               end
           | H : char_between "a" "h" ?c = true |- _ =>
               lazymatch goal with
               | _ : (c =c "x") = false |- _ => fail
               | _ => pose proof (file_facts c H) as (? & ? & ?)
               end
           | H : char_between "1" "8" ?c = true |- _ =>
               lazymatch goal with
               | _ : (c =c ")") = false |- _ => fail
               | _ => pose proof (rank_facts c H)
                        as (? & ? & ? & ? & ? & ? & ? & ? & ?)
               end
           end;
    unfold read_source, parse_square; read_on; reflexivity.
Qed.

(** X21.  The move interpreter reads standard algebraic notation back.  For every
    text made of an optional piece letter, an optional source file and rank,
    an optional capture sign, a destination file and rank, an optional
    promotion and at most two check or mate marks, [MoveFactory] returns the
    NextMove with exactly these parts: the piece (a pawn when no letter is
    given), the mover's colour, the capture flag, the check and mate flags,
    the source coordinates that are given, the destination square, the
    promotion piece and the text itself.  One text is not read back: when
    the capture sign is the first character, the interpreter looks for the
    source in front of it and reads before the beginning of the text. *)
Theorem MoveFactory_reads_algebraic_notation (piece_ sfile srank : option ascii)
    (cap : bool) (dfile drank : ascii) (promo : option (option ascii * ascii))
    (marks : list ascii) (w : bool) :
  san_parts_ok piece_ sfile srank dfile drank promo marks = true ->
  MoveFactory (san piece_ sfile srank cap dfile drank promo marks) w
  = if capture_has_source piece_ sfile srank cap then
      Ok (MNextMove
            (mkNextMove (default "P"%char piece_) w cap
               (existsb (fun c => c =c "+") marks)
               (existsb (fun c => c =c "#") marks)
               (mkCoordinates (r <$> srank) (f <$> sfile))
               (at_ (r drank) (f dfile))
               (snd <$> promo)
               (san piece_ sfile srank cap dfile drank promo marks)))
    else Err UndefinedBehaviour.
Proof.
  unfold san_parts_ok. intros H.
  repeat match type of H with
         | _ && _ = true => apply andb_true_iff in H as [H ?]
         end.
  rename H into Hpiece, H0 into Hlen, H1 into Hmarks,
    H2 into Hpromo, H3 into Hdrank, H4 into Hdfile, H5 into Hsrank,
    H6 into Hsfile.
  unfold MoveFactory.
  rewrite !(san_is_not_special _ _ _ _ _ _ _ _ _ Hdfile Hdrank)
    by (cbn; tauto).
  cbn [orb].
  rewrite regular_move_read_source, rev_san. cbv zeta.
  set (val := san piece_ sfile srank cap dfile drank promo marks).
  clearbody val.
  destruct (rank_facts drank Hdrank)
    as (Dh & Dp & Dc & Dparen & Dpiece & Deq & Dsl & Dlp & Dx).
  destruct (capture_has_source piece_ sfile srank cap) eqn:Hcap.
  - destruct promo as [[[sp|] pp]|]; cbn [from_option] in Hpromo;
      try (apply andb_true_iff in Hpromo as [Hsep Hpp]);
      try (apply separator_facts in Hsep);
      try (pose proof (piece_facts pp Hpp) as (? & ? & ? & ? & ? & ? & ?));
      cbn [app opt_char];
      erewrite parse_marks_spec by eassumption;
      read_on;
      rewrite parse_square_destination by assumption;
      read_on; unfold with_dst, with_promote_piece;
      cbn [piece is_white_move capture check checkmate src dst promote_piece
           orig_token];
      rewrite read_source_spec by assumption; reflexivity.
  - assert (piece_ = None /\ sfile = None /\ srank = None /\ cap = true)
      as (-> & -> & -> & ->).
    { unfold capture_has_source in Hcap.
      destruct piece_, sfile, srank, cap; try discriminate Hcap; auto. }
    destruct promo as [[[sp|] pp]|]; cbn [from_option] in Hpromo;
      try (apply andb_true_iff in Hpromo as [Hsep Hpp]);
      try (apply separator_facts in Hsep);
      try (pose proof (piece_facts pp Hpp) as (? & ? & ? & ? & ? & ? & ?));
      cbn [app opt_char];
      erewrite parse_marks_spec by eassumption;
      read_on;
      rewrite parse_square_destination by assumption;
      reflexivity.
Qed.

(** ** main: the end of the replay *)

(** X22.  The replay stops at the descriptor [Finish] and reads nothing after
    it.  When the driver answers a token with a [Finish], after tokens it has
    consumed without a grammar error, the tokens that follow have no effect
    on the outcome.  On a text, the scanner is not even asked for them: a
    text that starts with ['*'] is replayed to the starting position
    whatever follows the star, be it characters no token can start with. *)
Theorem the_replay_stops_at_the_result
    (order : list Coordinates -> list Coordinates) :
  (forall (pre post : list Token) (token : Token) (p p' p'' : PGNParser)
          (m : TerminationMarker) (b : Board),
     parser_after pre p = Ok p' ->
     consume_token p' token = Ok (Some (Finish m), p'') ->
     replay order (pre ++ token :: post) p b
     = replay order (pre ++ [token]) p b)
  /\ (forall rest : list ascii,
        replay_text order ("*"%char :: rest) = Ok initial_board).
Proof.
  split.
  - intros pre post token p p' p'' m b Hpre Hfin.
    apply (replay_prefix order pre _ _ p p' Hpre). intros b0.
    cbn [replay]. rewrite Hfin. reflexivity.
  - intros rest. unfold replay_text, scan_fuel.
    replace (2 * length ("*"%char :: rest) + 2)%nat
      with (S (2 * length ("*"%char :: rest) + 1)) by lia.
    cbn [main_loop]. reflexivity.
Qed.

(** ** scanner.h: the first character of a token *)

Lemma open_token_fails (c : ascii) :
  is_token_separator c = false ->
  opens_a_token c = false ->
  scan_char false true monostate c = Err Exception.
Proof.
  destruct c as [[] [] [] [] [] [] [] []]; vm_compute; intros Hs H;
    try discriminate H; try discriminate Hs; reflexivity.
Qed.

Lemma one_character_token_scanned (c : ascii) (t : Token) :
  one_character_token c = Some t ->
  scan_char false true monostate c = Ok (Terminated t false).
Proof.
  destruct c as [[] [] [] [] [] [] [] []]; vm_compute; intros H;
    try discriminate H; injection H as <-; reflexivity.
Qed.

Lemma read_loop_glyph (digits : list ascii) :
  forall (t0 : ascii) (rest : list ascii) (c : ascii),
    Forall (fun a => isdigit a = true) digits ->
    isdigit t0 = false ->
    read_loop false (NumericGlyphToken false) (digits ++ t0 :: rest) c
    = Ok (Some (NumericGlyphToken false), mkTokenScanner rest t0 true).
Proof.
  induction digits as [|a digits IH]; intros t0 rest c Hd Ht0.
  - cbn [app read_loop]. unfold scan_char. cbn [andb bind accept].
    unfold NumericGlyphToken_accept. rewrite Ht0. reflexivity.
  - inversion Hd as [|? ? Ha Hd']; subst.
    cbn [app read_loop]. unfold scan_char. cbn [andb bind accept].
    unfold NumericGlyphToken_accept. rewrite Ha. cbn [orb bind fst snd].
    apply IH; assumption.
Qed.

(** X23.  What the scanner does with the first character that is not a
    separator.  A character no token can start with, such as ['!'], ['?'],
    ['-'] or a closing brace, is a fatal lexical error.  The brackets, the
    parentheses, the star and the period are tokens of one character.  A
    dollar sign with the digits that follow it is one numeric annotation
    glyph, and the character that ends the digits is fed again. *)
Theorem first_character_of_a_token (s : TokenScanner) (ws : list ascii)
    (c : ascii) (rest : list ascii) :
  pending_input s = ws ++ c :: rest ->
  Forall (fun w => is_token_separator w = true) ws ->
  (is_token_separator c = false -> opens_a_token c = false ->
   scan_token s = Err Exception)
  /\ (forall t, one_character_token c = Some t ->
                scan_token s = Ok (Some t, mkTokenScanner rest c false))
  /\ (forall digits t0 rest',
        c = "$"%char -> rest = digits ++ t0 :: rest' ->
        Forall (fun a => isdigit a = true) digits -> isdigit t0 = false ->
        scan_token s
        = Ok (Some (NumericGlyphToken false), mkTokenScanner rest' t0 true)).
Proof.
  intros Hp Hws.
  rewrite scan_token_pending, Hp, read_loop_separators by assumption.
  cbn [read_loop]. repeat split.
  - intros Hsep Hopen. rewrite open_token_fails by assumption. reflexivity.
  - intros t Ht. rewrite (one_character_token_scanned c t Ht). reflexivity.
  - intros digits t0 rest' -> -> Hd Ht0.
    change (scan_char false true monostate "$")
      with (Ok (Continue false (NumericGlyphToken false))).
    cbn [bind]. apply read_loop_glyph; assumption.
Qed.

(** ** Instances *)

Lemma print_board_shows_the_position_witness :
  exists s1 s2,
    print_board cleared_board = Ok s1
    /\ print_board cleared_but_flags = Ok s2
    /\ (s1 = s2 <->
        forall a c c1 c2,
          in_range a = true -> in_range c = true ->
          cell_at cleared_board a c = Ok c1 ->
          cell_at cleared_but_flags a c = Ok c2 ->
          visible c1 = visible c2).
Proof.
  destruct (print_board cleared_board) as [s1|] eqn:H1;
    [|vm_compute in H1; discriminate H1].
  destruct (print_board cleared_but_flags) as [s2|] eqn:H2;
    [|vm_compute in H2; discriminate H2].
  exists s1, s2. split; [reflexivity |]. split; [reflexivity |].
  exact (print_board_shows_the_position cleared_board cleared_but_flags
           s1 s2 H1 H2).
Defined.

Lemma replayed_board_is_printed_witness :
  exists b,
    replay_text insertion_order (str "1. e4 e5 ") = Ok b
    /\ is_grid b
    /\ exists s, print_board b = Ok s /\ length s = 192%nat.
Proof.
  destruct (replay_text insertion_order (str "1. e4 e5 ")) as [b|] eqn:H;
    [|vm_compute in H; discriminate H].
  exists b. split; [reflexivity |].
  exact (replayed_board_is_printed insertion_order (str "1. e4 e5 ") b H).
Defined.

Lemma pieces_move_in_their_pattern_witness :
  exists sx sy dx dy,
    at_ 7 6 = at_ sx sy /\ at_ 5 5 = at_ dx dy
    /\ pattern "N" true false sx sy dx dy = true
    /\ (sx, sy) <> (dx, dy).
Proof.
  apply (pieces_move_in_their_pattern knight_to_f3 initial_board initial_board
           (at_ 7 6) (at_ 5 5)).
  vm_compute. reflexivity.
Defined.

Lemma accepted_move_lands_safely_witness :
  exists dx dy cell,
    at_ 5 5 = at_ dx dy /\ cell_at initial_board dx dy = Ok cell
    /\ cell_piece cell <> "K"%char
    /\ (false = false -> cell_piece cell = "."%char)
    /\ (false = true -> cell_piece cell <> "."%char ->
        is_white cell = negb true).
Proof.
  apply (accepted_move_lands_safely knight_to_f3 initial_board initial_board
           (at_ 7 6) (at_ 5 5)).
  vm_compute. reflexivity.
Defined.

Lemma apply_NextMove_effect_witness :
  exists b',
    apply insertion_order initial_board (MNextMove knight_to_f3) = Ok b'
    /\ exists sx sy dx dy,
         (sx, sy) <> (dx, dy)
         /\ pattern "N" true false sx sy dx dy = true
         /\ (exists cd, cell_at b' dx dy = Ok cd
                        /\ cell_piece cd = "N"%char /\ is_white cd = true)
         /\ (exists cs, cell_at b' sx sy = Ok cs /\ cell_piece cs = "."%char)
         /\ forall a c, (a, c) <> (sx, sy) -> (a, c) <> (dx, dy) ->
                        (a, c) <> (sx, dy) ->
                        cell_at b' a c = cell_at initial_board a c.
Proof.
  destruct (apply insertion_order initial_board (MNextMove knight_to_f3))
    as [b'|] eqn:H; [|vm_compute in H; discriminate H].
  exists b'. split; [reflexivity |].
  exact (apply_NextMove_effect insertion_order initial_board b' knight_to_f3 H).
Defined.

Lemma pawn_moves_witness :
  (exists b1,
     can_move_pawn initial_board (at_ 6 4) (at_ 4 4) false true = Ok (true, b1)
     /\ update_cell initial_board 4 4 (set_double_move true) = Ok b1)
  /\ exists b,
       place (place (Ok cleared_board) 3 2 (mkCell true "P" false))
         2 1 (mkCell false "N" false) = Ok b
       /\ (can_move_pawn b (at_ 3 2) (at_ 2 1) true true = Ok (true, b)
           <-> 3 - 2 = 1 /\ Z.abs (1 - 2) = 1
               /\ is_white (mkCell false "N" false) = negb true
               /\ cell_piece (mkCell false "N" false) <> "K"%char
               /\ b = b).
Proof.
  split.
  - destruct (update_cell initial_board 4 4 (set_double_move true))
      as [b1|] eqn:Hb1; [|vm_compute in Hb1; discriminate Hb1].
    exists b1. split; [|reflexivity].
    apply (proj1 (pawn_moves initial_board b1 6 4 4 4 true)).
    split; [reflexivity |]. right.
    split; [reflexivity |]. split; [reflexivity |].
    split; [eexists; split; reflexivity |].
    split; [eexists; split; reflexivity |]. exact Hb1.
  - destruct (place (place (Ok cleared_board) 3 2 (mkCell true "P" false))
                2 1 (mkCell false "N" false)) as [b|] eqn:Hb;
      [|vm_compute in Hb; discriminate Hb].
    exists b. split; [reflexivity |].
    apply (proj2 (pawn_moves b b 3 2 2 1 true) (mkCell false "N" false)).
    + vm_compute in Hb. injection Hb as <-. reflexivity.
    + discriminate.
Defined.

Lemma king_side_castling_witness :
  exists b',
    apply insertion_order initial_board (KingCastling true) = Err AssertionFailed
    /\ (b1 <- update_cell initial_board 7 5 (set_piece ".") ;;
        b2 <- update_cell b1 7 6 (set_piece ".") ;;
        apply insertion_order b2 (KingCastling true)) = Ok b'
    /\ cell_at b' 7 6 = Ok (mkCell true "K" false)
    /\ cell_at b' 7 5 = Ok (mkCell true "R" false).
Proof.
  pose proof (king_side_castling insertion_order initial_board true
                (mkCell true "K" false) (mkCell true "R" false)
                (mkCell true "B" false) (mkCell true "N" false)
                eq_refl eq_refl eq_refl eq_refl) as [_ Hfatal].
  eexists. split; [apply Hfatal; left; discriminate |].
  split; [reflexivity |]. split; reflexivity.
Defined.

Lemma manualy_set_cell_then_get_witness :
  (exists b',
     manualy_set_cell cleared_board (at_ 1 1) (mkCell true "K" false) = Ok b'
     /\ is_grid b'
     /\ get b' (at_ 1 1) = Ok (mkCell true "K" false)
     /\ forall c', c' <> at_ 1 1 -> get b' c' = get cleared_board c')
  /\ manualy_set_cell cleared_board (at_ 8 0) (mkCell true "K" false)
     = Err AssertionFailed.
Proof.
  destruct (manualy_set_cell_then_get cleared_board (at_ 1 1)
              (mkCell true "K" false)) as [Hset _].
  destruct (manualy_set_cell_then_get cleared_board (at_ 8 0)
              (mkCell true "K" false)) as [_ Hfatal].
  split.
  - apply (Hset 1 1); reflexivity.
  - apply Hfatal. left. reflexivity.
Defined.

Lemma is_locked_sound_witness :
  exists b,
    pinned_knight_board = Ok b
    /\ exists ddx ddy n m king att,
         In (ddx, ddy) directions /\ 1 <= n /\ 1 <= m
         /\ cell_at b (7 + n * ddx) (2 + n * ddy) = Ok king
         /\ cell_piece king = "K"%char /\ is_white king = true
         /\ (forall k, 0 < k < n ->
               empty_square b (7 + k * ddx) (2 + k * ddy))
         /\ cell_at b (7 - m * ddx) (2 - m * ddy) = Ok att
         /\ is_white att = negb true
         /\ line_piece (negb (ddx * ddy =? 0)) (cell_piece att) = true
         /\ (forall k, 0 < k < m ->
               empty_square b (7 - k * ddx) (2 - k * ddy)
               \/ at_ 5 3 = at_ (7 - k * ddx) (2 - k * ddy)).
Proof.
  destruct pinned_knight_board as [b|] eqn:Hb;
    [|vm_compute in Hb; discriminate Hb].
  exists b. split; [reflexivity |].
  apply (is_locked_sound b 7 2 (at_ 5 3) false true).
  vm_compute in Hb. injection Hb as <-. vm_compute. reflexivity.
Defined.

Lemma candidate_squares_witness :
  (forall a c,
     In (at_ a c)
       [at_ 7 1; at_ 7 6]
     <-> agrees None a /\ agrees None c
         /\ exists cell, cell_at initial_board a c = Ok cell
                         /\ cell_piece cell = "N"%char
                         /\ is_white cell = true)
  /\ src_candidates initial_board
       (mkNextMove "N" true false false false (at_ 7 6) (at_ 5 5) None
          (str "Ng1f3"))
     = Ok [at_ 7 6].
Proof.
  destruct (candidate_squares initial_board knight_to_f3 eq_refl)
    as (Hsrc & _ & _ & _).
  destruct (candidate_squares initial_board
              (mkNextMove "N" true false false false (at_ 7 6) (at_ 5 5) None
                 (str "Ng1f3")) eq_refl) as (_ & _ & Hfull & _).
  split.
  - apply (Hsrc [at_ 7 1; at_ 7 6]); [vm_compute; reflexivity |].
    left. reflexivity.
  - apply (Hfull 7 6). reflexivity.
Defined.

Lemma scanner_yields_well_formed_tokens_witness :
  token_ok (IntegerToken (str "12")) = true
  /\ event_of (IntegerToken (str "12")) <> None.
Proof.
  apply (scanner_yields_well_formed_tokens
           (new_TokenScanner (str "12. e4"))
           (mkTokenScanner (str " e4") "." true)).
  reflexivity.
Defined.

Lemma symbol_ends_before_the_first_other_character_witness :
  scan_token (new_TokenScanner (str "  Nf3{best} e5"))
  = Ok (Some (word_token (str "Nf3")), mkTokenScanner (str "best} e5") "{" true)
  /\ pending_input (mkTokenScanner (str "best} e5") "{" true)
     = str "{best} e5".
Proof.
  apply (symbol_ends_before_the_first_other_character
           (new_TokenScanner (str "  Nf3{best} e5"))
           (str "  ") "N" (str "f3") "{" (str "best} e5")).
  - reflexivity.
  - repeat constructor.
  - reflexivity.
  - repeat constructor.
  - reflexivity.
Defined.

Lemma comments_run_to_their_end_witness :
  scan_token (new_TokenScanner (str " {a {nested} b} e5"))
  = Ok (Some BraceComment, mkTokenScanner (str " b} e5") "}" false).
Proof.
  destruct (comments_run_to_their_end
              (new_TokenScanner (str " {a {nested} b} e5"))
              (str " ") (str "a {nested") (str " b} e5")) as [Hbrace _].
  - repeat constructor.
  - apply Hbrace; [repeat constructor; discriminate | reflexivity].
Defined.

Lemma plain_string_is_scanned_back_witness :
  scan_token (new_TokenScanner (dquote :: dquote :: str "Kasparov, G"
                                ++ dquote :: str "]"))
  = Ok (Some (StringToken (str "Kasparov, G")),
        mkTokenScanner (str "]") dquote false).
Proof.
  apply (plain_string_is_scanned_back
           (new_TokenScanner (dquote :: dquote :: str "Kasparov, G"
                              ++ dquote :: str "]"))
           1 [] (str "Kasparov, G") (str "]")).
  - reflexivity.
  - constructor.
  - repeat constructor.
  - discriminate.
Defined.

Lemma text_is_scanned_token_by_token_witness :
  tokens_of_text (str "  " ++ str "e4 e5 ") = tokens_of_text (str "e4 e5 ")
  /\ tokens_of_text (str "e4 e5 ")
     = (rest <- tokens_of_text
                  (pending_input (mkTokenScanner (str "e5 ") " " true)) ;;
        Ok (SymbolToken (str "e4") false :: rest)).
Proof.
  destruct (text_is_scanned_token_by_token (str "e4 e5 "))
    as (Hws & Htoken & _).
  split.
  - apply Hws. repeat constructor.
  - apply Htoken. reflexivity.
Defined.

Lemma replay_reads_types_and_symbols_only_witness :
  replay insertion_order
    [IntegerToken (str "1"); PeriodToken; SymbolToken (str "e4") false]
    new_PGNParser initial_board
  = replay insertion_order
      [IntegerToken (str "77"); PeriodToken; SymbolToken (str "e4") true]
      new_PGNParser initial_board.
Proof.
  apply (replay_reads_types_and_symbols_only insertion_order
           [IntegerToken (str "1"); PeriodToken; SymbolToken (str "e4") false]
           [IntegerToken (str "77"); PeriodToken; SymbolToken (str "e4") true]).
  reflexivity.
Defined.

Lemma tag_pairs_are_skipped_witness :
  replay insertion_order
    (concat (map tag_pair [(str "Event", str "Match"); (str "Round", str "29")])
     ++ [IntegerToken (str "1"); PeriodToken; SymbolToken (str "e4") false])
    new_PGNParser initial_board
  = replay insertion_order
      [IntegerToken (str "1"); PeriodToken; SymbolToken (str "e4") false]
      (mkPGNParser ParsingRightBracket 0 false) initial_board.
Proof.
  apply (tag_pairs_are_skipped insertion_order
           [(str "Event", str "Match"); (str "Round", str "29")]
           [IntegerToken (str "1"); PeriodToken; SymbolToken (str "e4") false]
           new_PGNParser initial_board).
  - left. reflexivity.
  - simpl. lia.
  - discriminate.
Defined.

Lemma finished_is_a_dead_end_witness :
  consume_token (mkPGNParser Finished 0 true) (SymbolToken (str "e5") false)
  = Err AssertionFailed
  /\ replay insertion_order
       [AsterkixToken; SymbolToken (str "e5") false; RightParenthesisToken]
       (mkPGNParser ParsingMove 1 true) initial_board
     = Err AssertionFailed.
Proof.
  destruct (finished_is_a_dead_end insertion_order
              (mkPGNParser Finished 0 true) (SymbolToken (str "e5") false)
              eq_refl eq_refl) as [Hdead _].
  destruct (finished_is_a_dead_end insertion_order
              (mkPGNParser ParsingMove 1 true) (SymbolToken (str "e5") false)
              eq_refl eq_refl) as [_ Hstar].
  split.
  - apply Hdead. reflexivity.
  - apply Hstar; [simpl; lia | discriminate | discriminate].
Defined.

Lemma MoveFactory_reads_algebraic_notation_witness :
  MoveFactory (str "a7xb8=Q+") false
  = Ok (MNextMove
          (mkNextMove "P" false true true false (at_ 1 0) (at_ 0 1)
             (Some "Q"%char) (str "a7xb8=Q+")))
  /\ MoveFactory (str "xe4") true = Err UndefinedBehaviour.
Proof.
  split.
  - apply (MoveFactory_reads_algebraic_notation None (Some "a"%char)
             (Some "7"%char) true "b" "8" (Some (Some "="%char, "Q"%char))
             (str "+") false).
    reflexivity.
  - apply (MoveFactory_reads_algebraic_notation None None None true
             "e" "4" None [] true).
    reflexivity.
Defined.

Lemma first_character_of_a_token_witness :
  scan_token (new_TokenScanner (str " !"))  = Err Exception
  /\ scan_token (new_TokenScanner (str "...")) 
     = Ok (Some PeriodToken, mkTokenScanner (str "..") "." false)
  /\ scan_token (new_TokenScanner (str "$14 e5"))
     = Ok (Some (NumericGlyphToken false), mkTokenScanner (str "e5") " " true).
Proof.
  destruct (first_character_of_a_token (new_TokenScanner (str " !"))
              (str " ") "!" [] eq_refl) as (Hbad & _); [repeat constructor |].
  destruct (first_character_of_a_token (new_TokenScanner (str "..."))
              [] "." (str "..") eq_refl) as (_ & Hone & _); [constructor |].
  destruct (first_character_of_a_token (new_TokenScanner (str "$14 e5"))
              [] "$" (str "14 e5") eq_refl) as (_ & _ & Hglyph);
    [constructor |].
  split; [apply Hbad; reflexivity |].
  split; [apply Hone; reflexivity |].
  apply (Hglyph (str "14") " "%char (str "e5"));
    [reflexivity | reflexivity | repeat constructor | reflexivity].
Defined.

Lemma the_replay_stops_at_the_result_witness :
  replay insertion_order
    ([IntegerToken (str "1"); PeriodToken; SymbolToken (str "e4") false]
     ++ SymbolToken (str "1-0") false :: [RightBraceToken; PeriodToken])
    new_PGNParser initial_board
  = replay insertion_order
      ([IntegerToken (str "1"); PeriodToken; SymbolToken (str "e4") false]
       ++ [SymbolToken (str "1-0") false])
      new_PGNParser initial_board.
Proof.
  apply (proj1 (the_replay_stops_at_the_result insertion_order)
           [IntegerToken (str "1"); PeriodToken; SymbolToken (str "e4") false]
           [RightBraceToken; PeriodToken] (SymbolToken (str "1-0") false)
           new_PGNParser (mkPGNParser ParsingMove 0 true)
           (mkPGNParser ParsingMove 0 false) WHITE_WON initial_board).
  - reflexivity.
  - reflexivity.
Defined.
